(** * donkeycar/templates/train.py: the training data pipeline

    A shallow embedding of the tub index ([make_key], [collate_records]),
    the checkpoint callback ([MyCPCallback]), the batch generator of
    [train], the window assembler and generator of [sequence_train], and
    the dispatcher [multi_train]; further, the saving and sending of the
    best model ([save_json_and_weights], [on_best_model]), the pruning
    loop of [go_train] with [prune], [get_total_channels],
    [get_model_apoz] and [SequencePredictionGenerator], and the lists of
    tub directories of the command line ([removeComments],
    [preprocessFileList]).

    Conventions.
    - Python floats are rendered as rationals [Q]; every property below
      only moves control values around or compares them, so no rounding is
      involved.  Positive infinity is a separate constructor where the
      source uses [np.Inf].
    - A Python [dict] used as the record store is a [gmap string _].
    - Everything the module imports from other files (donkeycar.utils,
      numpy, keras, sklearn, the file system, the random generator) is a
      field of the record [World], one snapshot per call; what
      [on_best_model] meets of the machine is the record [Host], and what
      pruning takes from Keras and kerassurgeon is the record [Keras]. *)

From stdpp Require Import gmap strings list fin_maps pretty sorting.
From Stdlib Require Import QArith Ascii.
Close Scope Q_scope.
Open Scope string_scope.
Open Scope list_scope.
Open Scope nat_scope.
Set Warnings "-register-all".

(** ** Exceptions and results *)

Inductive exn : Type :=
  | AssertionError
  | KeyError (k : string)
  | TypeError
  | ValueError
  | IndexError
  | IOError
  | ZeroDivisionError
  | Exception (msg : string).

Inductive result (A : Type) : Type :=
  | Ok (a : A)
  | Raise (e : exn).
Arguments Ok {A} a.
Arguments Raise {A} e.

(** Sequencing: an exception skips the rest of the block.  With these
    two instances [x ← r; k] is stdpp's bind notation. *)
#[global] Instance result_ret : MRet result := λ A a, Ok a.
#[global] Instance result_bind : MBind result := λ A B k r,
  match r with
  | Ok a => k a
  | Raise e => Raise e
  end.
#[global] Instance result_fmap : FMap result := λ A B f r,
  match r with
  | Ok a => Ok (f a)
  | Raise e => Raise e
  end.

(** [try: ... except: pass] around a computation. *)
Definition try_opt {A : Type} (r : result A) : option A :=
  match r with
  | Ok a => Some a
  | Raise _ => None
  end.

(** ** numpy arrays *)

Inductive tensor : Type :=
  | TScalar (q : Q)
  | TArr (l : list tensor).

(** [np.array(values)] on a Python list of arrays or floats. *)
Definition np_array (l : list tensor) : tensor := TArr l.

Fixpoint shape (t : tensor) : list nat :=
  match t with
  | TScalar _ => []
  | TArr l => length l :: match l with
                          | [] => []
                          | x :: _ => shape x
                          end
  end.

Fixpoint flatten (t : tensor) : list Q :=
  match t with
  | TScalar q => [q]
  | TArr l => (fix go (l : list tensor) : list Q :=
                 match l with
                 | [] => []
                 | x :: r => flatten x ++ go r
                 end) l
  end.

Fixpoint chunks {A : Type} (count size : nat) (l : list A) : list (list A) :=
  match count with
  | O => []
  | S c => take size l :: chunks c size (drop size l)
  end.

Definition numel (dims : list nat) : nat := foldr Nat.mul 1 dims.

Fixpoint build (dims : list nat) (data : list Q) : tensor :=
  match dims with
  | [] => match data with
          | q :: _ => TScalar q
          | [] => TScalar 0%Q
          end
  | d :: rest => TArr (build rest <$> chunks d (numel rest) data)
  end.

(** [arr.reshape(dims)]: same elements in row-major order, [ValueError]
    when the sizes disagree.  The arrays of a list given to [np.array]
    are taken to be of one shape, as the images of one configuration are;
    numpy refuses a list of arrays of unequal shapes, and that case is
    not told apart here. *)
Definition reshape (t : tensor) (dims : list nat) : result tensor :=
  if decide (length (flatten t) = numel dims)
  then Ok (build dims (flatten t))
  else Raise ValueError.

(** ** os.path (posixpath) *)

Definition slash : ascii := "/"%char.

Definition is_slash (c : ascii) : bool := bool_decide (c = slash).

Fixpoint drop_while {A : Type} (p : A → bool) (l : list A) : list A :=
  match l with
  | [] => []
  | x :: r => if p x then drop_while p r else l
  end.

(** [os.path.dirname]: everything up to the last slash, with the trailing
    slashes stripped unless the head consists of slashes only. *)
Definition dirname (p : string) : string :=
  let head := drop_while (λ c, negb (is_slash c)) (reverse (String.list_ascii_of_string p)) in
  match drop_while is_slash head with
  | [] => String.string_of_list_ascii (reverse head)
  | stripped => String.string_of_list_ascii (reverse stripped)
  end.

Definition starts_with_slash (s : string) : bool :=
  match s with
  | String c _ => is_slash c
  | EmptyString => false
  end.

Definition ends_with_slash (s : string) : bool :=
  match reverse (String.list_ascii_of_string s) with
  | c :: _ => is_slash c
  | [] => false
  end.

(** [os.path.join(a, b)] on two components. *)
Definition path_join (a b : string) : string :=
  if starts_with_slash b then b
  else if bool_decide (a = "") || ends_with_slash a then a +:+ b
  else a +:+ "/" +:+ b.

(** ** Tub management: keys *)

(** [make_key(sample)] reads the two entries ['tub_path'] and ['index'] of
    its argument; they are passed here as the two arguments.  [str(index)]
    is the decimal rendering of a Python int. *)
Definition make_key (tub_path : string) (index : Z) : string :=
  tub_path +:+ pretty index.

Definition make_next_key (tub_path : string) (index : Z) (index_offset : Z) : string :=
  tub_path +:+ pretty (index + index_offset)%Z.

(** ** JSON values, as [json.load] returns them *)

Inductive jval : Type :=
  | JNull
  | JBool (b : bool)
  | JNum (q : Q)
  | JStr (s : string)
  | JArr (l : list jval)
  | JObj (fields : list (string * jval)).

Fixpoint assoc (k : string) (fields : list (string * jval)) : option jval :=
  match fields with
  | [] => None
  | (k', v) :: rest => if decide (k = k') then Some v else assoc k rest
  end.

(** [json_data[k]] with a string subscript. *)
Definition json_get (j : jval) (k : string) : result jval :=
  match j with
  | JObj fields => match assoc k fields with
                   | Some v => Ok v
                   | None => Raise (KeyError k)
                   end
  | _ => Raise TypeError
  end.

(** ** Configuration and the outside world *)

Record Config : Type := {
  IMAGE_H : nat;
  IMAGE_W : nat;
  IMAGE_DEPTH : nat;
  BATCH_SIZE : nat;
  CACHE_IMAGES : bool;
  SEQUENCE_LENGTH : nat;
  TRAIN_TEST_SPLIT : Q;
  MAX_EPOCHS : nat;
  MODEL_CATEGORICAL_MAX_THROTTLE_RANGE : Q
}.

(** The Keras pilots of donkeycar.parts.keras. *)
Inductive pilot_type : Type :=
  | KerasLinear | KerasIMU | KerasCategorical | KerasBehavioral
  | Keras3D_CNN | KerasRNN_LSTM | KerasLatent.

#[global] Instance pilot_type_eq_dec : EqDecision pilot_type.
Proof. solve_decision. Defined.

(** The pilot: its class, and [kl.model.output]: [None] for a list of
    output tensors, otherwise the shape of the one tensor (an unknown
    dimension is [None]). *)
Record KerasPilot : Type := {
  pilot : pilot_type;
  model_output : option (list (option nat))
}.

(** What the module gets from its imports and from the machine.  The
    functions of donkeycar.utils and donkeycar.parts are not part of this
    file; they are taken as they are found. *)
Record World : Type := {
  (** donkeycar.utils *)
  get_model_by_type : option string → KerasPilot;
  get_record_index : string → result Z;
  get_image_index : string → result Z;
  linear_bin : Q → option nat → option Q → option Q → tensor;
  load_scaled_image_arr : string → option tensor;
  gather_records : list string → list string;
  gather_tubs : list string → list string;
  (** donkeycar.parts.augment, cv2 *)
  augment_image : tensor → tensor;
  resize_gray : tensor → tensor;
  (** the file system: [open] followed by [json.load], [os.path.exists] *)
  load_json : string → result jval;
  path_exists : string → bool;
  (** [float(s)] on a string, [np.array] on a JSON value *)
  float_of_str : string → option Q;
  np_array_json : jval → tensor;
  (** the n-th value [random.uniform(0., 1.0)] returns *)
  uniform : nat → Q;
  (** [glob.glob(os.path.join(tub.path, 'record_*.json'))] *)
  glob_records : string → list string;
  (** [sklearn.utils.shuffle]; [sklearn.model_selection.train_test_split],
      which raises when one of the two parts would be empty *)
  shuffle : ∀ A : Type, list A → list A;
  train_test_split : ∀ A : Type, list A → Q → result (list A * list A)
}.

(** [float(v)] on a JSON value. *)
Definition py_float (w : World) (v : jval) : result Q :=
  match v with
  | JNum q => Ok q
  | JBool b => Ok (if b then 1%Q else 0%Q)
  | JStr s => match float_of_str w s with
              | Some q => Ok q
              | None => Raise ValueError
              end
  | _ => Raise TypeError
  end.

(** [os.path.join(basepath, v)] where [v] comes out of the JSON record. *)
Definition os_path_join (basepath : string) (v : jval) : result string :=
  match v with
  | JStr image_filename => Ok (path_join basepath image_filename)
  | _ => Raise TypeError
  end.

(** [x < y] on floats. *)
Definition Qlt_bool (x y : Q) : bool := negb (Qle_bool y x).

(** ** Samples and the record store *)

Module Sample.
Record t : Type := mk {
  tub_path : string;
  index : Z;
  record_path : string;
  image_path : string;
  json_data : jval;
  angle : tensor;
  throttle : tensor;
  imu_array : option tensor;
  behavior_arr : option tensor;
  img_data : option tensor;
  train : bool
}.

(** [record['img_data'] = img_arr] *)
Definition set_img_data (img_arr : tensor) (s : t) : t :=
  mk (tub_path s) (index s) (record_path s) (image_path s) (json_data s)
     (angle s) (throttle s) (imu_array s) (behavior_arr s) (Some img_arr)
     (train s).
End Sample.
Abbreviation sample := Sample.t.

Record Opts : Type := {
  cfg : Config;
  categorical : bool;
  continuous : bool
}.

(** The dictionary [gen_records] together with the position in the stream
    of random draws. *)
Record Store : Type := {
  gen_records : gmap string sample;
  rng : nat
}.

Definition imu_of_json (w : World) (json_data : jval) : result tensor :=
  accl_x ← json_get json_data "imu/acl_x" ≫= py_float w;
  accl_y ← json_get json_data "imu/acl_y" ≫= py_float w;
  accl_z ← json_get json_data "imu/acl_z" ≫= py_float w;
  gyro_x ← json_get json_data "imu/gyr_x" ≫= py_float w;
  gyro_y ← json_get json_data "imu/gyr_y" ≫= py_float w;
  gyro_z ← json_get json_data "imu/gyr_z" ≫= py_float w;
  mret (np_array (TScalar <$> [accl_x; accl_y; accl_z; gyro_x; gyro_y; gyro_z])).

(** The body of the loop of [collate_records] for one [record_path]. *)
Definition collate_record (w : World) (opts : Opts) (st : Store)
    (record_path : string) : result Store :=
  let basepath := dirname record_path in
  index ← get_record_index w record_path;
  let key := make_key basepath index in
  if decide (is_Some (gen_records st !! key)) then Ok st
  else
    match try_opt (load_json w record_path) with
    | None => Ok st
    | Some json_data =>
        image_filename ← json_get json_data "cam/image_array";
        image_path ← os_path_join basepath image_filename;
        angle ← json_get json_data "user/angle" ≫= py_float w;
        throttle ← json_get json_data "user/throttle" ≫= py_float w;
        let angle' :=
          if categorical opts then linear_bin w angle None None None
          else TScalar angle in
        let throttle' :=
          if categorical opts
          then linear_bin w throttle (Some 20) (Some 0%Q)
                 (Some (MODEL_CATEGORICAL_MAX_THROTTLE_RANGE (cfg opts)))
          else TScalar throttle in
        let imu := try_opt (imu_of_json w json_data) in
        let bvh := try_opt (np_array_json w <$>
                     json_get json_data "behavior/one_hot_state_array") in
        let train := Qlt_bool 0.2%Q (uniform w (rng st)) in
        Ok {| gen_records :=
                <[key := Sample.mk basepath index record_path image_path
                           json_data angle' throttle' imu bvh None train]>
                  (gen_records st);
              rng := S (rng st) |}
    end.

Fixpoint collate_records (w : World) (opts : Opts) (records : list string)
    (st : Store) : result Store :=
  match records with
  | [] => Ok st
  | record_path :: rest =>
      st' ← collate_record w opts st record_path;
      collate_records w opts rest st'
  end.

(** ** MyCPCallback *)

(** A monitored quantity: a float or [np.Inf]. *)
Inductive loss : Type :=
  | Finite (q : Q)
  | Inf.

(** [np.less], the [monitor_op] of [mode='min']. *)
Definition np_less (current best : loss) : bool :=
  match current, best with
  | Finite x, Finite y => Qlt_bool x y
  | Finite _, Inf => true
  | Inf, _ => false
  end.

(** The callback object, with the file at [filepath] next to it: the time
    it was last written and the validation loss of the model it holds.
    [sent] lists the calls of [send_model_cb], oldest first. *)
Record MyCPCallback : Type := mkCP {
  best : loss;
  reset_best_end_of_epoch : bool;
  send_model_cb : bool;
  last_modified_time : option nat;
  model_file : option (nat * loss);
  sent : list loss
}.

(** [MyCPCallback(send_model_cb=on_best_model, ..., monitor='val_loss',
    save_best_only=True, mode='min')] *)
Definition MyCPCallback_init (send : bool) : MyCPCallback :=
  mkCP Inf false send None None [].

Definition reset_best (self : MyCPCallback) : MyCPCallback :=
  mkCP (best self) true (send_model_cb self) (last_modified_time self)
       (model_file self) (sent self).

(** [keras.callbacks.ModelCheckpoint.on_epoch_end] as configured above
    (period 1, best only): the monitored value is read from [logs]; when
    it is less than [best] it becomes the new [best] and the model is
    written to [filepath].  [now] is the clock at that moment. *)
Definition ModelCheckpoint_on_epoch_end (now : nat) (logs : option loss)
    (self : MyCPCallback) : MyCPCallback :=
  match logs with
  | None => self
  | Some current =>
      if np_less current (best self)
      then mkCP current (reset_best_end_of_epoch self) (send_model_cb self)
                (last_modified_time self) (Some (now, current)) (sent self)
      else self
  end.

(** The file check that precedes the call of [send_model_cb]. *)
Definition send_if_changed (self : MyCPCallback) : MyCPCallback :=
  if send_model_cb self then
    match model_file self with
    | Some (mtime, held) =>
        if match last_modified_time self with
           | None => true
           | Some t => (t <? mtime)%nat
           end
        then mkCP (best self) (reset_best_end_of_epoch self) (send_model_cb self)
                  (Some mtime) (model_file self) (sent self ++ [held])
        else self
    | None => self
    end
  else self.

Definition on_epoch_end (now : nat) (logs : option loss)
    (self : MyCPCallback) : MyCPCallback :=
  let self := send_if_changed (ModelCheckpoint_on_epoch_end now logs self) in
  if reset_best_end_of_epoch self
  then mkCP Inf false (send_model_cb self) (last_modified_time self)
            (model_file self) (sent self)
  else self.

(** A run of epochs: each entry says whether [reset_best()] is called
    while that epoch is in progress, and the validation loss it ends with.
    Epoch [n] ends at time [n]. *)
Fixpoint run_epochs (now : nat) (epochs : list (bool * Q))
    (self : MyCPCallback) : MyCPCallback :=
  match epochs with
  | [] => self
  | (reset, val_loss) :: rest =>
      let self := if reset then reset_best self else self in
      run_epochs (S now) rest (on_epoch_end now (Some (Finite val_loss)) self)
  end.

(** ** The batch generator of [train] *)

(** [model_out_shape]: (2, 1) for a list of outputs, else the shape of
    the output.  ([model_in_shape] is computed next to it and never used.) *)
Definition model_out_shape (kl : KerasPilot) : list (option nat) :=
  match model_output kl with
  | None => [Some 2; Some 1]
  | Some dims => dims
  end.

Definition has_imu (kl : KerasPilot) : bool := bool_decide (pilot kl = KerasIMU).
Definition has_bvh (kl : KerasPilot) : bool := bool_decide (pilot kl = KerasBehavioral).
Definition img_out (kl : KerasPilot) : bool := bool_decide (pilot kl = KerasLatent).

(** The lists filled while a batch is materialised. *)
Record Lists : Type := mkLists {
  inputs_img : list tensor;
  inputs_imu : list tensor;
  inputs_bvh : list tensor;
  angles : list tensor;
  throttles : list tensor;
  out_img : list tensor
}.

Definition no_lists : Lists := mkLists [] [] [] [] [] [].

(** [record[k]] for an entry that only some records carry. *)
Definition field (k : string) (v : option tensor) : result tensor :=
  match v with
  | Some t => Ok t
  | None => Raise (KeyError k)
  end.

(** One turn of [for record in batch_data], after [img_arr] is known. *)
Definition add_record (w : World) (kl : KerasPilot) (record : sample)
    (img_arr : tensor) (l : Lists) : result Lists :=
  let out_img' := if img_out kl then out_img l ++ [resize_gray w img_arr]
                  else out_img l in
  inputs_imu' ← (if has_imu kl
                 then v ← field "imu_array" (Sample.imu_array record);
                      mret (inputs_imu l ++ [v])
                 else mret (inputs_imu l));
  inputs_bvh' ← (if has_bvh kl
                 then v ← field "behavior_arr" (Sample.behavior_arr record);
                      mret (inputs_bvh l ++ [v])
                 else mret (inputs_bvh l));
  mret (mkLists (inputs_img l ++ [img_arr]) inputs_imu' inputs_bvh'
          (angles l ++ [Sample.angle record])
          (throttles l ++ [Sample.throttle record]) out_img').

(** [for record in batch_data].  The records are objects shared with the
    store: [batch_data] pairs each with the key it is stored under, and
    the write to ['img_data'] goes to the store.  The second component is
    [None] when the loop was left with [img_arr is None]. *)
Fixpoint fill_lists (w : World) (c : Config) (kl : KerasPilot) (aug : bool)
    (batch_data : list (string * sample)) (data : gmap string sample)
    (l : Lists) : result (gmap string sample * option Lists) :=
  match batch_data with
  | [] => Ok (data, Some l)
  | (key, record) :: rest =>
      match Sample.img_data record with
      | None =>
          match load_scaled_image_arr w (Sample.image_path record) with
          | None => Ok (data, None)
          | Some img_arr =>
              let img_arr := if aug then augment_image w img_arr else img_arr in
              let data := if CACHE_IMAGES c
                          then alter (Sample.set_img_data img_arr) key data
                          else data in
              l' ← add_record w kl record img_arr l;
              fill_lists w c kl aug rest data l'
          end
      | Some img_arr =>
          l' ← add_record w kl record img_arr l;
          fill_lists w c kl aug rest data l'
      end
  end.

(** [model_out_shape[1] == 2] *)
Definition paired_output (kl : KerasPilot) : result bool :=
  match model_out_shape kl !! 1%nat with
  | Some d => Ok (bool_decide (d = Some 2))
  | None => Raise IndexError
  end.

(** The target [y] of a batch.  A Python list of arrays is a [TArr]. *)
Definition targets (kl : KerasPilot) (l : Lists) : result (list tensor) :=
  if img_out kl
  then Ok [TArr (out_img l); np_array (angles l); np_array (throttles l)]
  else
    paired ← paired_output kl;
    if paired : bool
    then Ok [np_array [TArr (angles l); TArr (throttles l)]]
    else Ok [np_array (angles l); np_array (throttles l)].

Definition inputs (kl : KerasPilot) (img_arr : tensor) (l : Lists) : list tensor :=
  if has_imu kl then [img_arr; np_array (inputs_imu l)]
  else if has_bvh kl then [img_arr; np_array (inputs_bvh l)]
  else [img_arr].

Record Batch : Type := { X : list tensor; y : list tensor }.

(** The block under [if len(batch_data) == batch_size]: [None] stands for
    the [continue] taken when an image failed to load. *)
Definition materialize (w : World) (c : Config) (kl : KerasPilot) (aug : bool)
    (batch_size : nat) (batch_data : list (string * sample))
    (data : gmap string sample) : result (gmap string sample * option Batch) :=
  '(data, filled) ← fill_lists w c kl aug batch_data data no_lists;
  match filled with
  | None => Ok (data, None)
  | Some l =>
      img_arr ← reshape (np_array (inputs_img l))
                  [batch_size; IMAGE_H c; IMAGE_W c; IMAGE_DEPTH c];
      y ← targets kl l;
      Ok (data, Some {| X := inputs kl img_arr l; y := y |})
  end.

(** [for key in keys]: the store, the batch under construction and the
    batches yielded so far are threaded through. *)
Fixpoint walk (w : World) (opts : Opts) (kl : KerasPilot) (aug : bool)
    (isTrainSet : bool) (batch_size : nat) (keys : list string)
    (data : gmap string sample) (batch_data : list (string * sample))
    (yielded : list Batch) : result (gmap string sample * list Batch) :=
  match keys with
  | [] => Ok (data, yielded)
  | key :: rest =>
      match data !! key with
      | None => walk w opts kl aug isTrainSet batch_size rest data batch_data yielded
      | Some _record =>
          if negb (Bool.eqb (Sample.train _record) isTrainSet)
          then walk w opts kl aug isTrainSet batch_size rest data batch_data yielded
          else if continuous opts && negb (path_exists w (Sample.image_path _record))
          then walk w opts kl aug isTrainSet batch_size rest (delete key data)
                 batch_data yielded
          else
            let batch_data := batch_data ++ [(key, _record)] in
            if decide (length batch_data = batch_size)
            then
              '(data, made) ← materialize w (cfg opts) kl aug batch_size batch_data data;
              match made with
              | None => walk w opts kl aug isTrainSet batch_size rest data
                          batch_data yielded
              | Some b => walk w opts kl aug isTrainSet batch_size rest data
                            [] (yielded ++ [b])
              end
            else walk w opts kl aug isTrainSet batch_size rest data batch_data yielded
      end
  end.

(** What a generator object holds between two turns of [while True]: the
    store and the callback it shares with the rest of [train], and its own
    [num_records]. *)
Record Gen : Type := {
  store : Store;
  num_records : nat;
  save_best : MyCPCallback
}.

(** The state on entry: [num_records = len(data)]. *)
Definition generator_start (st : Store) (cp : MyCPCallback) : Gen :=
  {| store := st; num_records := size (gen_records st); save_best := cp |}.

(** The look for new records that opens a turn of the training generator
    in continuous mode. *)
Definition pick_up_records (w : World) (opts : Opts) (tub_names : list string)
    (g : Gen) : result Gen :=
  let records := gather_records w tub_names in
  if (num_records g <? length records)%nat
  then
    st ← collate_records w opts records (store g);
    let new_num_rec := size (gen_records st) in
    if (num_records g <? new_num_rec)%nat
    then Ok {| store := st; num_records := new_num_rec;
               save_best := reset_best (save_best g) |}
    else Ok {| store := st; num_records := num_records g;
               save_best := save_best g |}
  else Ok g.

Definition shuffled_walk (w : World) (opts : Opts) (kl : KerasPilot) (aug : bool)
    (isTrainSet : bool) (batch_size : nat) (g : Gen) : result (Gen * list Batch) :=
  let data := gen_records (store g) in
  let keys := shuffle w string (fst <$> map_to_list data) in
  '(data, yielded) ← walk w opts kl aug isTrainSet batch_size keys data [] [];
  Ok ({| store := {| gen_records := data; rng := rng (store g) |};
         num_records := num_records g; save_best := save_best g |}, yielded).

(** One turn of [while True] in [generator]: the state it leaves and the
    batches it yields, in order. *)
Definition generator_turn (w : World) (opts : Opts) (kl : KerasPilot)
    (tub_names : list string) (aug : bool)
    (isTrainSet : bool) (batch_size : nat) (min_records_to_train : nat)
    (g : Gen) : result (Gen * list Batch) :=
  if isTrainSet && continuous opts
  then
    g ← pick_up_records w opts tub_names g;
    if (num_records g <? min_records_to_train)%nat
    then Ok (g, [])
    else shuffled_walk w opts kl aug isTrainSet batch_size g
  else shuffled_walk w opts kl aug isTrainSet batch_size g.

(** ** [sequence_train]: records, windows and their generator *)

Module SeqSample.
Record t : Type := mk {
  record_path : string;
  image_path : string;
  json_data : jval;
  tub_path : string;
  index : Z;
  target_output : tensor;
  angle : Q;
  throttle : Q;
  img_data : option tensor
}.

Definition set_img_data (img_arr : tensor) (s : t) : t :=
  mk (record_path s) (image_path s) (json_data s) (tub_path s) (index s)
     (target_output s) (angle s) (throttle s) (Some img_arr).
End SeqSample.
Abbreviation seq_sample := SeqSample.t.

(** [get_image_index(image_filename)] *)
Definition image_index (w : World) (image_filename : jval) : result Z :=
  match image_filename with
  | JStr s => get_image_index w s
  | _ => Raise TypeError
  end.

(** The body of [for record_path in records] in [sequence_train]; nothing
    is caught here, and an existing key is overwritten. *)
Definition seq_collate_record (w : World) (data : gmap string seq_sample)
    (record_path : string) : result (gmap string seq_sample) :=
  json_data ← load_json w record_path;
  let basepath := dirname record_path in
  image_filename ← json_get json_data "cam/image_array";
  image_path ← os_path_join basepath image_filename;
  index ← image_index w image_filename;
  angle ← json_get json_data "user/angle" ≫= py_float w;
  throttle ← json_get json_data "user/throttle" ≫= py_float w;
  let key := make_key basepath index in
  Ok (<[key := SeqSample.mk record_path image_path json_data basepath index
                 (np_array [TScalar angle; TScalar throttle]) angle throttle None]>
        data).

Fixpoint seq_collate_records (w : World) (records : list string)
    (data : gmap string seq_sample) : result (gmap string seq_sample) :=
  match records with
  | [] => Ok data
  | record_path :: rest =>
      data' ← seq_collate_record w data record_path;
      seq_collate_records w rest data'
  end.

(** A window: records of the store, each with the key it is stored under. *)
Abbreviation window := (list (string * seq_sample)).

(** The inner loop over [range(target_len)]: the records found under the
    keys that follow [sample], missing ones skipped. *)
Definition window_from (data : gmap string seq_sample) (target_len : nat)
    (sample : seq_sample) : window :=
  omap (λ i : nat,
          let key := make_next_key (SeqSample.tub_path sample)
                       (SeqSample.index sample) (Z.of_nat i) in
          (λ r, (key, r)) <$> data !! key)
       (seq 0 target_len).

(** [for k, sample in gen_records.items()]: only the windows of full
    length are kept.  The order of the items does not matter to what
    follows, the list is shuffled before use. *)
Definition collate_sequences (data : gmap string seq_sample) (target_len : nat)
    : list window :=
  filter (λ s : window, length s = target_len)
         (window_from data target_len <$> (map_to_list data).*2).

Definition target_len (c : Config) (model_type : option string) : nat :=
  if decide (model_type = Some "look_ahead")
  then SEQUENCE_LENGTH c * 2
  else SEQUENCE_LENGTH c.

Definition is_look_ahead (model_type : option string) : bool :=
  bool_decide (model_type = Some "look_ahead").

(** An entry of a window refers to a record of the store.  The entries a
    record is created with are never written again and are read from the
    entry; ['img_data'] is written by the generator and is read from the
    record as the store holds it now. *)
Definition current (data : gmap string seq_sample) (e : string * seq_sample)
    : seq_sample :=
  default e.2 (data !! e.1).

Record SeqLists : Type := mkSeqLists {
  seq_inputs_img : list tensor;
  vec_in : list Q;
  vec_out : list Q
}.

(** The second half of a turn of [for iRec, record in enumerate(seq)]. *)
Definition add_controls (iTargetOutput : Z) (iRec : nat) (record : seq_sample)
    (l : SeqLists) : SeqLists :=
  if decide (iTargetOutput ≤ Z.of_nat iRec)%Z
  then mkSeqLists (seq_inputs_img l) (vec_in l)
         (vec_out l ++ [SeqSample.angle record; SeqSample.throttle record])
  else mkSeqLists (seq_inputs_img l) (vec_in l ++ [0%Q; 0%Q]) (vec_out l).

Definition add_image (img_arr : tensor) (l : SeqLists) : SeqLists :=
  mkSeqLists (seq_inputs_img l ++ [img_arr]) (vec_in l) (vec_out l).

(** [for iRec, record in enumerate(seq)]; the loop ends early at the first
    image that does not load. *)
Fixpoint seq_records (w : World) (c : Config) (aug : bool)
    (num_images_target : nat) (iTargetOutput : Z) (iRec : nat) (seq : window)
    (data : gmap string seq_sample) (l : SeqLists)
    : gmap string seq_sample * SeqLists :=
  match seq with
  | [] => (data, l)
  | e :: rest =>
      let record := e.2 in
      if decide (length (seq_inputs_img l) < num_images_target)
      then
        match SeqSample.img_data (current data e) with
        | None =>
            match load_scaled_image_arr w (SeqSample.image_path record) with
            | None => (data, l)
            | Some img_arr =>
                let img_arr := if aug then augment_image w img_arr else img_arr in
                let data := if CACHE_IMAGES c
                            then alter (SeqSample.set_img_data img_arr) e.1 data
                            else data in
                seq_records w c aug num_images_target iTargetOutput (S iRec) rest
                  data (add_controls iTargetOutput iRec record (add_image img_arr l))
            end
        | Some img_arr =>
            seq_records w c aug num_images_target iTargetOutput (S iRec) rest
              data (add_controls iTargetOutput iRec record (add_image img_arr l))
        end
      else
        seq_records w c aug num_images_target iTargetOutput (S iRec) rest
          data (add_controls iTargetOutput iRec record l)
  end.

(** [seq[i]] with Python's negative subscripts. *)
Definition py_index {A : Type} (l : list A) (i : Z) : result A :=
  let j := if decide (i < 0)%Z then (Z.of_nat (length l) + i)%Z else i in
  if decide (j < 0)%Z then Raise IndexError
  else match l !! Z.to_nat j with
       | Some x => Ok x
       | None => Raise IndexError
       end.

(** What one window contributes to a batch. *)
Record Example : Type := {
  ex_inputs_img : list tensor;
  ex_vec_in : list Q;
  ex_labels : list tensor
}.

(** The body of [for seq in batch_data]. *)
Definition seq_example (w : World) (c : Config) (aug look_ahead : bool)
    (seq : window) (data : gmap string seq_sample)
    : result (gmap string seq_sample * Example) :=
  let num_images_target := if look_ahead then SEQUENCE_LENGTH c else length seq in
  let iTargetOutput := if look_ahead then (Z.of_nat (SEQUENCE_LENGTH c) - 1)%Z
                       else (-1)%Z in
  let '(data, l) := seq_records w c aug num_images_target iTargetOutput 0 seq
                      data (mkSeqLists [] [] []) in
  target ← py_index seq iTargetOutput;
  let label_vec := if look_ahead then np_array (TScalar <$> vec_out l)
                   else SeqSample.target_output target.2 in
  Ok (data, {| ex_inputs_img := seq_inputs_img l; ex_vec_in := vec_in l;
               ex_labels := [label_vec] |}).

Fixpoint seq_examples (w : World) (c : Config) (aug look_ahead : bool)
    (batch_data : list window) (data : gmap string seq_sample)
    : result (gmap string seq_sample * list Example) :=
  match batch_data with
  | [] => Ok (data, [])
  | seq :: rest =>
      '(data, ex) ← seq_example w c aug look_ahead seq data;
      '(data, exs) ← seq_examples w c aug look_ahead rest data;
      Ok (data, ex :: exs)
  end.

(** The tensors built from the lists of a batch. *)
Definition seq_batch (c : Config) (look_ahead : bool) (batch_size : nat)
    (exs : list Example) : result Batch :=
  let b_inputs_img := np_array ((λ ex, TArr (ex_inputs_img ex)) <$> exs) in
  let b_vec_in := np_array ((λ ex, TArr (TScalar <$> ex_vec_in ex)) <$> exs) in
  let b_labels := np_array ((λ ex, TArr (ex_labels ex)) <$> exs) in
  if look_ahead
  then
    x ← reshape b_inputs_img [batch_size; IMAGE_H c; IMAGE_W c; SEQUENCE_LENGTH c];
    y ← reshape b_labels [batch_size; (SEQUENCE_LENGTH c + 1) * 2];
    Ok {| X := [x; b_vec_in]; y := [y] |}
  else
    x ← reshape b_inputs_img
          [batch_size; SEQUENCE_LENGTH c; IMAGE_H c; IMAGE_W c; IMAGE_DEPTH c];
    y ← reshape b_labels [batch_size; 2];
    Ok {| X := [x]; y := [y] |}.

(** [for offset in range(0, num_records, batch_size)] over the offsets
    still to come. *)
Fixpoint seq_offsets (w : World) (c : Config) (aug look_ahead : bool)
    (batch_size : nat) (offsets : list nat) (windows : list window)
    (data : gmap string seq_sample) (yielded : list Batch)
    : result (gmap string seq_sample * list Batch) :=
  match offsets with
  | [] => Ok (data, yielded)
  | offset :: rest =>
      let batch_data := take batch_size (drop offset windows) in
      if decide (length batch_data = batch_size)
      then
        '(data, exs) ← seq_examples w c aug look_ahead batch_data data;
        b ← seq_batch c look_ahead batch_size exs;
        seq_offsets w c aug look_ahead batch_size rest windows data (yielded ++ [b])
      else Ok (data, yielded)
  end.

(** [range(0, num_records, batch_size)] *)
Definition py_range_step (stop step : nat) : result (list nat) :=
  if decide (step = 0) then Raise ValueError
  else Ok ((λ i, i * step) <$> seq 0 ((stop + step - 1) / step)).

(** One turn of [while True] in the generator of [sequence_train]: the
    windows as shuffled, the store, and the batches yielded. *)
Definition seq_generator_turn (w : World) (c : Config) (aug look_ahead : bool)
    (batch_size num_records : nat) (windows : list window)
    (data : gmap string seq_sample)
    : result (list window * gmap string seq_sample * list Batch) :=
  let windows := shuffle w window windows in
  offsets ← py_range_step num_records batch_size;
  '(data, yielded) ← seq_offsets w c aug look_ahead batch_size offsets windows data [];
  Ok (windows, data, yielded).

(** ** The training runs *)

(** What a run does to the outside, in order. *)
Inductive event : Type :=
  | Printed (msg : string)
  | GetModel (model_type : option string)
  | TransferLoaded (transfer_model : string)
  | Compile
  | PicklesExtracted
  | Glob (tub_path : string)
  | ReadRecords (records : list string)
  | Fit (steps_per_epoch : nat) (epochs : N) (val_steps : nat).

(** A run: the events it caused and how it ended. *)
Record Run (A : Type) : Type := mkRun {
  effects : list event;
  outcome : result A
}.
Arguments mkRun {A} effects outcome.
Arguments effects {A} r.
Arguments outcome {A} r.

#[global] Instance run_ret : MRet Run := λ A a, mkRun [] (Ok a).
#[global] Instance run_bind : MBind Run := λ A B k r,
  match outcome r with
  | Ok a => mkRun (effects r ++ effects (k a)) (outcome (k a))
  | Raise e => mkRun (effects r) (Raise e)
  end.

(** An event, and a computation without events. *)
Definition tell (e : event) : Run unit := mkRun [e] (Ok ()).
Definition lift {A : Type} (r : result A) : Run A := mkRun [] r.

(** [assert(b)] *)
Definition py_assert (b : bool) : Run unit :=
  if b then mret () else lift (Raise AssertionError).

(** [a // b] on non-negative ints *)
Definition floor_div (a b : nat) : result nat :=
  if decide (b = 0) then Raise ZeroDivisionError else Ok (a / b).

(** The first part of [go_train]: from its entry to its first call of
    [fit_generator], which is Keras's and is the last event here.  A run
    that ends with [Ok] in this model is one that has made this call;
    what the source does once the call returns (the least validation
    loss, the plot, and under [PRUNE_CNN] the loop of [prune] and further
    fits) is not part of this definition.  The loop is [prune_loop]
    below. *)
Definition go_train (c : Config) (steps_per_epoch val_steps : nat)
    (continuous : bool) : Run unit :=
  if decide (steps_per_epoch < 2)
  then lift (Raise (Exception "Too little data to train. Please record more records."))
  else
    let epochs := if continuous then 100000%N else N.of_nat (MAX_EPOCHS c) in
    tell (Fit steps_per_epoch epochs val_steps).

(** [num_train] and [num_val]: the records of each partition. *)
Definition count_train (b : bool) (data : gmap string sample) : nat :=
  length (filter (λ kv : string * sample, Sample.train kv.2 = b) (map_to_list data)).

(** [train]: the calls on the Keras model are kept as events; the two
    generators it hands to [go_train] are [generator_turn] above. *)
Definition train (w : World) (c : Config) (tub_names : list string)
    (model_name : string) (transfer_model : option string)
    (model_type : option string) (continuous aug : bool) : Run unit :=
  (if continuous then tell (Printed "continuous training") else mret ());;
  tell (GetModel model_type);;
  let kl := get_model_by_type w model_type in
  let opts := {| cfg := c;
                 categorical := bool_decide (pilot kl = KerasCategorical
                                             ∨ pilot kl = KerasBehavioral);
                 continuous := continuous |} in
  tell (Printed "training with model type");;
  (match transfer_model with
   | Some m => tell (TransferLoaded m)
   | None => mret ()
   end);;
  tell Compile;;
  tell PicklesExtracted;;
  let records := gather_records w tub_names in
  tell (Printed "collating records ...");;
  tell (ReadRecords records);;
  st ← lift (collate_records w opts records {| gen_records := ∅; rng := 0 |});
  let num_train := count_train true (gen_records st) in
  let num_val := count_train false (gen_records st) in
  steps_per_epoch ← lift (if continuous then Ok 100
                          else floor_div num_train (BATCH_SIZE c));
  val_steps ← lift (floor_div num_val (BATCH_SIZE c));
  go_train c steps_per_epoch val_steps continuous.

(** The order of two record paths paired with their indices. *)
Definition by_index (a b : Z * string) : Prop := (a.1 ≤ b.1)%Z.

#[global] Instance by_index_dec : RelDecision by_index.
Proof. intros a b. unfold by_index. apply _. Defined.

(** [list.sort] is stable: entries of equal key keep the order they had.
    An entry is put in front of the sorted entries that came after it in
    the list, before the first one whose key is not smaller. *)
Fixpoint insert_by_index (x : Z * string) (sorted : list (Z * string))
    : list (Z * string) :=
  match sorted with
  | [] => [x]
  | y :: rest =>
      if decide (by_index x y) then x :: sorted else y :: insert_by_index x rest
  end.

Definition sort_by_index (l : list (Z * string)) : list (Z * string) :=
  foldr insert_by_index [] l.

(** [record_paths.sort(key=get_record_index)]: the keys are computed
    first, one for each path. *)
Definition sort_records (w : World) (record_paths : list string)
    : result (list string) :=
  keys ← mapM (get_record_index w) record_paths;
  Ok ((sort_by_index (zip keys record_paths)).*2).

(** [for tub in tubs]: the sorted record paths of every tub, in turn. *)
Fixpoint tub_records (w : World) (tubs : list string) : Run (list string) :=
  match tubs with
  | [] => mret []
  | tub :: rest =>
      tell (Glob tub);;
      record_paths ← lift (sort_records w (glob_records w tub));
      more ← tub_records w rest;
      mret (record_paths ++ more)
  end.

(** [sequence_train] up to the call of [go_train]; its two generators are
    [seq_generator_turn] above. *)
Definition sequence_train (w : World) (c : Config) (tub_names : list string)
    (model_name : string) (transfer_model : option string)
    (model_type : option string) (continuous aug : bool) : Run unit :=
  py_assert (negb continuous);;
  tell (Printed "sequence of images training");;
  tell (GetModel model_type);;
  records ← tub_records w (gather_tubs w tub_names);
  tell (Printed "collating records");;
  tell (ReadRecords records);;
  gen_records ← lift (seq_collate_records w records ∅);
  tell (Printed "collating sequences");;
  let sequences := collate_sequences gen_records (target_len c model_type) in
  '(train_data, val_data) ←
    lift (train_test_split w window sequences (1 - TRAIN_TEST_SPLIT c)%Q);
  steps_per_epoch ← lift (floor_div (length train_data) (BATCH_SIZE c));
  val_steps ← lift (floor_div (length val_data) (BATCH_SIZE c));
  (if decide (steps_per_epoch < 2)
   then lift (Raise (Exception "Too little data to train. Please record more records."))
   else mret ());;
  go_train c steps_per_epoch val_steps continuous.

(** The model types trained on sequences of images. *)
Definition sequence_types : list (option string) :=
  [Some "rnn"; Some "3d"; Some "look_ahead"].

(** [multi_train]: choose the right regime for the given model type. *)
Definition multi_train (w : World) (c : Config) (tub : list string)
    (model : string) (transfer : option string) (model_type : option string)
    (continuous aug : bool) : Run unit :=
  let train_fn := if decide (model_type ∈ sequence_types)
                  then sequence_train else train in
  train_fn w c tub model transfer model_type continuous aug.

(** ** Concrete tubs, used by the examples below *)

Fixpoint table_get {A : Type} (k : string) (tbl : list (string * A)) : option A :=
  match tbl with
  | [] => None
  | (k', v) :: rest => if decide (k = k') then Some v else table_get k rest
  end.

Definition or_raise {A : Type} (e : exn) (o : option A) : result A :=
  match o with
  | Some a => Ok a
  | None => Raise e
  end.

Definition pilot_of (model_type : option string) : KerasPilot :=
  if decide (model_type = Some "imu")
  then {| pilot := KerasIMU; model_output := None |}
  else if decide (model_type = Some "latent")
  then {| pilot := KerasLatent; model_output := None |}
  else if decide (model_type = Some "categorical")
  then {| pilot := KerasCategorical; model_output := None |}
  else {| pilot := KerasLinear; model_output := None |}.

(** A world given by tables: the index of each record file, the index of
    each image name, the JSON held by each record file, the array each
    image file decodes to, and the random draws (0.5 once they run out).
    Nothing is augmented or shuffled; the split keeps every entry for
    training and, as sklearn does, refuses an empty list. *)
Definition table_world (record_index image_index : list (string * Z))
    (files : list (string * jval)) (images : list (string * tensor))
    (draws : list Q) : World :=
  {| get_model_by_type := pilot_of;
     get_record_index := λ p, or_raise ValueError (table_get p record_index);
     get_image_index := λ p, or_raise ValueError (table_get p image_index);
     linear_bin := λ _ _ _ _, TArr [TScalar 0; TScalar 1; TScalar 0];
     load_scaled_image_arr := λ p, table_get p images;
     gather_records := λ _, files.*1;
     gather_tubs := λ tub_names, tub_names;
     augment_image := λ img, img;
     resize_gray := λ img, img;
     load_json := λ p, or_raise IOError (table_get p files);
     path_exists := λ p, bool_decide (is_Some (table_get p images));
     float_of_str := λ _, None;
     np_array_json := λ _, TArr [];
     uniform := λ n, nth n draws 0.5%Q;
     glob_records := λ tub, filter (λ p, dirname p = tub) files.*1;
     shuffle := λ _ l, l;
     train_test_split := λ _ l _, match l with
                                  | [] => Raise ValueError
                                  | _ => Ok (l, [])
                                  end |}.

(** The JSON of one frame. *)
Definition frame_json (image_filename : string) (angle throttle : Q) : jval :=
  JObj [("cam/image_array", JStr image_filename);
        ("user/angle", JNum angle); ("user/throttle", JNum throttle)].

(** A one-pixel image. *)
Definition pixel (q : Q) : tensor := TArr [TArr [TArr [TScalar q]]].

Definition small_cfg (batch_size sequence_length : nat) : Config :=
  {| IMAGE_H := 1; IMAGE_W := 1; IMAGE_DEPTH := 1; BATCH_SIZE := batch_size;
     CACHE_IMAGES := true; SEQUENCE_LENGTH := sequence_length;
     TRAIN_TEST_SPLIT := 0.8%Q; MAX_EPOCHS := 100;
     MODEL_CATEGORICAL_MAX_THROTTLE_RANGE := 0.5%Q |}.

Definition linear_opts (c : Config) : Opts :=
  {| cfg := c; categorical := false; continuous := false |}.

(** [gen_records = {}], no random number drawn yet. *)
Definition empty_store : Store := {| gen_records := ∅; rng := 0 |}.

(** A frame of the tub [tub] whose image is in memory already. *)
Definition cached_frame (index : Z) (angle throttle : tensor) (train : bool)
    : string * sample :=
  (make_key "tub" index,
   Sample.mk "tub" index ("tub/record_" +:+ pretty index +:+ ".json")
     ("tub/" +:+ pretty index +:+ "_cam-image_array_.jpg") JNull
     angle throttle None None (Some (pixel 0)) train).

Definition three_frames : list (string * sample) :=
  [cached_frame 1 (TScalar 0.1) (TScalar 0.5) true;
   cached_frame 2 (TScalar 0.2) (TScalar 0.6) true;
   cached_frame 3 (TScalar 0.3) (TScalar 0.7) true].



(** The tub [tub] with the frames of the given indices: frame [i] has
    the record [tub/record_i.json], the image [tub/i_cam-image_array_.jpg],
    the angle [i/10] and the throttle [i/20]. *)
Definition record_name (i : Z) : string := "tub/record_" +:+ pretty i +:+ ".json".
Definition image_name (i : Z) : string := pretty i +:+ "_cam-image_array_.jpg".

Definition frames_world (indices : list Z) : World :=
  table_world
    ((λ i, (record_name i, i)) <$> indices)
    ((λ i, (image_name i, i)) <$> indices)
    ((λ i, (record_name i, frame_json (image_name i) (i # 10) (i # 20))) <$> indices)
    ((λ i, ("tub/" +:+ image_name i, pixel (i # 1))) <$> indices)
    [].

(** The store [sequence_train] builds from a tub. *)
Definition frames_store (indices : list Z) : gmap string seq_sample :=
  match seq_collate_records (frames_world indices) (record_name <$> indices) ∅ with
  | Ok data => data
  | Raise _ => ∅
  end.

(** The one window of length 4 over the frames 0, 1, 2, 3. *)
Definition four_frames : window :=
  Eval vm_compute in
    default [] (head (collate_sequences (frames_store [0; 1; 2; 3]%Z) 4)).

(** Two tubs, [data/tub_1] and [data/tub_11], with one record each. *)
Definition two_tubs : World :=
  table_world
    [("data/tub_1/record_12.json", 12%Z); ("data/tub_11/record_2.json", 2%Z)]
    []
    [("data/tub_1/record_12.json", frame_json "12_cam-image_array_.jpg" 0.1 0.3);
     ("data/tub_11/record_2.json", frame_json "2_cam-image_array_.jpg" (-0.4) 0.2)]
    [("data/tub_1/12_cam-image_array_.jpg", pixel 1);
     ("data/tub_11/2_cam-image_array_.jpg", pixel 2)]
    [].

(** A tub whose only record names an image that is not there. *)
Definition missing_image : World :=
  table_world
    [("tub/record_1.json", 1%Z)] []
    [("tub/record_1.json", frame_json "1_cam-image_array_.jpg" 0.1 0.3)]
    [] [].

(** ** Predicates and examples used in the statements *)

(** Losses 0.5, 0.3, 0.4, 0.2 with [reset_best()] called before the third
    epoch starts, that is while the second one is in progress. *)
Definition four_epochs : list (bool * Q) :=
  [(false, 0.5%Q); (true, 0.3%Q); (false, 0.4%Q); (false, 0.2%Q)].

(** The same losses with the call made once the third epoch is in
    progress. *)
Definition four_epochs_late : list (bool * Q) :=
  [(false, 0.5%Q); (false, 0.3%Q); (true, 0.4%Q); (false, 0.2%Q)].

(** What a turn of the loop of [collate_records] can do: nothing, or
    insert one new sample under a key that was free. *)
Inductive collated (w : World) (st : Store) (record_path : string)
    : Store → Prop :=
  | collated_skip : collated w st record_path st
  | collated_insert (index : Z) (image_filename : string) (s : sample) :
      get_record_index w record_path = Ok index →
      gen_records st !! make_key (dirname record_path) index = None →
      load_json w record_path = Ok (Sample.json_data s) →
      json_get (Sample.json_data s) "cam/image_array" = Ok (JStr image_filename) →
      Sample.record_path s = record_path →
      Sample.tub_path s = dirname record_path →
      Sample.index s = index →
      Sample.image_path s = path_join (dirname record_path) image_filename →
      Sample.img_data s = None →
      Sample.train s = Qlt_bool 0.2%Q (uniform w (rng st)) →
      collated w st record_path
        {| gen_records := <[make_key (dirname record_path) index := s]> (gen_records st);
           rng := S (rng st) |}.

(** The sample ingestion makes of frame 12 of [data/tub_1]. *)
Definition tub_1_frame_12 : sample :=
  Sample.mk "data/tub_1" 12 "data/tub_1/record_12.json"
    "data/tub_1/12_cam-image_array_.jpg"
    (frame_json "12_cam-image_array_.jpg" 0.1 0.3)
    (TScalar 0.1) (TScalar 0.3) None None None true.

(** Every sample of [d'] is a sample of [d], with the same partition. *)
Definition same_partition (d d' : gmap string sample) : Prop :=
  ∀ k s', d' !! k = Some s' →
    ∃ s, d !! k = Some s ∧ Sample.train s' = Sample.train s.

(** What happens to the store after the first ingestion: further runs of
    [collate_records], and turns of a generator (of either partition, in
    either mode, with whatever it held in [num_records] and whatever the
    callback was). *)
Inductive op : Type :=
  | Ingest (w : World) (opts : Opts) (records : list string)
  | Traverse (w : World) (opts : Opts) (kl : KerasPilot)
      (tub_names : list string) (aug isTrainSet : bool)
      (batch_size min_records_to_train num_records : nat) (cp : MyCPCallback).

(** The store an operation leaves. *)
Definition apply_op (o : op) (st : Store) : result Store :=
  match o with
  | Ingest w opts records => collate_records w opts records st
  | Traverse w opts kl tub_names aug isTrainSet batch_size min_records n cp =>
      (λ r : Gen * list Batch, store r.1)
        <$> generator_turn w opts kl tub_names aug isTrainSet batch_size min_records
              {| store := st; num_records := n; save_best := cp |}
  end.

(** The stores a sequence of operations goes through. *)
Fixpoint run_ops (ops : list op) (st : Store) : result (list Store) :=
  match ops with
  | [] => Ok []
  | o :: rest =>
      st1 ← apply_op o st;
      sts ← run_ops rest st1;
      Ok (st1 :: sts)
  end.

(** The store after that frame was ingested. *)
Definition stored_frame_12 : Store :=
  {| gen_records := {["data/tub_112" := tub_1_frame_12]}; rng := 1 |}.

(** The options of a continuous run. *)
Definition continuous_opts (c : Config) : Opts :=
  {| cfg := c; categorical := false; continuous := true |}.

(** A second ingestion, a turn of the training generator in continuous
    mode and a turn of the validation generator. *)
Definition demo_ops : list op :=
  [Ingest two_tubs (linear_opts (small_cfg 1 2))
     ["data/tub_1/record_12.json"; "data/tub_11/record_2.json"];
   Traverse two_tubs (continuous_opts (small_cfg 1 2)) (pilot_of None) [] false
     true 1 1 1 (MyCPCallback_init true);
   Traverse two_tubs (continuous_opts (small_cfg 1 2)) (pilot_of None) [] false
     false 1 1 1 (MyCPCallback_init true)].

(** The stores these three operations go through. *)
Definition demo_stores : list Store :=
  Eval vm_compute in
    match run_ops demo_ops stored_frame_12 with
    | Ok sts => sts
    | Raise _ => []
    end.

(** A control kept as a float, not as a bin vector. *)
Definition is_scalar (t : tensor) : Prop :=
  match t with
  | TScalar _ => True
  | TArr _ => False
  end.


(** The image the generator takes for an entry of a window when the store
    is [data]: the one the record holds in memory, or else the one read
    from its file, augmented if asked for. *)
Definition image_taken (w : World) (aug : bool) (data : gmap string seq_sample)
    (e : string * seq_sample) : option tensor :=
  match SeqSample.img_data (current data e) with
  | Some img_arr => Some img_arr
  | None => (λ img_arr, if aug then augment_image w img_arr else img_arr)
              <$> load_scaled_image_arr w (SeqSample.image_path e.2)
  end.

(** The control pairs of the records of a window, laid end to end. *)
Definition controls (seq : window) : list Q :=
  concat ((λ e, [SeqSample.angle e.2; SeqSample.throttle e.2]) <$> seq).

(** The store of [sequence_train] files every record under the key made
    from its own directory and index. *)
Definition well_keyed (data : gmap string seq_sample) : Prop :=
  map_Forall (λ k s, k = make_key (SeqSample.tub_path s) (SeqSample.index s)) data.

(** All records come from the directory [tub_path]. *)
Definition one_tub (tub_path : string) (data : gmap string seq_sample) : Prop :=
  map_Forall (λ _ s, SeqSample.tub_path s = tub_path) data.

(** The frame indices present in the store. *)
Definition indices (data : gmap string seq_sample) : list Z :=
  SeqSample.index <$> (map_to_list data).*2.

(** [i0] is a valid start: the [L] indices from [i0] on are all present. *)
Definition valid_start (present : list Z) (L : nat) (i0 : Z) : Prop :=
  Forall (λ j : nat, (i0 + Z.of_nat j)%Z ∈ present) (seq 0 L).

#[global] Instance valid_start_dec present L i0 : Decision (valid_start present L i0).
Proof. unfold valid_start. apply _. Defined.

(** The valid starts among the indices present. *)
Definition valid_starts (present : list Z) (L : nat) : list Z :=
  filter (valid_start present L) present.





(** The records of partition [b] among the keys. *)
Definition in_partition (b : bool) (data : gmap string sample) (k : string) : Prop :=
  Sample.train <$> data !! k = Some b.

#[global] Instance in_partition_dec b data k : Decision (in_partition b data k).
Proof. unfold in_partition. apply _. Defined.



(** Three training frames and one validation frame, all in memory. *)
Definition four_cached : list (string * sample) :=
  three_frames ++ [cached_frame 4 (TScalar 0.4) (TScalar 0.8) false].

(** A generator about to start on them. *)
Definition demo_gen : Gen :=
  generator_start {| gen_records := list_to_map four_cached; rng := 4 |}
    (MyCPCallback_init true).

(** ** Predicates used by the further properties *)

(** Epochs during which [reset_best()] is not called. *)
Definition no_resets (losses : list Q) : list (bool * Q) :=
  (λ q, (false, q)) <$> losses.

(** The losses that improve on the best before them. *)
Fixpoint improvements (best : loss) (losses : list Q) : list Q :=
  match losses with
  | [] => []
  | q :: rest =>
      if np_less (Finite q) best then q :: improvements (Finite q) rest
      else improvements best rest
  end.

(** The file is as the callback last saw it, and older than [now]. *)
Definition file_seen (now : nat) (s : MyCPCallback) : Prop :=
  match model_file s with
  | None => last_modified_time s = None
  | Some (t, _) => last_modified_time s = Some t ∧ t < now
  end.

(** The same record, whatever image it holds in memory. *)
Definition same_record (s s' : sample) : Prop :=
  Sample.set_img_data (TScalar 0) s = Sample.set_img_data (TScalar 0) s'.

(** Every record of [d'] is a record of [d]. *)
Definition evolves (d d' : gmap string sample) : Prop :=
  ∀ k s', d' !! k = Some s' → ∃ s, d !! k = Some s ∧ same_record s s'.

(** A record without image in memory whose file does not decode. *)
Definition undecodable (w : World) (s : sample) : Prop :=
  Sample.img_data s = None ∧ load_scaled_image_arr w (Sample.image_path s) = None.

(** The error of a pilot that takes a vector besides the image, on a
    record that does not carry it. *)
Definition missing_vector (kl : KerasPilot) (e : exn) : Prop :=
  (has_imu kl = true ∧ e = KeyError "imu_array")
  ∨ (has_bvh kl = true ∧ e = KeyError "behavior_arr").

(** A record of partition [b] of the store [d0], as a batch holds it. *)
Definition from_partition (b : bool) (d0 : gmap string sample)
    (e : string * sample) : Prop :=
  ∃ s0, d0 !! e.1 = Some s0 ∧ Sample.train s0 = b ∧ same_record s0 e.2.

(** A batch whose targets are made of the controls of [batch_size]
    records of partition [b] of the store [d0]. *)
Definition batch_of (kl : KerasPilot) (batch_size : nat) (b : bool)
    (d0 : gmap string sample) (batch : Batch) : Prop :=
  ∃ (batch_data : list (string * sample)) (l : Lists),
    length batch_data = batch_size
    ∧ Forall (from_partition b d0) batch_data
    ∧ targets kl l = Ok (y batch)
    ∧ angles l = Sample.angle <$> batch_data.*2
    ∧ throttles l = Sample.throttle <$> batch_data.*2.

(** ** Further examples *)

(** A tub whose second record has no image entry. *)
Definition no_image_entry : World :=
  table_world
    [("tub/record_1.json", 1%Z); ("tub/record_2.json", 2%Z)] []
    [("tub/record_1.json", frame_json "1_cam-image_array_.jpg" 0.1 0.3);
     ("tub/record_2.json", JObj [("user/angle", JNum 0.1); ("user/throttle", JNum 0.3)])]
    [("tub/1_cam-image_array_.jpg", pixel 1)] [].

(** The store after the first of these records. *)
Definition first_ingested : Store :=
  Eval vm_compute in
    match collate_records no_image_entry (linear_opts (small_cfg 2 2))
            ["tub/record_1.json"] empty_store with
    | Ok st => st
    | Raise _ => empty_store
    end.

(** The record of the tub [missing_image], as ingested, and the store
    that holds it. *)
Definition lone_record : Store :=
  Eval vm_compute in
    match collate_records missing_image (continuous_opts (small_cfg 1 2))
            ["tub/record_1.json"] empty_store with
    | Ok st => st
    | Raise _ => empty_store
    end.

Definition lone_sample : sample :=
  Eval vm_compute in default tub_1_frame_12 (gen_records lone_record !! "tub1").

(** A traversal of that store in continuous mode. *)
Definition lone_walk : Gen * list Batch :=
  Eval vm_compute in
    match shuffled_walk missing_image (continuous_opts (small_cfg 1 2)) (pilot_of None)
            false true 1 (generator_start lone_record (MyCPCallback_init true)) with
    | Ok r => r
    | Raise _ => (generator_start lone_record (MyCPCallback_init true), [])
    end.

(** Five frames of the tub [tub]; the image of the second is not there. *)
Definition gap_world : World :=
  table_world
    ((λ i, (record_name i, i)) <$> [1; 2; 3; 4; 5]%Z) []
    ((λ i, (record_name i, frame_json (image_name i) (i # 10) (i # 20)))
       <$> [1; 2; 3; 4; 5]%Z)
    ((λ i, ("tub/" +:+ image_name i, pixel (i # 1))) <$> [1; 3; 4; 5]%Z)
    [].

Definition gap_store : Store :=
  Eval vm_compute in
    match collate_records gap_world (linear_opts (small_cfg 2 2))
            (record_name <$> [1; 2; 3; 4; 5]%Z) empty_store with
    | Ok st => st
    | Raise _ => empty_store
    end.

Definition gap_sample (i : Z) : sample :=
  default tub_1_frame_12 (gen_records gap_store !! make_key "tub" i).

(** A continuous generator that starts on an empty store and finds the
    records of [two_tubs]. *)
Definition picked_up : Gen :=
  Eval vm_compute in
    match pick_up_records two_tubs (continuous_opts (small_cfg 1 2)) []
            (generator_start empty_store (MyCPCallback_init true)) with
    | Ok g => g
    | Raise _ => generator_start empty_store (MyCPCallback_init true)
    end.

(** A traversal of the training partition of [demo_gen] in batches of two. *)
Definition demo_walk : Gen * list Batch :=
  Eval vm_compute in
    match shuffled_walk two_tubs (linear_opts (small_cfg 2 2)) (pilot_of None)
            false true 2 demo_gen with
    | Ok r => r
    | Raise _ => (demo_gen, [])
    end.

(** The windows of length two over the frames 0 to 3, and one turn of the
    sequence generator over them in batches of two. *)
Definition three_windows : list window :=
  Eval vm_compute in collate_sequences (frames_store [0; 1; 2; 3]%Z) 2.

Definition demo_seq_turn : list window * gmap string seq_sample * list Batch :=
  Eval vm_compute in
    match seq_generator_turn (frames_world [0; 1; 2; 3]%Z) (small_cfg 2 2) false false
            2 (length three_windows) three_windows (frames_store [0; 1; 2; 3]%Z) with
    | Ok r => r
    | Raise _ => ([], ∅, [])
    end.

(** The windows of length two over the frames 0 to 5. *)
Definition five_windows : list window :=
  Eval vm_compute in collate_sequences (frames_store [0; 1; 2; 3; 4; 5]%Z) 2.

(** ** Lists of tub directories read from files *)

(** [s.startswith("#")] *)
Definition is_comment (s : string) : bool :=
  match s with
  | String c _ => bool_decide (c = "#"%char)
  | EmptyString => false
  end.

(** The body of [removeComments] for the indices still to visit: [del]
    shifts the later entries, which the descending loop has left behind. *)
Fixpoint removeComments_loop (indices : list nat) (dir_list : list string)
    : result (list string) :=
  match indices with
  | [] => Ok dir_list
  | i :: rest =>
      match dir_list !! i with
      | None => Raise IndexError
      | Some d =>
          if is_comment d then removeComments_loop rest (delete i dir_list)
          else if decide (String.length d = 0)
               then removeComments_loop rest (delete i dir_list)
               else removeComments_loop rest dir_list
      end
  end.

(** [removeComments]: the list is changed in place; here the changed list
    is returned. *)
Definition removeComments (dir_list : list string) : result (list string) :=
  removeComments_loop (reverse (seq 0 (length dir_list))) dir_list.

(** [s.split(sep)] for a separator of one character. *)
Fixpoint split_on (sep : ascii) (s : string) : list string :=
  match s with
  | EmptyString => [EmptyString]
  | String a rest =>
      if decide (a = sep) then EmptyString :: split_on sep rest
      else match split_on sep rest with
           | piece :: pieces => String a piece :: pieces
           | [] => [String a EmptyString]
           end
  end.

Definition newline : ascii := Ascii.ascii_of_nat 10.

(** The loop of [preprocessFileList]; [read_text] is [open(afile, "r")]
    followed by [f.read()]. *)
Fixpoint read_dirs (read_text : string → result string) (filelist : list string)
    (dirs : list string) : result (list string) :=
  match filelist with
  | [] => Ok dirs
  | afile :: rest =>
      text ← read_text afile;
      read_dirs read_text rest (dirs ++ split_on newline text)
  end.

Definition preprocessFileList (read_text : string → result string)
    (filelist : option (list string)) : result (list string) :=
  dirs ← match filelist with
         | Some files => read_dirs read_text files []
         | None => Ok []
         end;
  removeComments dirs.

(** An entry [removeComments] keeps. *)
Definition is_dir_entry (d : string) : Prop :=
  is_comment d = false ∧ d ≠ "".

#[global] Instance is_dir_entry_dec d : Decision (is_dir_entry d).
Proof. unfold is_dir_entry. apply _. Defined.

(** [sep.join(pieces)] *)
Fixpoint join_with (sep : ascii) (pieces : list string) : string :=
  match pieces with
  | [] => ""
  | [piece] => piece
  | piece :: rest => piece +:+ String sep (join_with sep rest)
  end.

(** A file of tub directories, and a reader that knows this file only. *)
Definition tubs_file : string :=
  Eval vm_compute in
    join_with newline ["# tubs of monday"; "data/tub_1"; ""; "data/tub_2"; ""].

Definition read_tubs_file (path : string) : result string :=
  if decide (path = "tubs.txt") then Ok tubs_file else Raise IOError.

(** ** Saving the best model and sending it to the car *)

(** [s[-n:]] and [s[:-n]] for [n > 0] *)
Definition py_last (n : nat) (s : string) : string :=
  let l := String.list_ascii_of_string s in
  String.string_of_list_ascii (drop (length l - n) l).

Definition py_but_last (n : nat) (s : string) : string :=
  let l := String.list_ascii_of_string s in
  String.string_of_list_ascii (take (length l - n) l).

(** [s.replace('\\', '/')] *)
Definition backslash : ascii := Ascii.ascii_of_nat 92.

Definition slashed (s : string) : string :=
  String.string_of_list_ascii
    ((λ c, if decide (c = backslash) then slash else c)
       <$> String.list_ascii_of_string s).

(** The machine the training runs on, as [on_best_model] meets it. *)
Record Host : Type := {
  os_name : string;
  (** [open(path, "w")] and [model.save_weights(path)] go through *)
  can_write : string → bool;
  (** [os.system(command)] *)
  os_system : string → Z;
  (** [import paramiko] goes through *)
  paramiko_installed : bool;
  (** host keys loaded, [ssh.connect(server, username, password)] and
      [ssh.open_sftp()] go through *)
  ssh_connect : string → string → string → bool;
  (** [sftp.put(localpath, remotepath)] goes through *)
  sftp_put : string → string → bool;
  (** [sftp.close()] and [ssh.close()] go through *)
  ssh_close : bool
}.

(** The settings of the car in the configuration. *)
Record PiConfig : Type := {
  SEND_BEST_MODEL_TO_PI : bool;
  PI_USERNAME : string;
  PI_HOSTNAME : string;
  PI_DONKEY_ROOT : string;
  PI_PASSWD : string
}.

(** What saving and sending does to the outside, in order. *)
Inductive action : Type :=
  | WriteJson (path : string)
  | SaveWeights (path : string)
  | Say (msg : string)
  | SayFiles (files : list (string * string))
  | OsSystem (command : string)
  | SftpPut (localpath remotepath : string).

Definition save_json_and_weights (h : Host) (filename : string)
    : list action * result (string * string) :=
  if negb (bool_decide (".h5" = py_last 3 filename))
  then ([], Raise (Exception "Model filename should end with .h5"))
  else
    let json_fnm := py_but_last 2 filename +:+ "json" in
    let weights_fnm := py_but_last 2 filename +:+ "weights" in
    if negb (can_write h json_fnm) then ([], Raise IOError)
    else if negb (can_write h weights_fnm) then ([WriteJson json_fnm], Raise IOError)
    else ([WriteJson json_fnm; SaveWeights weights_fnm], Ok (json_fnm, weights_fnm)).

(** ['scp %s %s@%s:~/%s/models/;' % (fnm, ...)] *)
Definition scp_command (pc : PiConfig) (fnm : string) : string :=
  "scp " +:+ fnm +:+ " " +:+ PI_USERNAME pc +:+ "@" +:+ PI_HOSTNAME pc
    +:+ ":~/" +:+ PI_DONKEY_ROOT pc +:+ "/models/;".

(** ['/home/%s/%s/%s' % (username, cfg.PI_DONKEY_ROOT, fnm.replace('\\', '/'))] *)
Definition remote_path (pc : PiConfig) (fnm : string) : string :=
  "/home/" +:+ PI_USERNAME pc +:+ "/" +:+ PI_DONKEY_ROOT pc +:+ "/" +:+ slashed fnm.

(** [for localpath, remotepath in files: sftp.put(localpath, remotepath)]:
    the files put, and whether the loop came to its end. *)
Fixpoint sftp_put_all (h : Host) (files : list (string * string))
    : list action * bool :=
  match files with
  | [] => ([], true)
  | (localpath, remotepath) :: rest =>
      if sftp_put h localpath remotepath
      then let '(puts, done) := sftp_put_all h rest in
           (SftpPut localpath remotepath :: puts, done)
      else ([], false)
  end.

Definition on_best_model (h : Host) (pc : PiConfig) (model_filename : string)
    : list action * result unit :=
  match save_json_and_weights h model_filename with
  | (saved, Raise e) => (saved, Raise e)
  | (saved, Ok (json_fnm, weights_fnm)) =>
      if negb (SEND_BEST_MODEL_TO_PI pc) then (saved, Ok ())
      else if negb (bool_decide (os_name h = "nt")) then
        let command := scp_command pc weights_fnm +:+ scp_command pc json_fnm
                         +:+ scp_command pc model_filename in
        (saved ++ [Say "sending model to the pi"; Say ("sending " +:+ command);
                   OsSystem command; Say (pretty (os_system h command))], Ok ())
      else if negb (paramiko_installed h)
      then (saved, Raise (Exception "first install paramiko: pip install paramiko"))
      else
        let files := [(weights_fnm, remote_path pc weights_fnm);
                      (json_fnm, remote_path pc json_fnm);
                      (model_filename, remote_path pc model_filename)] in
        let sent :=
          if ssh_connect h (PI_HOSTNAME pc) (PI_USERNAME pc) (PI_PASSWD pc)
          then let '(puts, done) := sftp_put_all h files in
               puts ++ [Say (if done && ssh_close h then "send succeded"
                             else "send failed")]
          else [Say "send failed"] in
        (saved ++ SayFiles files :: sent, Ok ())
  end.

(** A Windows machine whose link to the car breaks after two files, and
    the settings of a car. *)
Definition windows_host : Host :=
  {| os_name := "nt";
     can_write := λ _, true;
     os_system := λ _, 0%Z;
     paramiko_installed := true;
     ssh_connect := λ _ _ _, true;
     sftp_put := λ localpath _, negb (bool_decide (localpath = "models/pilot.h5"));
     ssh_close := true |}.

(** A Windows machine on which every file goes over, but the connection
    does not close cleanly. *)
Definition unclosed_host : Host :=
  {| os_name := "nt";
     can_write := λ _, true;
     os_system := λ _, 0%Z;
     paramiko_installed := true;
     ssh_connect := λ _ _ _, true;
     sftp_put := λ _ _, true;
     ssh_close := false |}.

Definition pi_config : PiConfig :=
  {| SEND_BEST_MODEL_TO_PI := true;
     PI_USERNAME := "pi";
     PI_HOSTNAME := "donkey.local";
     PI_DONKEY_ROOT := "mycar";
     PI_PASSWD := "raspberry" |}.

(** The three files [on_best_model] sends, with their places on the car. *)
Definition files_to_send (pc : PiConfig) (stem : string) : list (string * string) :=
  (λ fnm, (fnm, remote_path pc fnm))
    <$> [stem +:+ ".weights"; stem +:+ ".json"; stem +:+ ".h5"].

Definition is_put (a : action) : bool :=
  match a with
  | SftpPut _ _ => true
  | _ => false
  end.

(** ** The generator of the pruning evaluation *)

Record SequencePredictionGenerator : Type := mkSPG {
  spg_data : list sample;
  spg_batch_size : nat
}.

(** [lst[:n]] for an int [n] of either sign *)
Definition py_take {A : Type} (n : Z) (l : list A) : list A :=
  if decide (n < 0)%Z then take (length l - Z.to_nat (- n)) l
  else take (Z.to_nat n) l.

(** [__init__]: [values] is [list(data.values())] and [n] is
    [int(len(data) * cfg.PRUNE_EVAL_PERCENT_OF_DATASET)], a product of
    floats. *)
Definition SequencePredictionGenerator_init (values : list sample) (n : Z)
    (c : Config) : SequencePredictionGenerator :=
  mkSPG (py_take n values) (BATCH_SIZE c).

(** [int(np.ceil(a / float(b)))]; the quotient of the two floats is exact
    enough for the ceiling as long as [a] is below 2^53. *)
Definition ceil_div (a b : nat) : nat := (a + b - 1) / b.

(** [__len__] *)
Definition spg_len (g : SequencePredictionGenerator) : result nat :=
  if decide (spg_batch_size g = 0) then Raise ZeroDivisionError
  else Ok (ceil_div (length (spg_data g)) (spg_batch_size g)).

(** [self.data[idx * self.batch_size:(idx + 1) * self.batch_size]] *)
Definition spg_batch_data (g : SequencePredictionGenerator) (idx : nat)
    : list sample :=
  take (spg_batch_size g) (drop (idx * spg_batch_size g) (spg_data g)).

(** [__getitem__] for an index from zero on: the images of the batch (an
    image that does not load is [None]) and the empty array. *)
Definition spg_getitem (w : World) (g : SequencePredictionGenerator) (idx : nat)
    : list (option tensor) * tensor :=
  ((λ data, load_scaled_image_arr w (Sample.image_path data)) <$> spg_batch_data g idx,
   np_array []).

(** ** The outcome of a training run *)

(** The options [train] hands to [collate_records] and to its generators. *)
Definition train_opts (w : World) (c : Config) (model_type : option string)
    (continuous : bool) : Opts :=
  let kl := get_model_by_type w model_type in
  {| cfg := c;
     categorical := bool_decide (pilot kl = KerasCategorical
                                 ∨ pilot kl = KerasBehavioral);
     continuous := continuous |}.

(** The store [train] starts from, filled with the records of the tubs. *)
Definition train_store (w : World) (c : Config) (tub_names : list string)
    (model_type : option string) (continuous : bool) : result Store :=
  collate_records w (train_opts w c model_type continuous)
    (gather_records w tub_names) {| gen_records := ∅; rng := 0 |}.

Definition is_fit (e : event) : bool :=
  match e with
  | Fit _ _ _ => true
  | _ => false
  end.

(** The store [train] builds from the frames 1 to 4 of the tub [tub]. *)
Definition four_ingested : Store :=
  Eval vm_compute in
    match train_store (frames_world [1; 2; 3; 4]%Z) (small_cfg 2 2) ["tub"] None false with
    | Ok st => st
    | Raise _ => empty_store
    end.

(** ** Pruning *)

(** A layer of the Keras model: the name of its class, its name and, for
    a convolution, the number of its filters. *)
Record Layer : Type := {
  layer_class : string;
  layer_name : string;
  filters : nat
}.

Definition is_conv (layer : Layer) : bool :=
  bool_decide (layer_class layer = "Conv2D").

(** [get_total_channels] on [model.layers] *)
Definition get_total_channels (layers : list Layer) : nat :=
  foldl (λ channels layer,
           if is_conv layer then channels + filters layer else channels)
        0 layers.

(** [get_model_apoz] on [model.layers]; [get_apoz] is kerassurgeon's, for
    the model and generator at hand.  Unpacking [zip( *apoz)] into three
    names fails when there is no row. *)
Definition get_model_apoz (get_apoz : Layer → list Q) (layers : list Layer)
    : result (list (string * nat * Q)) :=
  let apoz :=
    foldl (λ apoz layer,
             if is_conv layer
             then apoz ++ imap (λ i value, (layer_name layer, i, value)) (get_apoz layer)
             else apoz)
          [] layers in
  match apoz with
  | [] => Raise ValueError
  | _ => Ok apoz
  end.

(** What pruning takes from Keras, kerassurgeon and the float unit, for a
    type [M] of models. *)
Record Keras (M : Type) : Type := {
  layers : M → list Layer;
  get_apoz : M → Layer → list Q;
  (** [int(math.floor(percent_pruning / 100 * total_channels))] *)
  channels_to_delete : nat → Z;
  (** [prune_model(model, apoz_df, n_channels_delete)] *)
  prune_model : M → list (string * nat * Q) → Z → M;
  (** [fit_generator]: the fitted model and [min(history.history['val_loss'])] *)
  fit_generator : M → M * Q
}.
Arguments layers {M} k model.
Arguments get_apoz {M} k model layer.
Arguments channels_to_delete {M} k total_channels.
Arguments prune_model {M} k model apoz_df n_channels_delete.
Arguments fit_generator {M} k model.

(** [prune]: the pruned model, which has been saved as [name], and the
    number of channels asked to be deleted. *)
Definition prune {M : Type} (k : Keras M) (model : M) : result (M * Z) :=
  let total_channels := get_total_channels (layers k model) in
  let n_channels_delete := channels_to_delete k total_channels in
  apoz_df ← get_model_apoz (get_apoz k model) (layers k model);
  let model := prune_model k model apoz_df n_channels_delete in
  Ok (model, n_channels_delete).

(** What the pruning loop does to the outside. *)
Inductive prune_event : Type :=
  | SavedModel (path : string)
  | CompiledModel
  | FitPruned.

(** How the pruning loop stands when it is left or the steps run out. *)
Inductive loop_end (M : Type) : Type :=
  | Stopped (model : M) (cnn_channels : Z) (save_best : MyCPCallback)
  | StillPruning.
Arguments Stopped {M} model cnn_channels save_best.
Arguments StillPruning {M}.

(** The [while] loop of [go_train], run for at most [steps] turns.
    [pruned_name] is the file name [prune] saves under, the same in every
    turn. *)
Fixpoint prune_loop {M : Type} (steps : nat) (k : Keras M)
    (pruned_name base_model_path : string) (max_val_loss : Q)
    (target_channels : Z) (model : M) (cnn_channels : Z)
    (save_best : MyCPCallback) : list prune_event * result (loop_end M) :=
  if decide (cnn_channels > target_channels)%Z then
    match steps with
    | O => ([], Ok StillPruning)
    | S steps =>
        let save_best := reset_best save_best in
        match prune k model with
        | Raise e => ([], Raise e)
        | Ok (model, channels_deleted) =>
            let cnn_channels := (cnn_channels - channels_deleted)%Z in
            let '(model, prune_loss) := fit_generator k model in
            let turn := [SavedModel pruned_name; CompiledModel; FitPruned] in
            if Qlt_bool prune_loss max_val_loss then
              let saved := SavedModel (base_model_path +:+ "_prune_"
                                         +:+ pretty cnn_channels +:+ "_filters.h5") in
              let '(later, r) :=
                prune_loop steps k pruned_name base_model_path max_val_loss
                  target_channels model cnn_channels save_best in
              (turn ++ saved :: later, r)
            else (turn, Ok (Stopped model cnn_channels save_best))
        end
    end
  else ([], Ok (Stopped model cnn_channels save_best)).

Definition is_fit_pruned (e : prune_event) : bool :=
  match e with
  | FitPruned => true
  | _ => false
  end.

(** A network of two layers, one of them a convolution with four
    filters, and a Keras that deletes a fifth of the channels, rounded
    down, but [least] at least, whose fits end with the loss 0 and
    which reports every channel as never active. *)
Definition small_net : list Layer :=
  [{| layer_class := "Conv2D"; layer_name := "conv2d_1"; filters := 4 |};
   {| layer_class := "Dense"; layer_name := "dense_1"; filters := 0 |}].

(** The same network with [n] filters. *)
Definition conv_net (n : nat) : list Layer :=
  [{| layer_class := "Conv2D"; layer_name := "conv2d_1"; filters := n |};
   {| layer_class := "Dense"; layer_name := "dense_1"; filters := 0 |}].

Definition delete_channels (n : nat) (layer : Layer) : Layer :=
  {| layer_class := layer_class layer; layer_name := layer_name layer;
     filters := filters layer - (if is_conv layer then n else 0) |}.

Definition fraction_keras (least : Z) : Keras (list Layer) :=
  {| layers := λ model, model;
     get_apoz := λ _ layer, replicate (filters layer) 1%Q;
     channels_to_delete := λ total, Z.max least (Z.of_nat (total / 5));
     prune_model := λ model _ n, delete_channels (Z.to_nat n) <$> model;
     fit_generator := λ model, (model, 0%Q) |}.

(** * Properties *)

(** ** Keys *)

(** Within one directory the key determines the frame index. *)
Lemma make_key_inj_index (tub_path : string) (i j : Z) :
  make_key tub_path i = make_key tub_path j → i = j.
Proof.
  unfold make_key. intros H.
  apply String.app_inj in H. by apply (inj pretty).
Qed.

Lemma make_next_key_make_key (tub_path : string) (index off : Z) :
  make_next_key tub_path index off = make_key tub_path (index + off).
Proof. reflexivity. Qed.

(** C1: [make_key] is not injective on (tub_path, index) pairs.  Frame 12
    of [data/tub_1] and frame 2 of [data/tub_11] are distinct samples with
    the same key [data/tub_112]; ingesting both records leaves one sample
    in the store, the second one is taken for a record already present. *)
Theorem make_key_collision :
  make_key "data/tub_1" 12 = make_key "data/tub_11" 2
  ∧ ("data/tub_1", 12%Z) ≠ ("data/tub_11", 2%Z)
  ∧ dirname "data/tub_1/record_12.json" = "data/tub_1"
  ∧ dirname "data/tub_11/record_2.json" = "data/tub_11"
  ∧ (λ st, (Sample.record_path <$> (map_to_list (gen_records st)).*2))
      <$> collate_records two_tubs (linear_opts (small_cfg 2 2))
            ["data/tub_1/record_12.json"; "data/tub_11/record_2.json"]
            empty_store
    = Ok ["data/tub_1/record_12.json"].
Proof.
  split; [reflexivity|]. split; [discriminate|].
  split; [reflexivity|]. split; [reflexivity|].
  vm_compute. reflexivity.
Qed.

(** ** The checkpoint callback *)

Ltac case_matches :=
  repeat (match goal with
          | |- context [match ?x with _ => _ end] => destruct x eqn:?; simpl in *
          end).

(** The end of an epoch during which the flag was raised. *)
Lemma on_epoch_end_flagged (now : nat) (current : loss) (s : MyCPCallback) :
  reset_best_end_of_epoch s = true →
  let s1 := on_epoch_end now (Some current) s in
  best s1 = Inf ∧ reset_best_end_of_epoch s1 = false
  ∧ model_file s1 = (if np_less current (best s)
                     then Some (now, current) else model_file s).
Proof.
  intros Hs. unfold on_epoch_end, ModelCheckpoint_on_epoch_end, send_if_changed.
  destruct s as [b r snd lm mf st]; simpl in *; subst r.
  destruct (np_less current b); simpl; case_matches; simpl;
    repeat split; try reflexivity; congruence.
Qed.

(** The end of an epoch that starts from an infinite best. *)
Lemma on_epoch_end_from_inf (now : nat) (q : Q) (s : MyCPCallback) :
  best s = Inf → reset_best_end_of_epoch s = false →
  let s2 := on_epoch_end now (Some (Finite q)) s in
  best s2 = Finite q ∧ model_file s2 = Some (now, Finite q).
Proof.
  intros Hb Hr. unfold on_epoch_end, ModelCheckpoint_on_epoch_end, send_if_changed.
  destruct s as [b r snd lm mf st]; simpl in *; subst.
  simpl; case_matches; simpl; repeat split; try reflexivity; congruence.
Qed.

(** C2: [reset_best()] makes the running best infinite at one epoch
    boundary, the end of the epoch in progress, so that the loss of the
    next epoch is the new best whatever the prior minima were; after that
    epoch the best is finite again.  An epoch runs from the end of the one
    before to its own [on_epoch_end], so a call made before the third
    epoch starts is made while the second is in progress.  For the losses
    0.5, 0.3, 0.4, 0.2 with [reset_best()] called before the third epoch,
    the best is infinite at the boundary between the second and the third
    epoch, the loss 0.4 of the third epoch is taken as a new best and its
    model is written, although 0.3 < 0.4, and after the fourth epoch the
    best and the model written are those of 0.2. *)
Theorem reset_best_next_epoch_is_baseline :
  (∀ (self : MyCPCallback) (now now' : nat) (current : loss) (q : Q),
     let self1 := on_epoch_end now (Some current) (reset_best self) in
     let self2 := on_epoch_end now' (Some (Finite q)) self1 in
     best self1 = Inf
     ∧ reset_best_end_of_epoch self1 = false
     ∧ best self2 = Finite q
     ∧ model_file self2 = Some (now', Finite q)
     ∧ reset_best_end_of_epoch self2 = false)
  ∧ best (run_epochs 1 (take 2 four_epochs) (MyCPCallback_init true)) = Inf
  ∧ best (run_epochs 1 (take 3 four_epochs) (MyCPCallback_init true))
    = Finite 0.4%Q
  ∧ model_file (run_epochs 1 (take 3 four_epochs) (MyCPCallback_init true))
    = Some (3, Finite 0.4%Q)
  ∧ Qlt_bool 0.3%Q 0.4%Q = true
  ∧ best (run_epochs 1 four_epochs (MyCPCallback_init true)) = Finite 0.2%Q
  ∧ model_file (run_epochs 1 four_epochs (MyCPCallback_init true))
    = Some (4, Finite 0.2%Q).
Proof.
  split; [|vm_compute; by repeat split].
  intros self now now' current q self1 self2.
  destruct (on_epoch_end_flagged now current (reset_best self) eq_refl)
    as (Hb & Hr & Hf).
  destruct (on_epoch_end_from_inf now' q _ Hb Hr) as (Hb2 & Hf2).
  repeat split; try done.
  unfold self2, on_epoch_end. fold self1.
  destruct (reset_best_end_of_epoch
              (send_if_changed
                 (ModelCheckpoint_on_epoch_end now' (Some (Finite q)) self1)))
    eqn:E; [reflexivity|exact E].
Qed.

(** The flag acts at the end of the epoch during which it is raised: a
    call that comes once the third epoch is in progress leaves the loss
    0.4 compared with 0.3, and it is the fourth epoch that starts afresh. *)
Lemma reset_best_during_third_epoch :
  best (run_epochs 1 (take 3 four_epochs_late) (MyCPCallback_init true)) = Inf
  ∧ model_file (run_epochs 1 (take 3 four_epochs_late) (MyCPCallback_init true))
    = Some (2, Finite 0.3%Q)
  ∧ model_file (run_epochs 1 four_epochs_late (MyCPCallback_init true))
    = Some (4, Finite 0.2%Q).
Proof. vm_compute. by repeat split. Qed.

(** ** The dispatcher *)

(** C10: for the model types [rnn], [3d] and [look_ahead], a run started
    with continuous mode on ends with an assertion error before anything
    else happens: no event at all, so no record is read and nothing is
    fitted.  A continuous run that gets further is a run of [train], for a
    model type outside those three. *)
Theorem sequence_types_refuse_continuous (w : World) (c : Config)
    (tub : list string) (model : string) (transfer : option string)
    (model_type : option string) (aug : bool) :
  (model_type ∈ sequence_types →
   multi_train w c tub model transfer model_type true aug
   = mkRun [] (Raise AssertionError))
  ∧ (multi_train w c tub model transfer model_type true aug
     ≠ mkRun [] (Raise AssertionError) →
     (model_type ∉ sequence_types)
     ∧ multi_train w c tub model transfer model_type true aug
       = train w c tub model transfer model_type true aug).
Proof.
  unfold multi_train. split.
  - intros Hin. rewrite decide_True by done. reflexivity.
  - intros Hrun. destruct (decide (model_type ∈ sequence_types)) as [Hin|Hout].
    + exfalso. apply Hrun. reflexivity.
    + done.
Qed.

Lemma sequence_types_refuse_continuous_witness :
  multi_train two_tubs (small_cfg 2 2) ["data/tub_1"] "models/pilot.h5" None
    (Some "rnn") true false
  = mkRun [] (Raise AssertionError)
  ∧ effects (multi_train two_tubs (small_cfg 2 2) ["data/tub_1"] "models/pilot.h5"
               None (Some "linear") true false)
    ≠ [].
Proof.
  split.
  - apply (sequence_types_refuse_continuous two_tubs (small_cfg 2 2)
             ["data/tub_1"] "models/pilot.h5" None (Some "rnn") false).
    vm_compute. set_solver.
  - vm_compute. discriminate.
Defined.

(** ** Ingestion *)

(** C4, as stated, fails: the record of the tub [missing_image] names an
    image file that does not exist and cannot be decoded, and the sample
    is stored all the same. *)
Lemma unresolved_image_is_stored :
  ∃ st s,
    collate_records missing_image (linear_opts (small_cfg 2 2))
      ["tub/record_1.json"] empty_store = Ok st
    ∧ gen_records st !! "tub1" = Some s
    ∧ Sample.image_path s = "tub/1_cam-image_array_.jpg"
    ∧ path_exists missing_image (Sample.image_path s) = false
    ∧ load_scaled_image_arr missing_image (Sample.image_path s) = None.
Proof.
  eexists _, _. split; [vm_compute; reflexivity|].
  split; [vm_compute; reflexivity|]. by vm_compute.
Qed.

Lemma collate_record_inv (w : World) (opts : Opts) (st st' : Store)
    (record_path : string) :
  collate_record w opts st record_path = Ok st' → collated w st record_path st'.
Proof.
  unfold collate_record. intros H.
  destruct (get_record_index w record_path) as [index|] eqn:Hidx; simpl in H;
    [|discriminate].
  destruct (decide (is_Some (gen_records st !! make_key (dirname record_path) index)))
    as [Hin|Hout].
  { injection H as <-. constructor. }
  destruct (load_json w record_path) as [json_data|] eqn:Hload; simpl in H.
  2: { injection H as <-. constructor. }
  destruct (json_get json_data "cam/image_array") as [v|] eqn:Hget; simpl in H;
    [|discriminate].
  destruct v as [| | |image_filename| |]; simpl in H; try discriminate.
  destruct (json_get json_data "user/angle" ≫= py_float w) as [a|]; simpl in H;
    [|discriminate].
  destruct (json_get json_data "user/throttle" ≫= py_float w) as [t|]; simpl in H;
    [|discriminate].
  injection H as <-.
  apply collated_insert with (image_filename := image_filename); simpl; try done.
  by apply eq_None_not_Some.
Qed.

(** A turn of the loop never touches what is already stored. *)
Lemma collated_lookup (w : World) (st st' : Store) (record_path : string)
    (k : string) (s : sample) :
  collated w st record_path st' →
  gen_records st !! k = Some s → gen_records st' !! k = Some s.
Proof.
  intros [|index fn s' _ Hfree] Hk; [done|]. simpl.
  rewrite lookup_insert_ne; [done|]. intros <-. congruence.
Qed.

Lemma collate_records_lookup (w : World) (opts : Opts) (records : list string)
    (st st' : Store) (k : string) (s : sample) :
  collate_records w opts records st = Ok st' →
  gen_records st !! k = Some s → gen_records st' !! k = Some s.
Proof.
  revert st. induction records as [|r rest IH]; intros st H Hk; simpl in H.
  - by injection H as <-.
  - destruct (collate_record w opts st r) as [st1|] eqn:H1; simpl in H; [|discriminate].
    apply (IH st1 H). eapply collated_lookup; [|done].
    by eapply collate_record_inv.
Qed.

(** C4, amended: what ingestion drops is a record whose file cannot be
    opened or parsed as JSON.  Every sample that [collate_records] adds to
    the store comes from one of the given record files, which was read as
    JSON at that moment, and its image path is the directory of the record
    joined with the image name found in the JSON; whether that path
    exists is not looked at. *)
Theorem ingested_sample_was_parsed (w : World) (opts : Opts)
    (records : list string) (st st' : Store) (k : string) (s : sample) :
  collate_records w opts records st = Ok st' →
  gen_records st !! k = None →
  gen_records st' !! k = Some s →
  Sample.record_path s ∈ records
  ∧ load_json w (Sample.record_path s) = Ok (Sample.json_data s)
  ∧ ∃ image_filename,
      json_get (Sample.json_data s) "cam/image_array" = Ok (JStr image_filename)
      ∧ Sample.image_path s
        = path_join (dirname (Sample.record_path s)) image_filename.
Proof.
  revert st. induction records as [|r rest IH]; intros st H Hfree Hk; simpl in H.
  - injection H as <-. congruence.
  - destruct (collate_record w opts st r) as [st1|] eqn:H1; simpl in H; [|discriminate].
    destruct (gen_records st1 !! k) as [s1|] eqn:Hk1.
    + pose proof (collate_records_lookup _ _ _ _ _ _ _ H Hk1) as Hs.
      assert (s1 = s) as -> by congruence.
      apply collate_record_inv in H1.
      destruct H1 as [|index fn s' Hidx Hnone Hload Hget Hrp Htp Hi Hip Himg Htr].
      { congruence. }
      simpl in Hk1.
      destruct (decide (make_key (dirname r) index = k)) as [<-|Hne].
      * rewrite lookup_insert_eq in Hk1. injection Hk1 as ->.
        rewrite Hrp. split; [by left|]. split; [done|]. by exists fn.
      * rewrite lookup_insert_ne in Hk1 by done. congruence.
    + destruct (IH st1 H Hk1 Hk) as (Hin & Hrest). split; [by right|done].
Qed.

Lemma ingested_sample_was_parsed_witness :
  Sample.record_path tub_1_frame_12 ∈ ["data/tub_1/record_12.json"]
  ∧ load_json two_tubs (Sample.record_path tub_1_frame_12)
    = Ok (Sample.json_data tub_1_frame_12)
  ∧ ∃ image_filename,
      json_get (Sample.json_data tub_1_frame_12) "cam/image_array"
      = Ok (JStr image_filename)
      ∧ Sample.image_path tub_1_frame_12
        = path_join (dirname (Sample.record_path tub_1_frame_12)) image_filename.
Proof.
  apply (ingested_sample_was_parsed two_tubs (linear_opts (small_cfg 2 2))
           ["data/tub_1/record_12.json"] empty_store
           {| gen_records := {["data/tub_112" := tub_1_frame_12]}; rng := 1 |}
           "data/tub_112").
  - vm_compute. reflexivity.
  - reflexivity.
  - vm_compute. reflexivity.
Defined.

(** A record whose key is taken is passed over. *)
Lemma collate_record_present (w : World) (opts : Opts) (st : Store)
    (record_path : string) (index : Z) :
  get_record_index w record_path = Ok index →
  is_Some (gen_records st !! make_key (dirname record_path) index) →
  collate_record w opts st record_path = Ok st.
Proof.
  intros Hidx Hin. unfold collate_record. rewrite Hidx. simpl.
  by rewrite decide_True.
Qed.

(** A record whose key is still free afterwards is one whose file could
    not be read. *)
Lemma collate_record_absent (w : World) (opts : Opts) (st st1 : Store)
    (record_path : string) (index : Z) :
  get_record_index w record_path = Ok index →
  collate_record w opts st record_path = Ok st1 →
  gen_records st1 !! make_key (dirname record_path) index = None →
  try_opt (load_json w record_path) = None ∧ st1 = st.
Proof.
  intros Hidx H Hfree. unfold collate_record in H. rewrite Hidx in H. simpl in H.
  destruct (decide (is_Some (gen_records st !! make_key (dirname record_path) index)))
    as [[s Hs]|Hout].
  { injection H as <-. congruence. }
  destruct (try_opt (load_json w record_path)) as [json_data|]; [|by injection H as <-].
  exfalso.
  destruct (json_get json_data "cam/image_array") as [v|]; simpl in H; [|discriminate].
  destruct (os_path_join (dirname record_path) v); simpl in H; [|discriminate].
  destruct (json_get json_data "user/angle" ≫= py_float w); simpl in H; [|discriminate].
  destruct (json_get json_data "user/throttle" ≫= py_float w); simpl in H; [|discriminate].
  injection H as <-. simpl in Hfree. by rewrite lookup_insert_eq in Hfree.
Qed.

Lemma collate_records_again (w : World) (opts : Opts) (records : list string)
    (st st' st2 : Store) :
  collate_records w opts records st = Ok st' →
  (∀ k, is_Some (gen_records st' !! k) → is_Some (gen_records st2 !! k)) →
  collate_records w opts records st2 = Ok st2.
Proof.
  revert st. induction records as [|r rest IH]; intros st H Hsub; simpl in *; [done|].
  destruct (collate_record w opts st r) as [st1|] eqn:H1; simpl in H; [|discriminate].
  assert (Hsub1 : ∀ k, is_Some (gen_records st1 !! k) → is_Some (gen_records st2 !! k)).
  { intros k [s Hs]. apply Hsub. exists s. by eapply collate_records_lookup. }
  destruct (get_record_index w r) as [index|] eqn:Hidx.
  2: { unfold collate_record in H1. by rewrite Hidx in H1. }
  assert (collate_record w opts st2 r = Ok st2) as ->; [|simpl; by eapply IH].
  destruct (gen_records st2 !! make_key (dirname r) index) as [s2|] eqn:H2.
  { eapply collate_record_present; [done|]. by rewrite H2. }
  destruct (collate_record_absent w opts st st1 r index Hidx H1) as [Hload _].
  { destruct (gen_records st1 !! make_key (dirname r) index) eqn:Hk1; [|done].
    destruct (Hsub1 (make_key (dirname r) index)) as [? ?]; [by rewrite Hk1|congruence]. }
  unfold collate_record. rewrite Hidx. simpl.
  rewrite decide_False; [by rewrite Hload|].
  rewrite H2. by intros [? ?].
Qed.

(** C6: ingestion is idempotent.  A record whose key is in the store is
    passed over, the store is returned as it was, the sample under that
    key included; and a second run of [collate_records] over the same
    record paths, the files being what they were, returns the store the
    first run left: nothing is inserted, the size is the same and no
    random number is drawn. *)
Theorem collate_records_idempotent (w : World) (opts : Opts) :
  (∀ (st : Store) (record_path : string) (index : Z),
     get_record_index w record_path = Ok index →
     is_Some (gen_records st !! make_key (dirname record_path) index) →
     collate_record w opts st record_path = Ok st)
  ∧ (∀ (records : list string) (st st' : Store),
       collate_records w opts records st = Ok st' →
       ∃ st'', collate_records w opts records st' = Ok st''
               ∧ st'' = st'
               ∧ size (gen_records st'') = size (gen_records st')).
Proof.
  split.
  - intros st r index. apply collate_record_present.
  - intros records st st' H. exists st'.
    split; [|done]. by eapply collate_records_again.
Qed.

Lemma collate_records_idempotent_witness :
  collate_record two_tubs (linear_opts (small_cfg 2 2))
    {| gen_records := {["data/tub_112" := tub_1_frame_12]}; rng := 1 |}
    "data/tub_1/record_12.json"
  = Ok {| gen_records := {["data/tub_112" := tub_1_frame_12]}; rng := 1 |}
  ∧ ∃ st'', collate_records two_tubs (linear_opts (small_cfg 2 2))
              ["data/tub_1/record_12.json"]
              {| gen_records := {["data/tub_112" := tub_1_frame_12]}; rng := 1 |}
            = Ok st''
            ∧ st'' = {| gen_records := {["data/tub_112" := tub_1_frame_12]}; rng := 1 |}
            ∧ size (gen_records st'') = 1.
Proof.
  destruct (collate_records_idempotent two_tubs (linear_opts (small_cfg 2 2)))
    as [Hone Hall].
  split.
  - apply (Hone _ _ 12%Z); [reflexivity|vm_compute; eauto].
  - apply (Hall ["data/tub_1/record_12.json"] empty_store). vm_compute. reflexivity.
Defined.

(** ** The partition of a sample *)

Lemma same_partition_refl (d : gmap string sample) : same_partition d d.
Proof. intros k s Hs. eauto. Qed.

Lemma same_partition_trans (d1 d2 d3 : gmap string sample) :
  same_partition d1 d2 → same_partition d2 d3 → same_partition d1 d3.
Proof.
  intros H12 H23 k s3 Hs3.
  destruct (H23 k s3 Hs3) as (s2 & Hs2 & E2).
  destruct (H12 k s2 Hs2) as (s1 & Hs1 & E1).
  exists s1. split; [done|congruence].
Qed.

Lemma same_partition_delete (d : gmap string sample) (key : string) :
  same_partition d (delete key d).
Proof.
  intros k s Hs. apply lookup_delete_Some in Hs as [_ Hs]. eauto.
Qed.

Lemma same_partition_cache (d : gmap string sample) (key : string) (img : tensor) :
  same_partition d (alter (Sample.set_img_data img) key d).
Proof.
  intros k s' Hs. destruct (decide (key = k)) as [->|Hne].
  - rewrite lookup_alter_eq in Hs.
    destruct (d !! k) as [s|]; simpl in Hs; [|discriminate].
    injection Hs as <-. by exists s.
  - rewrite lookup_alter_ne in Hs by done. eauto.
Qed.

Create HintDb partition.

#[local] Hint Resolve same_partition_refl same_partition_delete
  same_partition_cache : partition.

Lemma fill_lists_same_partition (w : World) (c : Config) (kl : KerasPilot)
    (aug : bool) (batch_data : list (string * sample))
    (data data' : gmap string sample) (l : Lists) (filled : option Lists) :
  fill_lists w c kl aug batch_data data l = Ok (data', filled) →
  same_partition data data'.
Proof.
  revert data l. induction batch_data as [|[key record] rest IH];
    intros data l H; simpl in H.
  - injection H as <- _. auto with partition.
  - destruct (Sample.img_data record) as [img|].
    + destruct (add_record w kl record img l) as [l'|]; simpl in H; [|discriminate].
      by eapply IH.
    + destruct (load_scaled_image_arr w (Sample.image_path record)) as [img|].
      2: { injection H as <- _. auto with partition. }
      destruct (add_record w kl record _ l) as [l'|]; simpl in H; [|discriminate].
      apply IH in H. destruct (CACHE_IMAGES c); [|done].
      eapply same_partition_trans; [|exact H]. auto with partition.
Qed.

Lemma materialize_same_partition (w : World) (c : Config) (kl : KerasPilot)
    (aug : bool) (batch_size : nat) (batch_data : list (string * sample))
    (data data' : gmap string sample) (made : option Batch) :
  materialize w c kl aug batch_size batch_data data = Ok (data', made) →
  same_partition data data'.
Proof.
  unfold materialize. intros H.
  destruct (fill_lists w c kl aug batch_data data no_lists) as [[d filled]|] eqn:Hf;
    simpl in H; [|discriminate].
  apply fill_lists_same_partition in Hf.
  destruct filled as [l|]; [|by injection H as <- _].
  destruct (reshape _ _); simpl in H; [|discriminate].
  destruct (targets kl l); simpl in H; [|discriminate].
  by injection H as <- _.
Qed.

Lemma walk_same_partition (w : World) (opts : Opts) (kl : KerasPilot)
    (aug isTrainSet : bool) (batch_size : nat) (keys : list string)
    (data data' : gmap string sample) (batch_data : list (string * sample))
    (yielded yielded' : list Batch) :
  walk w opts kl aug isTrainSet batch_size keys data batch_data yielded
  = Ok (data', yielded') →
  same_partition data data'.
Proof.
  revert data batch_data yielded.
  induction keys as [|key rest IH]; intros data batch_data yielded H; simpl in H.
  - injection H as <- _. auto with partition.
  - destruct (data !! key) as [_record|]; [|by eapply IH].
    destruct (negb (Bool.eqb (Sample.train _record) isTrainSet)); [by eapply IH|].
    destruct (continuous opts && negb (path_exists w (Sample.image_path _record))).
    { apply IH in H. eapply same_partition_trans; [|exact H]. auto with partition. }
    destruct (decide (length (batch_data ++ [(key, _record)]) = batch_size));
      [|by eapply IH].
    destruct (materialize w (cfg opts) kl aug batch_size _ data)
      as [[d made]|] eqn:Hm; simpl in H; [|discriminate].
    apply materialize_same_partition in Hm.
    eapply same_partition_trans; [exact Hm|].
    destruct made; by eapply IH.
Qed.

Lemma shuffled_walk_same_partition (w : World) (opts : Opts) (kl : KerasPilot)
    (aug isTrainSet : bool) (batch_size : nat) (g g' : Gen) (yielded : list Batch) :
  shuffled_walk w opts kl aug isTrainSet batch_size g = Ok (g', yielded) →
  same_partition (gen_records (store g)) (gen_records (store g')).
Proof.
  unfold shuffled_walk. intros H.
  destruct (walk _ _ _ _ _ _ _ _ _ _) as [[d ys]|] eqn:Hw; simpl in H; [|discriminate].
  injection H as <- _. simpl. by eapply walk_same_partition.
Qed.

Lemma pick_up_records_lookup (w : World) (opts : Opts) (tub_names : list string)
    (g g' : Gen) (k : string) (s : sample) :
  pick_up_records w opts tub_names g = Ok g' →
  gen_records (store g) !! k = Some s →
  gen_records (store g') !! k = Some s.
Proof.
  unfold pick_up_records. intros H Hk.
  destruct (num_records g <? length (gather_records w tub_names))%nat;
    [|by injection H as <-].
  destruct (collate_records w opts _ (store g)) as [st|] eqn:Hc; simpl in H;
    [|discriminate].
  pose proof (collate_records_lookup _ _ _ _ _ _ _ Hc Hk).
  destruct (num_records g <? size (gen_records st))%nat; by injection H as <-.
Qed.

(** One operation leaves the partition of a sample that stays stored. *)
Lemma apply_op_keeps_train (o : op) (st st' : Store) (k : string) (s s' : sample) :
  apply_op o st = Ok st' →
  gen_records st !! k = Some s →
  gen_records st' !! k = Some s' →
  Sample.train s' = Sample.train s.
Proof.
  destruct o as [w opts records|w opts kl tubs aug isTrainSet bs minrec n cp];
    simpl; intros H Hk Hk'.
  - pose proof (collate_records_lookup _ _ _ _ _ _ _ H Hk). congruence.
  - destruct (generator_turn _ _ _ _ _ _ _ _ _) as [[g ys]|] eqn:Hg; simpl in H;
      [|discriminate].
    injection H as <-. unfold generator_turn in Hg.
    assert (Hwalk : ∀ g0 g1 ys1,
              gen_records (store g0) !! k = Some s →
              gen_records (store g1) !! k = Some s' →
              shuffled_walk w opts kl aug isTrainSet bs g0 = Ok (g1, ys1) →
              Sample.train s' = Sample.train s).
    { intros g0 g1 ys1 H0 H1 Hw. apply shuffled_walk_same_partition in Hw.
      destruct (Hw k s' H1) as (s0 & Hs0 & E). congruence. }
    destruct (isTrainSet && continuous opts).
    + destruct (pick_up_records w opts tubs _) as [g0|] eqn:Hp; simpl in Hg;
        [|discriminate].
      pose proof (pick_up_records_lookup _ _ _ _ _ _ _ Hp Hk) as Hk0.
      destruct (num_records g0 <? minrec)%nat.
      * injection Hg as <- _. congruence.
      * by eapply Hwalk.
    + by eapply (Hwalk {| store := st; num_records := n; save_best := cp |}).
Qed.

(** C7: the partition of a sample is set when [collate_records] inserts
    it, from one draw of [random.uniform(0., 1.0)] compared with 0.2, and
    nothing changes it afterwards: through any sequence of ingestion runs
    and generator turns, a sample has the partition it started with for as
    long as it is stored. *)
Theorem partition_assigned_once :
  (∀ (w : World) (opts : Opts) (st st' : Store) (record_path k : string)
     (s : sample),
     collate_record w opts st record_path = Ok st' →
     gen_records st !! k = None →
     gen_records st' !! k = Some s →
     Sample.train s = Qlt_bool 0.2%Q (uniform w (rng st))
     ∧ rng st' = S (rng st))
  ∧ (∀ (ops : list op) (st : Store) (sts : list Store) (k : string) (s : sample),
       run_ops ops st = Ok sts →
       gen_records st !! k = Some s →
       (∀ st_i, st_i ∈ sts → is_Some (gen_records st_i !! k)) →
       ∀ st_i, st_i ∈ sts →
         ∃ s', gen_records st_i !! k = Some s'
               ∧ Sample.train s' = Sample.train s).
Proof.
  split.
  - intros w opts st st' r k s H Hfree Hk.
    apply collate_record_inv in H.
    destruct H as [|index fn s0 Hidx Hnone Hload Hget Hrp Htp Hi Hip Himg Htr];
      [congruence|].
    simpl in *. split; [|done].
    destruct (decide (make_key (dirname r) index = k)) as [<-|Hne].
    + rewrite lookup_insert_eq in Hk. by injection Hk as <-.
    + rewrite lookup_insert_ne in Hk by done. congruence.
  - induction ops as [|o rest IH]; intros st sts k s H Hk Hstay st_i Hin; simpl in H.
    + injection H as <-. by apply elem_of_nil in Hin.
    + destruct (apply_op o st) as [st1|] eqn:H1; simpl in H; [|discriminate].
      destruct (run_ops rest st1) as [sts1|] eqn:Hrest; simpl in H; [|discriminate].
      injection H as <-.
      destruct (Hstay st1) as [s1 Hs1]; [by left|].
      pose proof (apply_op_keeps_train _ _ _ _ _ _ H1 Hk Hs1) as E1.
      apply elem_of_cons in Hin as [->|Hin]; [by exists s1|].
      destruct (IH st1 sts1 k s1 Hrest Hs1) with (st_i := st_i) as (s' & Hs' & E');
        [|done|].
      * intros st_j Hj. apply Hstay. by right.
      * exists s'. split; [done|congruence].
Qed.

Lemma partition_assigned_once_witness :
  (Sample.train tub_1_frame_12 = Qlt_bool 0.2%Q (uniform two_tubs 0) ∧ 1 = 1)
  ∧ length demo_stores = 3
  ∧ ∀ st_i, st_i ∈ demo_stores →
      ∃ s', gen_records st_i !! "data/tub_112" = Some s'
            ∧ Sample.train s' = Sample.train tub_1_frame_12.
Proof.
  destruct partition_assigned_once as [Hnew Hkeep].
  split; [|split; [reflexivity|]].
  - apply (Hnew two_tubs (linear_opts (small_cfg 1 2)) empty_store stored_frame_12
             "data/tub_1/record_12.json" "data/tub_112" tub_1_frame_12).
    + vm_compute. reflexivity.
    + reflexivity.
    + vm_compute. reflexivity.
  - apply (Hkeep demo_ops stored_frame_12 demo_stores "data/tub_112" tub_1_frame_12).
    + vm_compute. reflexivity.
    + vm_compute. reflexivity.
    + intros st_i Hin. unfold demo_stores in Hin.
      repeat (apply elem_of_cons in Hin as [->|Hin]; [vm_compute; eauto|]).
      by apply elem_of_nil in Hin.
Defined.

(** ** The targets of a batch *)

Lemma add_record_lists (w : World) (kl : KerasPilot) (record : sample)
    (img_arr : tensor) (l l' : Lists) :
  add_record w kl record img_arr l = Ok l' →
  angles l' = angles l ++ [Sample.angle record]
  ∧ throttles l' = throttles l ++ [Sample.throttle record]
  ∧ inputs_img l' = inputs_img l ++ [img_arr]
  ∧ out_img l' = (if img_out kl then out_img l ++ [resize_gray w img_arr]
                  else out_img l).
Proof.
  unfold add_record. intros H.
  destruct (if has_imu kl then _ else _) as [imu|]; simpl in H; [|discriminate].
  destruct (if has_bvh kl then _ else _) as [bvh|]; simpl in H; [|discriminate].
  by injection H as <-.
Qed.

(** The lists a batch is built from hold the controls of its records, in
    the order of the records. *)
Lemma fill_lists_lists (w : World) (c : Config) (kl : KerasPilot) (aug : bool)
    (batch_data : list (string * sample)) (data data' : gmap string sample)
    (l l' : Lists) :
  fill_lists w c kl aug batch_data data l = Ok (data', Some l') →
  angles l' = angles l ++ (Sample.angle <$> batch_data.*2)
  ∧ throttles l' = throttles l ++ (Sample.throttle <$> batch_data.*2)
  ∧ length (inputs_img l') = length (inputs_img l) + length batch_data
  ∧ length (out_img l')
    = length (out_img l) + (if img_out kl then length batch_data else 0).
Proof.
  revert data l. induction batch_data as [|[key record] rest IH];
    intros data l H; simpl in H.
  - injection H as _ <-. simpl. rewrite !app_nil_r.
    repeat split; try done; destruct (img_out kl); lia.
  - assert (Hstep : ∀ img d, (l1 ← add_record w kl record img l;
                              fill_lists w c kl aug rest d l1) = Ok (data', Some l') →
              angles l' = angles l ++ (Sample.angle <$> ((key, record) :: rest).*2)
              ∧ throttles l' = throttles l ++ (Sample.throttle <$> ((key, record) :: rest).*2)
              ∧ length (inputs_img l') = length (inputs_img l) + length ((key, record) :: rest)
              ∧ length (out_img l')
                = length (out_img l)
                  + (if img_out kl then length ((key, record) :: rest) else 0)).
    { intros img d Hd.
      destruct (add_record w kl record img l) as [l1|] eqn:Ha; simpl in Hd;
        [|discriminate].
      apply add_record_lists in Ha as (Ea & Et & Ei & Eo).
      apply IH in Hd as (Ea' & Et' & Ei' & Eo').
      rewrite Ea', Et', Ei', Eo', Ea, Et, Ei, Eo. simpl.
      rewrite <- !app_assoc. simpl. repeat split; try done.
      - rewrite length_app. simpl. lia.
      - destruct (img_out kl); [rewrite length_app; simpl|]; lia. }
    destruct (Sample.img_data record) as [img|]; [by eapply Hstep|].
    destruct (load_scaled_image_arr w (Sample.image_path record)) as [img|];
      [|discriminate].
    by eapply Hstep.
Qed.





(** ** Look-ahead targets *)

Lemma controls_length (seq : window) : length (controls seq) = 2 * length seq.
Proof.
  unfold controls. induction seq as [|e rest IH]; [done|].
  rewrite fmap_cons, concat_cons, length_app, IH. simpl. lia.
Qed.

(** When every image loads, the loop over a window runs to its end: the
    records before position [iTargetOutput] each put two zeros in
    [vec_in], the records from that position on put their controls in
    [vec_out], and images are taken until there are [num_images_target]. *)
Lemma seq_records_lists (w : World) (c : Config) (aug : bool)
    (num_images_target : nat) (iTargetOutput : Z) (seq : window) :
  (∀ e, e ∈ seq → is_Some (load_scaled_image_arr w (SeqSample.image_path e.2))) →
  ∀ (iRec : nat) (data : gmap string seq_sample) (l : SeqLists),
    let before := Z.to_nat (iTargetOutput - Z.of_nat iRec) in
    let l' := (seq_records w c aug num_images_target iTargetOutput iRec seq data l).2 in
    vec_out l' = vec_out l ++ controls (drop before seq)
    ∧ vec_in l' = vec_in l ++ replicate (2 * (before `min` length seq)) 0%Q
    ∧ length (seq_inputs_img l')
      = (length (seq_inputs_img l) + length seq)
          `min` (length (seq_inputs_img l) `max` num_images_target).
Proof.
  induction seq as [|e rest IH]; intros Hload iRec data l; simpl.
  - rewrite drop_nil, !app_nil_r, Nat.min_0_r. simpl. rewrite app_nil_r.
    repeat split; lia.
  - assert (Hrest : ∀ e', e' ∈ rest →
              is_Some (load_scaled_image_arr w (SeqSample.image_path e'.2)))
      by (intros e' He'; apply Hload; by right).
    assert (Hctl : ∀ d l1,
              length (seq_inputs_img l1)
              = (length (seq_inputs_img l) + 1)
                  `min` (length (seq_inputs_img l) `max` num_images_target) →
              vec_in l1 = vec_in l → vec_out l1 = vec_out l →
              let before := Z.to_nat (iTargetOutput - Z.of_nat iRec) in
              let l' := (seq_records w c aug num_images_target iTargetOutput (S iRec)
                           rest d (add_controls iTargetOutput iRec e.2 l1)).2 in
              vec_out l' = vec_out l ++ controls (drop before (e :: rest))
              ∧ vec_in l' = vec_in l
                            ++ replicate (2 * (before `min` S (length rest))) 0%Q
              ∧ length (seq_inputs_img l')
                = (length (seq_inputs_img l) + S (length rest))
                    `min` (length (seq_inputs_img l) `max` num_images_target)).
    { intros d l1 Himg Hin Hout.
      destruct (IH Hrest (S iRec) d (add_controls iTargetOutput iRec e.2 l1))
        as (Eo & Ei & El).
      cbv zeta. rewrite Eo, Ei, El. unfold add_controls.
      destruct (decide (iTargetOutput ≤ Z.of_nat iRec)%Z) as [Hge|Hlt]; simpl.
      - replace (Z.to_nat (iTargetOutput - Z.of_nat iRec)) with 0 by lia.
        replace (Z.to_nat (iTargetOutput - Z.of_nat (S iRec))) with 0 by lia.
        simpl. rewrite Hin, Hout, Himg, <- app_assoc. simpl.
        repeat split; try done. lia.
      - replace (Z.to_nat (iTargetOutput - Z.of_nat iRec))
          with (S (Z.to_nat (iTargetOutput - Z.of_nat (S iRec)))) by lia.
        simpl. rewrite Hin, Hout, Himg, <- app_assoc. simpl.
        replace (Z.to_nat (iTargetOutput - Z.of_nat (S iRec))
                   `min` length rest
                 + S (Z.to_nat (iTargetOutput - Z.of_nat (S iRec))
                        `min` length rest + 0))
          with (S (2 * (Z.to_nat (iTargetOutput - Z.of_nat (S iRec))
                          `min` length rest))) by lia.
        simpl. repeat split; try done. lia. }
    destruct (decide (length (seq_inputs_img l) < num_images_target)) as [Hfew|Hfull].
    + destruct (SeqSample.img_data (current data e)) as [img|].
      * apply Hctl; simpl; try done. rewrite length_app. simpl. lia.
      * destruct (Hload e) as [img Himg]; [by left|]. rewrite Himg.
        apply Hctl; simpl; try done. rewrite length_app. simpl. lia.
    + apply Hctl; simpl; try done. lia.
Qed.

Lemma add_controls_images (iTargetOutput : Z) (iRec : nat) (record : seq_sample)
    (l : SeqLists) :
  seq_inputs_img (add_controls iTargetOutput iRec record l) = seq_inputs_img l.
Proof. unfold add_controls. by destruct (decide _). Qed.

(** The images the loop collects are those of the first records of the
    window, as many as are still asked for, each as [image_taken] gives
    it from the store the loop started on: keeping an image in memory
    does not change what is taken for the records that follow. *)
Lemma seq_records_images (w : World) (c : Config) (aug : bool)
    (num_images_target : nat) (iTargetOutput : Z) (seq : window) :
  (∀ e, e ∈ seq → is_Some (load_scaled_image_arr w (SeqSample.image_path e.2))) →
  NoDup seq.*1 →
  ∀ (iRec : nat) (data : gmap string seq_sample) (l : SeqLists),
    Some <$> seq_inputs_img
               (seq_records w c aug num_images_target iTargetOutput iRec seq data l).2
    = (Some <$> seq_inputs_img l)
      ++ (image_taken w aug data
            <$> take (num_images_target - length (seq_inputs_img l)) seq).
Proof.
  induction seq as [|e rest IH]; intros Hload Hnd iRec data l.
  - simpl. by rewrite take_nil, app_nil_r.
  - assert (Hrest : ∀ e', e' ∈ rest →
              is_Some (load_scaled_image_arr w (SeqSample.image_path e'.2)))
      by (intros e' He'; apply Hload; by right).
    rewrite fmap_cons in Hnd. apply NoDup_cons in Hnd as [Hfresh Hnd].
    cbn [seq_records].
    destruct (decide (length (seq_inputs_img l) < num_images_target)) as [Hfew|Hfull].
    + assert (Hstep : ∀ img d,
                image_taken w aug data e = Some img →
                (∀ e', e' ∈ rest → image_taken w aug d e' = image_taken w aug data e') →
                Some <$> seq_inputs_img
                           (seq_records w c aug num_images_target iTargetOutput (S iRec)
                              rest d
                              (add_controls iTargetOutput iRec e.2 (add_image img l))).2
                = (Some <$> seq_inputs_img l)
                  ++ (image_taken w aug data
                        <$> take (num_images_target - length (seq_inputs_img l))
                              (e :: rest))).
      { intros img d Himg Hsame.
        rewrite (IH Hrest Hnd), add_controls_images. simpl.
        rewrite fmap_app, <- app_assoc. simpl. f_equal.
        rewrite length_app. simpl.
        replace (num_images_target - length (seq_inputs_img l))
          with (S (num_images_target - (length (seq_inputs_img l) + 1))) by lia.
        simpl. rewrite Himg. f_equal.
        apply list_fmap_ext. intros i e' He'. apply Hsame.
        apply list_elem_of_lookup_2 in He'.
        eapply (subseteq_take _ _ _), He'. }
      destruct (SeqSample.img_data (current data e)) as [img|] eqn:Hmem.
      * apply Hstep; [|done]. unfold image_taken. by rewrite Hmem.
      * destruct (Hload e) as [img Himg]; [by left|]. rewrite Himg.
        apply Hstep.
        -- unfold image_taken. by rewrite Hmem, Himg.
        -- intros e' He'. destruct (CACHE_IMAGES c); [|done].
           unfold image_taken, current. rewrite lookup_alter_ne; [done|].
           intros Heq. apply Hfresh. rewrite Heq.
           by apply list_elem_of_fmap_2.
    + rewrite (IH Hrest Hnd), add_controls_images.
      replace (num_images_target - length (seq_inputs_img l)) with 0 by lia.
      by rewrite !take_0.
Qed.


(** C5, as stated, fails: for sequence length 2 and the window of the
    frames 0, 1, 2, 3, the target holds the controls of the frames 1, 2
    and 3 (three pairs), not those of the second half (frames 2 and 3),
    and the filler input holds one pair of zeros, not two. *)
Lemma look_ahead_counterexample :
  ∃ ex, snd <$> seq_example (frames_world [0; 1; 2; 3]%Z) (small_cfg 1 2) false true
                  four_frames (frames_store [0; 1; 2; 3]%Z)
        = Ok ex
      ∧ length four_frames = 2 * 2
      ∧ ex_labels ex
        = [np_array (TScalar <$> [(1 # 10); (1 # 20); (2 # 10); (2 # 20);
                                  (3 # 10); (3 # 20)]%Q)]
      ∧ ex_labels ex ≠ [np_array (TScalar <$> controls (drop 2 four_frames))]
      ∧ ex_vec_in ex = [0%Q; 0%Q]
      ∧ ex_vec_in ex ≠ replicate (2 * 2) 0%Q.
Proof.
  eexists. split; [vm_compute; reflexivity|].
  split; [reflexivity|]. split; [reflexivity|].
  split; [vm_compute; discriminate|]. split; [reflexivity|discriminate].
Qed.

(** C5, amended: in look-ahead mode, for a window of length 2L whose
    images load, the target is the vector of the control pairs of the
    records L-1, ..., 2L-1 of the window laid end to end, that is L+1
    pairs: the second half and the last record of the first half.  The
    filler input is L-1 pairs of zeros, one pair for each record before
    position L-1, and the images are those of the first L records, in
    their order: for each of them the image it holds in memory or else
    the one read from its file.  A window is made of distinct records,
    as [collate_sequences] builds it ([windows_distinct]). *)
Theorem look_ahead_targets (w : World) (c : Config) (aug : bool) (seq : window)
    (data : gmap string seq_sample) :
  (1 ≤ SEQUENCE_LENGTH c)%nat →
  length seq = 2 * SEQUENCE_LENGTH c →
  NoDup seq.*1 →
  (∀ e, e ∈ seq → is_Some (load_scaled_image_arr w (SeqSample.image_path e.2))) →
  ∃ data' ex,
    seq_example w c aug true seq data = Ok (data', ex)
    ∧ ex_labels ex
      = [np_array (TScalar <$> controls (drop (SEQUENCE_LENGTH c - 1) seq))]
    ∧ length (controls (drop (SEQUENCE_LENGTH c - 1) seq))
      = 2 * (SEQUENCE_LENGTH c + 1)
    ∧ ex_vec_in ex = replicate (2 * (SEQUENCE_LENGTH c - 1)) 0%Q
    ∧ Some <$> ex_inputs_img ex
      = image_taken w aug data <$> take (SEQUENCE_LENGTH c) seq
    ∧ length (ex_inputs_img ex) = SEQUENCE_LENGTH c.
Proof.
  intros HL Hlen Hnd Hload. unfold seq_example.
  pose proof (seq_records_lists w c aug (SEQUENCE_LENGTH c)
                (Z.of_nat (SEQUENCE_LENGTH c) - 1) seq Hload 0 data
                (mkSeqLists [] [] [])) as Hl.
  pose proof (seq_records_images w c aug (SEQUENCE_LENGTH c)
                (Z.of_nat (SEQUENCE_LENGTH c) - 1) seq Hload Hnd 0 data
                (mkSeqLists [] [] [])) as Himgs.
  destruct (seq_records w c aug (SEQUENCE_LENGTH c)
              (Z.of_nat (SEQUENCE_LENGTH c) - 1) 0 seq data (mkSeqLists [] [] []))
    as [d l]. simpl in Hl.
  replace (Z.to_nat (Z.of_nat (SEQUENCE_LENGTH c) - 1 - Z.of_nat 0))
    with (SEQUENCE_LENGTH c - 1) in Hl by lia.
  destruct Hl as (Eo & Ei & El).
  unfold py_index. cbv zeta.
  destruct (decide (Z.of_nat (SEQUENCE_LENGTH c) - 1 < 0)%Z) as [|_]; [lia|].
  destruct (decide (Z.of_nat (SEQUENCE_LENGTH c) - 1 < 0)%Z) as [|_]; [lia|].
  destruct (lookup_lt_is_Some_2 seq (Z.to_nat (Z.of_nat (SEQUENCE_LENGTH c) - 1)))
    as [target Ht]; [lia|].
  rewrite Ht. simpl. exists d. eexists. split; [reflexivity|]. simpl.
  rewrite Eo, Ei, El, controls_length, length_drop.
  simpl in Himgs. rewrite Nat.sub_0_r in Himgs.
  repeat split; try lia; try done.
  f_equal. lia.
Qed.

Lemma look_ahead_targets_witness :
  ∃ data' ex,
    seq_example (frames_world [0; 1; 2; 3]%Z) (small_cfg 1 2) false true
      four_frames (frames_store [0; 1; 2; 3]%Z) = Ok (data', ex)
    ∧ ex_labels ex = [np_array (TScalar <$> controls (drop (2 - 1) four_frames))]
    ∧ length (controls (drop (2 - 1) four_frames)) = 2 * (2 + 1)
    ∧ ex_vec_in ex = replicate (2 * (2 - 1)) 0%Q
    ∧ Some <$> ex_inputs_img ex = [Some (pixel 0); Some (pixel 1)]
    ∧ length (ex_inputs_img ex) = 2.
Proof.
  destruct (look_ahead_targets (frames_world [0; 1; 2; 3]%Z) (small_cfg 1 2) false
              four_frames (frames_store [0; 1; 2; 3]%Z))
    as (data' & ex & Hex & Hlabels & Hpairs & Hfill & Himgs & Hlen).
  - simpl. lia.
  - reflexivity.
  - apply (bool_decide_unpack _). vm_compute. exact I.
  - intros e He. unfold four_frames in He.
    repeat (apply elem_of_cons in He as [->|He]; [vm_compute; eauto|]).
    by apply elem_of_nil in He.
  - exists data', ex. split_and!; [done|done|done|done|exact Himgs|done].
Defined.

(** ** Windows *)

Lemma seq_collate_record_well_keyed (w : World) (data data' : gmap string seq_sample)
    (record_path : string) :
  seq_collate_record w data record_path = Ok data' →
  well_keyed data → well_keyed data'.
Proof.
  unfold seq_collate_record. intros H Hwk.
  destruct (load_json w record_path) as [json_data|]; simpl in H; [|discriminate].
  destruct (json_get json_data "cam/image_array") as [v|]; simpl in H; [|discriminate].
  destruct (os_path_join (dirname record_path) v); simpl in H; [|discriminate].
  destruct (image_index w v) as [index|]; simpl in H; [|discriminate].
  destruct (json_get json_data "user/angle" ≫= py_float w); simpl in H; [|discriminate].
  destruct (json_get json_data "user/throttle" ≫= py_float w); simpl in H; [|discriminate].
  injection H as <-. by apply map_Forall_insert_2.
Qed.

Lemma seq_collate_records_well_keyed (w : World) (records : list string)
    (data data' : gmap string seq_sample) :
  seq_collate_records w records data = Ok data' →
  well_keyed data → well_keyed data'.
Proof.
  revert data. induction records as [|r rest IH]; intros data H Hwk; simpl in H.
  - by injection H as <-.
  - destruct (seq_collate_record w data r) as [d|] eqn:H1; simpl in H; [|discriminate].
    eapply IH; [done|]. by eapply seq_collate_record_well_keyed.
Qed.

Lemma seq_collate_records_one_tub (w : World) (tub_path : string)
    (records : list string) (data data' : gmap string seq_sample) :
  seq_collate_records w records data = Ok data' →
  Forall (λ r, dirname r = tub_path) records →
  one_tub tub_path data → one_tub tub_path data'.
Proof.
  revert data. induction records as [|r rest IH]; intros data H Hdir Hone; simpl in H.
  - by injection H as <-.
  - apply Forall_cons in Hdir as [Hr Hrest].
    destruct (seq_collate_record w data r) as [d|] eqn:H1; simpl in H; [|discriminate].
    eapply IH; [done|done|]. clear H IH.
    unfold seq_collate_record in H1.
    destruct (load_json w r) as [json_data|]; simpl in H1; [|discriminate].
    destruct (json_get json_data "cam/image_array") as [v|]; simpl in H1; [|discriminate].
    destruct (os_path_join (dirname r) v); simpl in H1; [|discriminate].
    destruct (image_index w v) as [index|]; simpl in H1; [|discriminate].
    destruct (json_get json_data "user/angle" ≫= py_float w); simpl in H1; [|discriminate].
    destruct (json_get json_data "user/throttle" ≫= py_float w); simpl in H1; [|discriminate].
    injection H1 as <-. by apply map_Forall_insert_2.
Qed.

Lemma omap_cons {A B : Type} (f : A → option B) (x : A) (l : list A) :
  omap f (x :: l) = match f x with
                    | Some y => y :: omap f l
                    | None => omap f l
                    end.
Proof. reflexivity. Qed.

Lemma omap_keys_distinct {A : Type} (key : nat → string) (data : gmap string A)
    (l : list nat) :
  (∀ i j, key i = key j → i = j) →
  NoDup l →
  NoDup (omap (λ i, (λ r, (key i, r)) <$> data !! key i) l).*1.
Proof.
  intros Hinj.
  assert (Hin : ∀ (l : list nat) k,
            k ∈ (omap (λ i, (λ r, (key i, r)) <$> data !! key i) l).*1 →
            ∃ i, i ∈ l ∧ k = key i).
  { clear l. induction l as [|i l IH]; intros k Hk.
    - simpl in Hk. by apply elem_of_nil in Hk.
    - rewrite omap_cons in Hk. destruct (data !! key i) as [r|]; simpl in Hk.
      + apply elem_of_cons in Hk as [->|Hk]; [exists i; split; [by left|done]|].
        destruct (IH k Hk) as (j & Hj & ->). exists j. split; [by right|done].
      + destruct (IH k Hk) as (j & Hj & ->). exists j. split; [by right|done]. }
  induction 1 as [|i l Hi Hl IH]; [constructor|].
  rewrite omap_cons. destruct (data !! key i) as [r|]; simpl; [|exact IH].
  constructor; [|exact IH].
  intros Hk. apply Hin in Hk as (j & Hj & Heq). apply Hinj in Heq. by subst.
Qed.

(** The windows [collate_sequences] builds are made of distinct records:
    the keys of a window are those of distinct offsets. *)
Lemma window_from_distinct (data : gmap string seq_sample) (target_len : nat)
    (sample : seq_sample) :
  NoDup (window_from data target_len sample).*1.
Proof.
  unfold window_from.
  apply (omap_keys_distinct
           (λ i : nat, make_next_key (SeqSample.tub_path sample)
                         (SeqSample.index sample) (Z.of_nat i))).
  - intros i j H. rewrite !make_next_key_make_key in H.
    apply make_key_inj_index in H. lia.
  - apply NoDup_seq.
Qed.

Lemma windows_distinct (data : gmap string seq_sample) (target_len : nat)
    (seq : window) :
  seq ∈ collate_sequences data target_len → NoDup seq.*1.
Proof.
  unfold collate_sequences. intros H.
  apply list_elem_of_filter in H as [_ H].
  apply list_elem_of_fmap in H as (sample & -> & _).
  apply window_from_distinct.
Qed.

Lemma length_omap_le {A B : Type} (f : A → option B) (l : list A) :
  length (omap f l) ≤ length l.
Proof.
  induction l as [|x l IH]; [done|].
  rewrite omap_cons. destruct (f x); simpl; lia.
Qed.

(** A list from which [omap] drops nothing. *)
Lemma omap_full {A B : Type} (f : A → option B) (l : list A) :
  length (omap f l) = length l ↔ Forall (λ x, is_Some (f x)) l.
Proof.
  induction l as [|x l IH].
  - split; [constructor|done].
  - pose proof (length_omap_le f l) as Hle. rewrite omap_cons.
    destruct (f x) as [y|] eqn:Hx; simpl.
    + split.
      * intros H. constructor; [by rewrite Hx|]. apply IH. lia.
      * intros H. apply Forall_cons in H as [_ H]. apply IH in H. lia.
    + split; [lia|]. intros H. apply Forall_cons in H as [[? Hn] _]. congruence.
Qed.

Lemma omap_full_fmap {A B : Type} (f : A → option B) (g : A → B) (l : list A) :
  Forall (λ x, f x = Some (g x)) l → omap f l = g <$> l.
Proof.
  induction 1 as [|x l Hx _ IH]; [done|].
  by rewrite omap_cons, Hx, IH, fmap_cons.
Qed.

(** In a one-directory store, a key is taken exactly when its index is
    among the indices of the store. *)
Lemma lookup_index (tub_path : string) (data : gmap string seq_sample) (i : Z) :
  well_keyed data → one_tub tub_path data →
  is_Some (data !! make_key tub_path i) ↔ i ∈ indices data.
Proof.
  intros Hwk Hone. unfold indices. split.
  - intros [s Hs]. pose proof (Hwk _ _ Hs) as Hk. pose proof (Hone _ _ Hs) as Ht.
    simpl in Hk, Ht. rewrite Ht in Hk.
    apply make_key_inj_index in Hk. subst i.
    apply list_elem_of_fmap. exists s. split; [done|].
    apply list_elem_of_fmap. exists (make_key tub_path (SeqSample.index s), s).
    split; [done|]. by apply elem_of_map_to_list.
  - intros Hi. apply list_elem_of_fmap in Hi as (s & -> & Hs).
    apply list_elem_of_fmap in Hs as ([k s'] & -> & Hks). simpl.
    apply elem_of_map_to_list in Hks.
    pose proof (Hwk _ _ Hks) as Hk. pose proof (Hone _ _ Hks) as Ht.
    simpl in Hk, Ht. rewrite Ht in Hk. exists s'. congruence.
Qed.

Lemma lookup_index_of (tub_path : string) (data : gmap string seq_sample)
    (i : Z) (s : seq_sample) :
  well_keyed data → one_tub tub_path data →
  data !! make_key tub_path i = Some s → SeqSample.index s = i.
Proof.
  intros Hwk Hone Hs. pose proof (Hwk _ _ Hs) as Hk. pose proof (Hone _ _ Hs) as Ht.
  simpl in Hk, Ht. rewrite Ht in Hk. by apply make_key_inj_index in Hk.
Qed.

(** The records a full window holds: each is stored under its key, and
    their indices run on from the index of the first. *)
Lemma full_window (tub_path : string) (data : gmap string seq_sample)
    (s : seq_sample) (offsets : list nat) :
  well_keyed data → one_tub tub_path data →
  SeqSample.tub_path s = tub_path →
  let f := λ i : nat,
             let key := make_next_key (SeqSample.tub_path s) (SeqSample.index s)
                          (Z.of_nat i) in
             (λ r, (key, r)) <$> data !! key in
  length (omap f offsets) = length offsets →
  (λ e : string * seq_sample, SeqSample.index e.2) <$> omap f offsets
  = (λ j : nat, (SeqSample.index s + Z.of_nat j)%Z) <$> offsets
  ∧ Forall (λ e : string * seq_sample, data !! e.1 = Some e.2) (omap f offsets).
Proof.
  intros Hwk Hone Htp f. induction offsets as [|j rest IH]; intros Hlen.
  - split; [done|constructor].
  - pose proof (length_omap_le f rest) as Hle. rewrite omap_cons in *.
    destruct (f j) as [e|] eqn:Hj; simpl in Hlen; [|lia].
    destruct IH as [Ei Ein]; [lia|].
    unfold f in Hj. simpl in Hj.
    destruct (data !! make_next_key (SeqSample.tub_path s) (SeqSample.index s)
                        (Z.of_nat j)) as [r|] eqn:Hr; simpl in Hj; [|discriminate].
    injection Hj as <-. rewrite !fmap_cons, Ei. simpl. split.
    + f_equal. rewrite Htp, make_next_key_make_key in Hr.
      by eapply lookup_index_of.
    + by constructor.
Qed.

(** A window starting at a stored record is full exactly when the index
    of that record is a valid start. *)
Lemma window_full_iff (tub_path : string) (data : gmap string seq_sample)
    (L : nat) (s : seq_sample) :
  well_keyed data → one_tub tub_path data →
  SeqSample.tub_path s = tub_path →
  length (window_from data L s) = L
  ↔ valid_start (indices data) L (SeqSample.index s).
Proof.
  intros Hwk Hone Htp. unfold window_from, valid_start.
  match goal with
  | |- length (omap ?f _) = _ ↔ _ =>
      pose proof (omap_full f (seq 0 L)) as Hfull
  end.
  rewrite length_seq in Hfull. rewrite Hfull.
  apply Forall_iff. intros j. simpl.
  rewrite fmap_is_Some, Htp, make_next_key_make_key.
  by apply lookup_index.
Qed.

Lemma length_filter_fmap_ext {A B C : Type} (P : B → Prop) (Q : C → Prop)
    `{∀ x, Decision (P x)} `{∀ x, Decision (Q x)} (f : A → B) (g : A → C)
    (l : list A) :
  Forall (λ x, P (f x) ↔ Q (g x)) l →
  length (filter P (f <$> l)) = length (filter Q (g <$> l)).
Proof.
  induction 1 as [|x l Hx _ IH]; [done|].
  rewrite !fmap_cons, !filter_cons.
  destruct (decide (P (f x))), (decide (Q (g x))); simpl; tauto || lia.
Qed.

Lemma stored_sample (data : gmap string seq_sample) (s : seq_sample) :
  s ∈ (map_to_list data).*2 → ∃ k, data !! k = Some s.
Proof.
  intros Hs. apply list_elem_of_fmap in Hs as ([k s'] & -> & Hks).
  exists k. by apply elem_of_map_to_list.
Qed.

(** The full windows are as many as the valid starts. *)
Lemma count_windows (tub_path : string) (data : gmap string seq_sample) (L : nat) :
  well_keyed data → one_tub tub_path data →
  length (collate_sequences data L) = length (valid_starts (indices data) L).
Proof.
  intros Hwk Hone. unfold collate_sequences, valid_starts, indices.
  apply length_filter_fmap_ext. apply Forall_forall. intros s Hs.
  destruct (stored_sample data s) as [k Hk]; [done|].
  eapply window_full_iff; [done..|]. exact (Hone _ _ Hk).
Qed.

(** The valid starts among [n] contiguous indices. *)
Lemma valid_starts_contiguous (present : list Z) (a : Z) (n L : nat) :
  present ≡ₚ seqZ a (Z.of_nat n) → 1 ≤ L ≤ n →
  length (valid_starts present L) = n + 1 - L.
Proof.
  intros Hp HL. unfold valid_starts.
  rewrite (Permutation_length
             (filter_Permutation (valid_start present L) _ _ Hp)).
  assert (Hvalid : ∀ i, valid_start present L i
                        ↔ (a ≤ i ∧ i + Z.of_nat L ≤ a + Z.of_nat n)%Z).
  { intros i. unfold valid_start. rewrite Forall_forall. split.
    - intros H.
      pose proof (H 0) as H0. pose proof (H (L - 1)) as H1.
      rewrite Hp, elem_of_seqZ, elem_of_seq in H0, H1. lia.
    - intros Hi j Hj. rewrite elem_of_seq in Hj.
      rewrite Hp, elem_of_seqZ. lia. }
  replace (Z.of_nat n) with (Z.of_nat (n + 1 - L) + Z.of_nat (L - 1))%Z by lia.
  rewrite seqZ_app, filter_app, length_app by lia.
  assert (Hall : ∀ l, Forall (valid_start present L) l →
                      filter (valid_start present L) l = l).
  { induction 1 as [|x l Hx _ IH]; [done|]. by rewrite filter_cons_True, IH. }
  assert (Hnone : ∀ l, Forall (λ i, ¬ valid_start present L i) l →
                       filter (valid_start present L) l = []).
  { induction 1 as [|x l Hx _ IH]; [done|]. by rewrite filter_cons_False, IH. }
  rewrite Hall, Hnone, length_seqZ; simpl; [lia| |].
  - apply Forall_forall. intros i Hi. apply elem_of_seqZ in Hi.
    rewrite Hvalid. lia.
  - apply Forall_forall. intros i Hi. apply elem_of_seqZ in Hi.
    rewrite Hvalid. lia.
Qed.

Lemma window_indices (win : window) (i0 : Z) (L : nat) (e : string * seq_sample) :
  (λ e : string * seq_sample, SeqSample.index e.2) <$> win
  = (λ j : nat, (i0 + Z.of_nat j)%Z) <$> seq 0 L →
  e ∈ win → (i0 ≤ SeqSample.index e.2 < i0 + Z.of_nat L)%Z.
Proof.
  intros Hidx He.
  assert (Hin : SeqSample.index e.2
                ∈ (λ e : string * seq_sample, SeqSample.index e.2) <$> win)
    by (apply list_elem_of_fmap; eauto).
  rewrite Hidx in Hin. apply list_elem_of_fmap in Hin as (j & -> & Hj).
  apply elem_of_seq in Hj. lia.
Qed.

(** C9: the windows [sequence_train] builds when all record files are in
    one directory.  Every window produced is made of [L] stored records
    whose indices run on without a break from the index of its first
    record, and there is one window for each valid start.  So ten
    contiguous frames and L = 4 give exactly 7 windows; and when an index
    is missing from the directory (a gap, such as frame 5), every window
    lies on one side of it. *)
Theorem windows_of_one_tub (w : World) (records : list string)
    (tub_path : string) (data : gmap string seq_sample) (L : nat) :
  seq_collate_records w records ∅ = Ok data →
  Forall (λ r, dirname r = tub_path) records →
  (∀ win, win ∈ collate_sequences data L →
     length win = L
     ∧ Forall (λ e : string * seq_sample, data !! e.1 = Some e.2) win
     ∧ ∃ i0, (λ e : string * seq_sample, SeqSample.index e.2) <$> win
             = (λ j : nat, (i0 + Z.of_nat j)%Z) <$> seq 0 L)
  ∧ length (collate_sequences data L) = length (valid_starts (indices data) L)
  ∧ (∀ a, indices data ≡ₚ seqZ a 10 → L = 4 →
          length (collate_sequences data L) = 7)
  ∧ (∀ gap, gap ∉ indices data →
       ∀ win, win ∈ collate_sequences data L →
         Forall (λ e : string * seq_sample, (SeqSample.index e.2 < gap)%Z) win
         ∨ Forall (λ e : string * seq_sample, (gap < SeqSample.index e.2)%Z) win).
Proof.
  intros Hrun Hdir.
  assert (Hwk : well_keyed data).
  { eapply seq_collate_records_well_keyed; [done|]. apply map_Forall_empty. }
  assert (Hone : one_tub tub_path data).
  { eapply seq_collate_records_one_tub; [done|done|]. apply map_Forall_empty. }
  assert (Hwin : ∀ win, win ∈ collate_sequences data L →
            length win = L
            ∧ Forall (λ e : string * seq_sample, data !! e.1 = Some e.2) win
            ∧ ∃ i0, (λ e : string * seq_sample, SeqSample.index e.2) <$> win
                    = (λ j : nat, (i0 + Z.of_nat j)%Z) <$> seq 0 L).
  { intros win Hin. unfold collate_sequences in Hin.
    apply list_elem_of_filter in Hin as [Hlen Hin].
    apply list_elem_of_fmap in Hin as (s & -> & Hs).
    destruct (stored_sample data s Hs) as [k Hk].
    split; [done|]. unfold window_from in *.
    destruct (full_window tub_path data s (seq 0 L) Hwk Hone (Hone _ _ Hk))
      as [Hidx Hstored]; [by rewrite length_seq|].
    split; [done|]. by exists (SeqSample.index s). }
  split; [done|]. split; [by eapply count_windows|]. split.
  - intros a Hp ->. rewrite (count_windows tub_path) by done.
    rewrite (valid_starts_contiguous _ a 10 4); [done|done|lia].
  - intros gap Hgap win Hin.
    destruct (Hwin win Hin) as (Hlen & Hstored & i0 & Hidx).
    destruct (decide (i0 + Z.of_nat L ≤ gap)%Z) as [Hlow|Hnlow].
    { left. apply Forall_forall. intros e He.
      pose proof (window_indices win i0 L e Hidx He). lia. }
    destruct (decide (gap < i0)%Z) as [Hhigh|Hnhigh].
    { right. apply Forall_forall. intros e He.
      pose proof (window_indices win i0 L e Hidx He). lia. }
    exfalso. apply Hgap.
    assert (Hg : gap ∈ (λ e : string * seq_sample, SeqSample.index e.2) <$> win).
    { rewrite Hidx. apply list_elem_of_fmap. exists (Z.to_nat (gap - i0)).
      split; [lia|]. apply elem_of_seq. lia. }
    apply list_elem_of_fmap in Hg as (e & -> & He).
    rewrite Forall_forall in Hstored. specialize (Hstored e He).
    unfold indices. apply list_elem_of_fmap. exists e.2. split; [done|].
    apply list_elem_of_fmap. exists e. split; [done|].
    destruct e as [k s]. by apply elem_of_map_to_list.
Qed.

Lemma windows_of_one_tub_witness :
  length (collate_sequences (frames_store (seqZ 0 10)) 4) = 7
  ∧ ∀ win, win ∈ collate_sequences (frames_store [0; 1; 2; 3; 4; 6; 7; 8; 9; 10]%Z) 4 →
      Forall (λ e : string * seq_sample, (SeqSample.index e.2 < 5)%Z) win
      ∨ Forall (λ e : string * seq_sample, (5 < SeqSample.index e.2)%Z) win.
Proof.
  split.
  - destruct (windows_of_one_tub (frames_world (seqZ 0 10))
                (record_name <$> seqZ 0 10) "tub" (frames_store (seqZ 0 10)) 4)
      as (_ & _ & Hcount & _).
    + vm_compute. reflexivity.
    + apply (bool_decide_unpack _). vm_compute. exact I.
    + apply (Hcount 0%Z); [|reflexivity].
      apply (bool_decide_unpack _). vm_compute. exact I.
  - destruct (windows_of_one_tub (frames_world [0; 1; 2; 3; 4; 6; 7; 8; 9; 10]%Z)
                (record_name <$> [0; 1; 2; 3; 4; 6; 7; 8; 9; 10]%Z) "tub"
                (frames_store [0; 1; 2; 3; 4; 6; 7; 8; 9; 10]%Z) 4)
      as (_ & _ & _ & Hgap).
    + vm_compute. reflexivity.
    + apply (bool_decide_unpack _). vm_compute. exact I.
    + apply (Hgap 5%Z). apply (bool_decide_unpack _). vm_compute. exact I.
Defined.

(** ** Batches per traversal *)


Lemma set_img_data_twice (img1 img2 : tensor) (s : sample) :
  Sample.set_img_data img2 (Sample.set_img_data img1 s) = Sample.set_img_data img2 s.
Proof. by destruct s. Qed.


















(** * Further properties *)

(** ** More on ingestion *)

(** A turn of the loop of [collate_records], with everything the new
    sample holds. *)
Lemma collate_record_new (w : World) (opts : Opts) (st st' : Store)
    (record_path k : string) (s : sample) :
  collate_record w opts st record_path = Ok st' →
  gen_records st !! k = None →
  gen_records st' !! k = Some s →
  ∃ angle throttle,
    json_get (Sample.json_data s) "user/angle" ≫= py_float w = Ok angle
    ∧ json_get (Sample.json_data s) "user/throttle" ≫= py_float w = Ok throttle
    ∧ Sample.angle s = (if categorical opts then linear_bin w angle None None None
                        else TScalar angle)
    ∧ Sample.throttle s
      = (if categorical opts
         then linear_bin w throttle (Some 20) (Some 0%Q)
                (Some (MODEL_CATEGORICAL_MAX_THROTTLE_RANGE (cfg opts)))
         else TScalar throttle)
    ∧ Sample.imu_array s = try_opt (imu_of_json w (Sample.json_data s))
    ∧ k = make_key (Sample.tub_path s) (Sample.index s)
    ∧ Sample.tub_path s = dirname (Sample.record_path s)
    ∧ get_record_index w (Sample.record_path s) = Ok (Sample.index s)
    ∧ Sample.img_data s = None
    ∧ rng st' = S (rng st).
Proof.
  unfold collate_record. intros H Hfree Hk.
  destruct (get_record_index w record_path) as [index|] eqn:Hidx; simpl in H;
    [|discriminate].
  destruct (decide (is_Some (gen_records st !! make_key (dirname record_path) index))).
  { injection H as <-. congruence. }
  destruct (load_json w record_path) as [json_data|]; simpl in H.
  2: { injection H as <-. congruence. }
  destruct (json_get json_data "cam/image_array") as [v|]; simpl in H; [|discriminate].
  destruct (os_path_join (dirname record_path) v) as [ip|]; simpl in H; [|discriminate].
  destruct (json_get json_data "user/angle" ≫= py_float w) as [ang|] eqn:Ha;
    simpl in H; [|discriminate].
  destruct (json_get json_data "user/throttle" ≫= py_float w) as [thr|] eqn:Ht;
    simpl in H; [|discriminate].
  injection H as <-. simpl in *.
  destruct (decide (make_key (dirname record_path) index = k)) as [<-|Hne].
  - rewrite lookup_insert_eq in Hk. injection Hk as <-. simpl.
    exists ang, thr. by repeat split.
  - rewrite lookup_insert_ne in Hk by done. congruence.
Qed.

(** What holds of every sample a turn of the loop inserts holds of every
    sample of the store, if it held of those that were there. *)
Lemma collate_records_all (w : World) (opts : Opts) (P : string → sample → Prop)
    (records : list string) (st st' : Store) :
  (∀ st0 st1 r k s, collate_record w opts st0 r = Ok st1 →
     gen_records st0 !! k = None → gen_records st1 !! k = Some s → P k s) →
  collate_records w opts records st = Ok st' →
  (∀ k s, gen_records st !! k = Some s → P k s) →
  ∀ k s, gen_records st' !! k = Some s → P k s.
Proof.
  intros Hnew. revert st. induction records as [|r rest IH]; intros st H Hold; simpl in H.
  - by injection H as <-.
  - destruct (collate_record w opts st r) as [st1|] eqn:H1; simpl in H; [|discriminate].
    apply (IH st1 H). intros k s Hs.
    destruct (gen_records st !! k) as [s0|] eqn:Hk.
    + pose proof (collate_record_inv _ _ _ _ _ H1) as Hc.
      pose proof (collated_lookup _ _ _ _ _ _ Hc Hk). apply Hold. congruence.
    + by eapply Hnew.
Qed.

(** X1: Ingestion files every sample under the key made from the directory
    and the index of its own record file, with no image in memory. *)
Theorem ingested_samples_keyed (w : World) (opts : Opts) (records : list string)
    (n : nat) (st' : Store) (k : string) (s : sample) :
  collate_records w opts records {| gen_records := ∅; rng := n |} = Ok st' →
  gen_records st' !! k = Some s →
  k = make_key (dirname (Sample.record_path s)) (Sample.index s)
  ∧ Sample.tub_path s = dirname (Sample.record_path s)
  ∧ get_record_index w (Sample.record_path s) = Ok (Sample.index s)
  ∧ Sample.record_path s ∈ records
  ∧ Sample.img_data s = None.
Proof.
  intros H Hk.
  assert (Hin : Sample.record_path s ∈ records).
  { revert Hk. revert k s.
    assert (∀ recs st0 st1, collate_records w opts recs st0 = Ok st1 →
              ∀ k s, gen_records st1 !! k = Some s →
                is_Some (gen_records st0 !! k) ∨ Sample.record_path s ∈ recs) as Hgen.
    { induction recs as [|r rest IH]; intros st0 st1 H0 k s Hs; simpl in H0.
      - injection H0 as <-. left. eauto.
      - destruct (collate_record w opts st0 r) as [stm|] eqn:H1; simpl in H0;
          [|discriminate].
        destruct (IH _ _ H0 k s Hs) as [[sm Hm]|Hin]; [|right; by right].
        destruct (gen_records st0 !! k) eqn:Hk0; [left; eauto|]. right.
        apply collate_record_inv in H1.
        destruct H1 as [|index fn s' _ _ _ _ Hrp]; [congruence|].
        simpl in Hm. destruct (decide (make_key (dirname r) index = k)) as [<-|Hne].
        + rewrite lookup_insert_eq in Hm. injection Hm as ->.
          assert (gen_records st1 !! make_key (dirname r) index = Some sm).
          { eapply collate_records_lookup; [done|]. simpl. by rewrite lookup_insert_eq. }
          assert (s = sm) as -> by congruence. rewrite Hrp. by left.
        + rewrite lookup_insert_ne in Hm by done. congruence. }
    intros k s Hs. destruct (Hgen _ _ _ H k s Hs) as [[? Hm]|]; [|done].
    simpl in Hm. by rewrite lookup_empty in Hm. }
  pose proof (collate_records_all w opts
    (λ k s, k = make_key (dirname (Sample.record_path s)) (Sample.index s)
            ∧ Sample.tub_path s = dirname (Sample.record_path s)
            ∧ get_record_index w (Sample.record_path s) = Ok (Sample.index s)
            ∧ Sample.img_data s = None) records
    {| gen_records := ∅; rng := n |} st') as Hall.
  destruct (Hall) with (k := k) (s := s) as (E1 & E2 & E3 & E4).
  - intros st0 st1 r k0 s0 H0 Hfree Hs0.
    destruct (collate_record_new _ _ _ _ _ _ _ H0 Hfree Hs0)
      as (a & t & _ & _ & _ & _ & _ & Ek & Et & Ei & Eimg & _).
    repeat split; try done. by rewrite <- Et.
  - done.
  - intros k0 s0 Hs0. simpl in Hs0. by rewrite lookup_empty in Hs0.
  - done.
  - by rewrite E2.
Qed.

Lemma ingested_samples_keyed_witness :
  "data/tub_112"
  = make_key (dirname (Sample.record_path tub_1_frame_12)) (Sample.index tub_1_frame_12)
  ∧ Sample.tub_path tub_1_frame_12 = dirname (Sample.record_path tub_1_frame_12)
  ∧ get_record_index two_tubs (Sample.record_path tub_1_frame_12)
    = Ok (Sample.index tub_1_frame_12)
  ∧ Sample.record_path tub_1_frame_12 ∈ ["data/tub_1/record_12.json"]
  ∧ Sample.img_data tub_1_frame_12 = None.
Proof.
  apply (ingested_samples_keyed two_tubs (linear_opts (small_cfg 2 2))
           ["data/tub_1/record_12.json"] 0 stored_frame_12 "data/tub_112").
  - vm_compute. reflexivity.
  - vm_compute. reflexivity.
Defined.

Lemma collate_records_subseteq (w : World) (opts : Opts) (records : list string)
    (st st' : Store) :
  collate_records w opts records st = Ok st' →
  gen_records st ⊆ gen_records st'.
Proof.
  intros H. apply map_subseteq_spec. intros k s Hs.
  by eapply collate_records_lookup.
Qed.

(** X2: The store only grows, by one sample for each random number drawn, and
    at most one per record path. *)
Theorem ingestion_accounting (w : World) (opts : Opts) (records : list string)
    (st st' : Store) :
  collate_records w opts records st = Ok st' →
  gen_records st ⊆ gen_records st'
  ∧ rng st ≤ rng st' ≤ rng st + length records
  ∧ size (gen_records st') = size (gen_records st) + (rng st' - rng st).
Proof.
  revert st. induction records as [|r rest IH]; intros st H; simpl in H.
  - injection H as <-. repeat split; try done; lia.
  - destruct (collate_record w opts st r) as [st1|] eqn:H1; simpl in H; [|discriminate].
    destruct (IH st1 H) as (Hsub & Hrng & Hsize).
    apply collate_record_inv in H1.
    destruct H1 as [|index fn s _ Hfree]; simpl in *.
    + repeat split; try done; lia.
    + rewrite map_size_insert_None in Hsize by done. repeat split; try lia.
      etrans; [|exact Hsub]. by apply insert_subseteq.
Qed.

Lemma ingestion_accounting_witness :
  gen_records empty_store ⊆ gen_records stored_frame_12
  ∧ rng empty_store ≤ rng stored_frame_12 ≤ rng empty_store + 1
  ∧ size (gen_records stored_frame_12)
    = size (gen_records empty_store) + (rng stored_frame_12 - rng empty_store).
Proof.
  apply (ingestion_accounting two_tubs (linear_opts (small_cfg 2 2))
           ["data/tub_1/record_12.json"] empty_store stored_frame_12).
  vm_compute. reflexivity.
Defined.

Lemma collate_records_app (w : World) (opts : Opts) (l1 l2 : list string)
    (st : Store) :
  collate_records w opts (l1 ++ l2) st
  = collate_records w opts l1 st ≫= collate_records w opts l2.
Proof.
  revert st. induction l1 as [|r l1 IH]; intros st; simpl; [done|].
  destruct (collate_record w opts st r); simpl; [apply IH|done].
Qed.

(** X3: A record file that parses but has no ['cam/image_array'] entry, or
    whose steering does not convert to a float, ends the whole ingestion
    with the exception: the records that follow are not read and the
    caller gets no store. *)
Theorem bad_record_aborts_ingestion (w : World) (opts : Opts)
    (before after : list string) (record_path : string) (st st1 : Store)
    (index : Z) (fields : list (string * jval)) :
  collate_records w opts before st = Ok st1 →
  get_record_index w record_path = Ok index →
  gen_records st1 !! make_key (dirname record_path) index = None →
  load_json w record_path = Ok (JObj fields) →
  (assoc "cam/image_array" fields = None →
   collate_records w opts (before ++ record_path :: after) st
   = Raise (KeyError "cam/image_array"))
  ∧ (∀ image_filename,
       assoc "cam/image_array" fields = Some (JStr image_filename) →
       assoc "user/angle" fields = Some JNull →
       collate_records w opts (before ++ record_path :: after) st = Raise TypeError).
Proof.
  intros Hbefore Hidx Hfree Hload.
  assert (Hstep : ∀ e, collate_record w opts st1 record_path = Raise e →
            collate_records w opts (before ++ record_path :: after) st = Raise e).
  { intros e He. rewrite collate_records_app, Hbefore. simpl. by rewrite He. }
  split.
  - intros Hnone. apply Hstep. unfold collate_record. rewrite Hidx. simpl.
    rewrite decide_False by (rewrite Hfree; by intros [? ?]).
    rewrite Hload. simpl. by rewrite Hnone.
  - intros fn Himg Hangle. apply Hstep. unfold collate_record. rewrite Hidx. simpl.
    rewrite decide_False by (rewrite Hfree; by intros [? ?]).
    rewrite Hload. simpl. rewrite Himg. simpl. by rewrite Hangle.
Qed.

Lemma bad_record_aborts_ingestion_witness :
  collate_records no_image_entry (linear_opts (small_cfg 2 2))
    (["tub/record_1.json"] ++ "tub/record_2.json" :: ["tub/record_1.json"]) empty_store
  = Raise (KeyError "cam/image_array").
Proof.
  refine (proj1 (bad_record_aborts_ingestion no_image_entry (linear_opts (small_cfg 2 2))
                   ["tub/record_1.json"] ["tub/record_1.json"] "tub/record_2.json"
                   empty_store first_ingested 2
                   [("user/angle", JNum 0.1); ("user/throttle", JNum 0.3)] _ _ _ _) _).
  - vm_compute. reflexivity.
  - reflexivity.
  - vm_compute. reflexivity.
  - reflexivity.
  - reflexivity.
Defined.

Lemma imu_of_json_shape (w : World) (json_data : jval) (t : tensor) :
  imu_of_json w json_data = Ok t → shape t = [6] ∧ Forall is_scalar
    match t with TArr l => l | TScalar _ => [] end.
Proof.
  unfold imu_of_json. intros H.
  repeat (match type of H with
          | (?r ≫= _) = Ok _ => destruct r; simpl in H; [|discriminate]
          end).
  injection H as <-. split; [done|]. simpl. repeat constructor.
Qed.

(** X4: What ingestion stores besides the paths: for a pilot that is not
    categorical the steering and the throttle are the floats of the
    record, not bin vectors; the inertial vector is there only when all
    six readings are, and then it has six entries. *)
Theorem ingested_sample_values (w : World) (opts : Opts) (records : list string)
    (n : nat) (st' : Store) (k : string) (s : sample) :
  collate_records w opts records {| gen_records := ∅; rng := n |} = Ok st' →
  gen_records st' !! k = Some s →
  (categorical opts = false →
   ∃ angle throttle,
     json_get (Sample.json_data s) "user/angle" ≫= py_float w = Ok angle
     ∧ json_get (Sample.json_data s) "user/throttle" ≫= py_float w = Ok throttle
     ∧ Sample.angle s = TScalar angle ∧ Sample.throttle s = TScalar throttle)
  ∧ match Sample.imu_array s with
    | Some imu => shape imu = [6]
                  ∧ imu_of_json w (Sample.json_data s) = Ok imu
    | None => ∃ e, imu_of_json w (Sample.json_data s) = Raise e
    end.
Proof.
  intros H Hk.
  pose proof (collate_records_all w opts
    (λ _ s, (categorical opts = false →
             ∃ angle throttle,
               json_get (Sample.json_data s) "user/angle" ≫= py_float w = Ok angle
               ∧ json_get (Sample.json_data s) "user/throttle" ≫= py_float w
                 = Ok throttle
               ∧ Sample.angle s = TScalar angle ∧ Sample.throttle s = TScalar throttle)
            ∧ match Sample.imu_array s with
              | Some imu => shape imu = [6]
                            ∧ imu_of_json w (Sample.json_data s) = Ok imu
              | None => ∃ e, imu_of_json w (Sample.json_data s) = Raise e
              end) records {| gen_records := ∅; rng := n |} st') as Hall.
  apply (Hall) with (k := k); try done.
  - intros st0 st1 r k0 s0 H0 Hfree Hs0.
    destruct (collate_record_new _ _ _ _ _ _ _ H0 Hfree Hs0)
      as (a & t & Ha & Ht & Ea & Et & Eimu & _).
    split.
    + intros Hcat. rewrite Hcat in Ea, Et. by exists a, t.
    + rewrite Eimu. destruct (imu_of_json w (Sample.json_data s0)) as [imu|e] eqn:Hi;
        simpl; [|eauto].
      split; [|done]. by apply imu_of_json_shape in Hi as [? _].
Qed.

Lemma ingested_sample_values_witness :
  (categorical (linear_opts (small_cfg 2 2)) = false →
   ∃ angle throttle,
     json_get (Sample.json_data tub_1_frame_12) "user/angle" ≫= py_float two_tubs = Ok angle
     ∧ json_get (Sample.json_data tub_1_frame_12) "user/throttle" ≫= py_float two_tubs
       = Ok throttle
     ∧ Sample.angle tub_1_frame_12 = TScalar angle
     ∧ Sample.throttle tub_1_frame_12 = TScalar throttle)
  ∧ match Sample.imu_array tub_1_frame_12 with
    | Some imu => shape imu = [6]
                  ∧ imu_of_json two_tubs (Sample.json_data tub_1_frame_12) = Ok imu
    | None => ∃ e, imu_of_json two_tubs (Sample.json_data tub_1_frame_12) = Raise e
    end.
Proof.
  apply (ingested_sample_values two_tubs (linear_opts (small_cfg 2 2))
           ["data/tub_1/record_12.json"] 0 stored_frame_12 "data/tub_112").
  - vm_compute. reflexivity.
  - vm_compute. reflexivity.
Defined.

(** ** Saving the best model and sending it to the car *)

Lemma list_ascii_app (s1 s2 : string) :
  String.list_ascii_of_string (s1 +:+ s2)
  = String.list_ascii_of_string s1 ++ String.list_ascii_of_string s2.
Proof. induction s1 as [|a s1 IH]; simpl; [done|]. by rewrite IH. Qed.

Lemma string_of_list_ascii_app (l1 l2 : list ascii) :
  String.string_of_list_ascii (l1 ++ l2)
  = String.string_of_list_ascii l1 +:+ String.string_of_list_ascii l2.
Proof. induction l1 as [|a l1 IH]; simpl; [done|]. by rewrite IH. Qed.

Lemma string_app_assoc (s1 s2 s3 : string) :
  (s1 +:+ s2) +:+ s3 = s1 +:+ (s2 +:+ s3).
Proof.
  induction s1 as [|a s1 IH]; [done|].
  change (String a ((s1 +:+ s2) +:+ s3) = String a (s1 +:+ (s2 +:+ s3))).
  by rewrite IH.
Qed.

Lemma py_last_app (stem ext : string) :
  py_last (String.length ext) (stem +:+ ext) = ext.
Proof.
  unfold py_last. rewrite list_ascii_app, length_app.
  rewrite <- (String.string_of_list_ascii_of_string ext) at 4.
  f_equal.
  assert (Hl : String.length ext = length (String.list_ascii_of_string ext)).
  { clear. induction ext; simpl; congruence. }
  rewrite Hl.
  replace (length (String.list_ascii_of_string stem)
           + length (String.list_ascii_of_string ext)
           - length (String.list_ascii_of_string ext))
    with (length (String.list_ascii_of_string stem)) by lia.
  apply drop_app_length.
Qed.

Lemma py_but_last_app (stem keep ext : string) :
  py_but_last (String.length ext) (stem +:+ keep +:+ ext) = stem +:+ keep.
Proof.
  unfold py_but_last.
  replace (stem +:+ keep +:+ ext) with ((stem +:+ keep) +:+ ext).
  2:{ apply string_app_assoc. }
  rewrite list_ascii_app, length_app.
  rewrite <- (String.string_of_list_ascii_of_string (stem +:+ keep)) at 3.
  f_equal.
  assert (Hl : String.length ext = length (String.list_ascii_of_string ext)).
  { clear. induction ext; simpl; congruence. }
  rewrite Hl.
  replace (length (String.list_ascii_of_string (stem +:+ keep))
           + length (String.list_ascii_of_string ext)
           - length (String.list_ascii_of_string ext))
    with (length (String.list_ascii_of_string (stem +:+ keep))) by lia.
  apply take_app_length.
Qed.

Lemma py_last_stem (n : nat) (s : string) :
  s = py_but_last n s +:+ py_last n s.
Proof.
  unfold py_but_last, py_last.
  rewrite <- string_of_list_ascii_app, take_drop.
  by rewrite String.string_of_list_ascii_of_string.
Qed.

Lemma save_h5 (h : Host) (stem : string) :
  save_json_and_weights h (stem +:+ ".h5")
  = if negb (can_write h (stem +:+ ".json")) then ([], Raise IOError)
    else if negb (can_write h (stem +:+ ".weights"))
         then ([WriteJson (stem +:+ ".json")], Raise IOError)
         else ([WriteJson (stem +:+ ".json"); SaveWeights (stem +:+ ".weights")],
               Ok (stem +:+ ".json", stem +:+ ".weights")).
Proof.
  unfold save_json_and_weights.
  pose proof (py_last_app stem ".h5") as Hl.
  pose proof (py_but_last_app stem "." "h5") as Hb.
  change (String.length ".h5") with 3 in Hl.
  change (String.length "h5") with 2 in Hb.
  change ("." +:+ "h5") with ".h5" in Hb.
  rewrite Hl, Hb.
  rewrite bool_decide_eq_true_2 by done. cbn [negb].
  by rewrite !string_app_assoc.
Qed.

Lemma save_not_h5 (h : Host) (filename : string) :
  (∀ stem, filename ≠ stem +:+ ".h5") →
  save_json_and_weights h filename
  = ([], Raise (Exception "Model filename should end with .h5")).
Proof.
  intros Hn. unfold save_json_and_weights.
  destruct (bool_decide (".h5" = py_last 3 filename)) eqn:Hb; [|done].
  apply bool_decide_eq_true_1 in Hb.
  destruct (Hn (py_but_last 3 filename)). rewrite Hb. apply py_last_stem.
Qed.

(** X5: A model file [stem.h5] is saved a second and third time as
    [stem.json] and [stem.weights], in this order; when sending is
    switched off [on_best_model] does this and nothing else. *)
Theorem model_saved_beside_h5 (h : Host) (pc : PiConfig) (stem : string) :
  can_write h (stem +:+ ".json") = true →
  can_write h (stem +:+ ".weights") = true →
  save_json_and_weights h (stem +:+ ".h5")
  = ([WriteJson (stem +:+ ".json"); SaveWeights (stem +:+ ".weights")],
     Ok (stem +:+ ".json", stem +:+ ".weights"))
  ∧ (SEND_BEST_MODEL_TO_PI pc = false →
     on_best_model h pc (stem +:+ ".h5")
     = ([WriteJson (stem +:+ ".json"); SaveWeights (stem +:+ ".weights")], Ok ())).
Proof.
  intros Hj Hw.
  assert (Hs : save_json_and_weights h (stem +:+ ".h5")
    = ([WriteJson (stem +:+ ".json"); SaveWeights (stem +:+ ".weights")],
       Ok (stem +:+ ".json", stem +:+ ".weights"))).
  { by rewrite save_h5, Hj, Hw. }
  split; [done|]. intros Hsend. unfold on_best_model. by rewrite Hs, Hsend.
Qed.

Lemma model_saved_beside_h5_witness :
  save_json_and_weights windows_host ("models/pilot" +:+ ".h5")
  = ([WriteJson "models/pilot.json"; SaveWeights "models/pilot.weights"],
     Ok ("models/pilot.json", "models/pilot.weights")).
Proof.
  refine (proj1 (model_saved_beside_h5 windows_host pi_config "models/pilot" _ _));
    reflexivity.
Defined.

(** X6: A model file name that does not end in [.h5] makes [on_best_model]
    raise before anything is written or sent, whether sending is switched
    on or not. *)
Theorem bad_model_name_raises (h : Host) (pc : PiConfig) (model_filename : string) :
  (∀ stem, model_filename ≠ stem +:+ ".h5") →
  on_best_model h pc model_filename
  = ([], Raise (Exception "Model filename should end with .h5")).
Proof.
  intros Hn. unfold on_best_model. by rewrite save_not_h5.
Qed.

Lemma ends_in_h5 (s stem : string) :
  s = stem +:+ ".h5" → py_last 3 s = ".h5".
Proof. intros ->. apply (py_last_app stem ".h5"). Qed.

Lemma bad_model_name_raises_witness :
  on_best_model windows_host pi_config "models/pilot.H5"
  = ([], Raise (Exception "Model filename should end with .h5")).
Proof.
  apply bad_model_name_raises.
  intros stem H. apply ends_in_h5 in H. vm_compute in H. discriminate.
Defined.

Lemma sftp_put_all_prefix (h : Host) (files : list (string * string)) :
  ∃ n, n ≤ length files
       ∧ sftp_put_all h files
         = ((λ f, SftpPut f.1 f.2) <$> take n files, bool_decide (n = length files)).
Proof.
  induction files as [|[l r] files (n & Hn & IH)].
  - by exists 0.
  - simpl. destruct (sftp_put h l r).
    + exists (S n). split; [lia|]. rewrite IH. simpl. f_equal.
      apply bool_decide_ext. lia.
    + exists 0. split; [lia|]. done.
Qed.

(** X7: On a Windows machine with paramiko, sending the best model never
    raises: the files put on the car are the first [n] of the weights, the
    json and the h5 file, in this order; success is reported exactly when
    all three were put and the two connections were closed without an
    error, and a failure otherwise. *)
Theorem failed_transfer_is_not_raised (h : Host) (pc : PiConfig) (stem : string) :
  can_write h (stem +:+ ".json") = true →
  can_write h (stem +:+ ".weights") = true →
  SEND_BEST_MODEL_TO_PI pc = true →
  os_name h = "nt" →
  paramiko_installed h = true →
  ∃ n, n ≤ 3
    ∧ on_best_model h pc (stem +:+ ".h5")
      = ([WriteJson (stem +:+ ".json"); SaveWeights (stem +:+ ".weights");
          SayFiles (files_to_send pc stem)]
         ++ ((λ f, SftpPut f.1 f.2) <$> take n (files_to_send pc stem))
         ++ [Say (if bool_decide (n = 3) && ssh_close h then "send succeded"
                  else "send failed")],
         Ok ()).
Proof.
  intros Hj Hw Hsend Hos Hp. unfold on_best_model.
  rewrite save_h5, Hj, Hw, Hsend, Hos, Hp. cbn [negb].
  rewrite bool_decide_eq_true_2 by done. cbn [negb].
  change [(stem +:+ ".weights", remote_path pc (stem +:+ ".weights"));
          (stem +:+ ".json", remote_path pc (stem +:+ ".json"));
          (stem +:+ ".h5", remote_path pc (stem +:+ ".h5"))]
    with (files_to_send pc stem).
  destruct (ssh_connect h _ _ _).
  - destruct (sftp_put_all_prefix h (files_to_send pc stem)) as (n & Hn & ->).
    exists n. split; [exact Hn|]. done.
  - exists 0. split; [lia|]. done.
Qed.

Lemma failed_transfer_is_not_raised_witness :
  ∃ n, n ≤ 3
    ∧ on_best_model unclosed_host pi_config ("models/pilot" +:+ ".h5")
      = ([WriteJson ("models/pilot" +:+ ".json"); SaveWeights ("models/pilot" +:+ ".weights");
          SayFiles (files_to_send pi_config "models/pilot")]
         ++ ((λ f, SftpPut f.1 f.2) <$> take n (files_to_send pi_config "models/pilot"))
         ++ [Say (if bool_decide (n = 3) && ssh_close unclosed_host
                  then "send succeded" else "send failed")],
         Ok ()).
Proof.
  apply (failed_transfer_is_not_raised unclosed_host pi_config "models/pilot");
    reflexivity.
Defined.

(** On that machine the three files are put and a failure is reported;
    on the machine whose link breaks, two are put. *)
Lemma unclosed_transfer_reports_failure :
  on_best_model unclosed_host pi_config "models/pilot.h5"
  = ([WriteJson "models/pilot.json"; SaveWeights "models/pilot.weights";
      SayFiles (files_to_send pi_config "models/pilot")]
     ++ ((λ f, SftpPut f.1 f.2) <$> files_to_send pi_config "models/pilot")
     ++ [Say "send failed"], Ok ())
  ∧ on_best_model windows_host pi_config "models/pilot.h5"
    = ([WriteJson "models/pilot.json"; SaveWeights "models/pilot.weights";
        SayFiles (files_to_send pi_config "models/pilot")]
       ++ ((λ f, SftpPut f.1 f.2) <$> take 2 (files_to_send pi_config "models/pilot"))
       ++ [Say "send failed"], Ok ()).
Proof. split; vm_compute; reflexivity. Qed.

(** ** More on the checkpoint callback *)

(** The end of an epoch with the flag down. *)
Lemma on_epoch_end_unflagged (now : nat) (current : loss) (s : MyCPCallback) :
  reset_best_end_of_epoch s = false →
  let s' := on_epoch_end now (Some current) s in
  reset_best_end_of_epoch s' = false
  ∧ send_model_cb s' = send_model_cb s
  ∧ best s' = (if np_less current (best s) then current else best s)
  ∧ model_file s' = (if np_less current (best s) then Some (now, current)
                     else model_file s).
Proof.
  intros Hs. unfold on_epoch_end, ModelCheckpoint_on_epoch_end, send_if_changed.
  destruct s as [b r snd lm mf st]; simpl in *; subst r.
  destruct (np_less current b); simpl; case_matches; simpl;
    repeat split; try reflexivity; congruence.
Qed.

Lemma np_less_finite (x y : Q) : np_less (Finite x) (Finite y) = true ↔ (x < y)%Q.
Proof.
  simpl. unfold Qlt_bool. rewrite negb_true_iff.
  split.
  - intros H. apply Qnot_le_lt. intros Hle. apply Qle_bool_iff in Hle. congruence.
  - intros H. destruct (Qle_bool y x) eqn:E; [|done].
    apply Qle_bool_iff in E. by apply Qlt_not_le in H.
Qed.

Lemma run_epochs_minimum (seen losses : list Q) (now : nat) (s : MyCPCallback) :
  reset_best_end_of_epoch s = false →
  match best s with
  | Inf => seen = []
  | Finite q => q ∈ seen ∧ Forall (λ q', (q <= q')%Q) seen
                ∧ ∃ t, model_file s = Some (t, Finite q)
  end →
  let s' := run_epochs now (no_resets losses) s in
  match best s' with
  | Inf => seen ++ losses = []
  | Finite q => q ∈ seen ++ losses ∧ Forall (λ q', (q <= q')%Q) (seen ++ losses)
                ∧ ∃ t, model_file s' = Some (t, Finite q)
  end.
Proof.
  revert seen now s. induction losses as [|x rest IH]; intros seen now s Hflag Hinv.
  - simpl. rewrite app_nil_r. exact Hinv.
  - simpl. replace (seen ++ x :: rest) with ((seen ++ [x]) ++ rest)
      by (by rewrite <- app_assoc).
    destruct (on_epoch_end_unflagged now (Finite x) s Hflag) as (Hf & _ & Hb & Hm).
    apply IH; [done|]. rewrite Hb, Hm.
    destruct (best s) as [q|] eqn:Hbest.
    + destruct Hinv as (Hin & Hlow & t & Hfile).
      destruct (np_less (Finite x) (Finite q)) eqn:Hless.
      * apply np_less_finite in Hless. split; [set_solver|]. split; [|eauto].
        apply Forall_app. split.
        -- eapply Forall_impl; [exact Hlow|]. intros q' Hq'. simpl in Hq'.
           apply Qlt_le_weak in Hless. by eapply Qle_trans.
        -- constructor; [apply Qle_refl|constructor].
      * split; [set_solver|]. split; [|eauto].
        apply Forall_app. split; [done|]. constructor; [|constructor].
        destruct (Qlt_le_dec x q) as [Hlt|Hle]; [|done].
        apply np_less_finite in Hlt. congruence.
    + subst seen. simpl. split; [set_solver|]. split; [|eauto].
      constructor; [apply Qle_refl|constructor].
Qed.

(** X8: Without a reset the running best is the least validation loss seen
    so far, and the file holds the model of that loss. *)
Theorem best_is_least_loss (send : bool) (now : nat) (losses : list Q) :
  losses ≠ [] →
  let s := run_epochs now (no_resets losses) (MyCPCallback_init send) in
  ∃ q t, best s = Finite q
         ∧ model_file s = Some (t, Finite q)
         ∧ q ∈ losses
         ∧ Forall (λ q', (q <= q')%Q) losses.
Proof.
  intros Hne s.
  pose proof (run_epochs_minimum [] losses now (MyCPCallback_init send)
                eq_refl eq_refl) as H.
  simpl in H. fold s in H. destruct (best s) as [q|]; [|done].
  destruct H as (Hin & Hlow & t & Hfile). by exists q, t.
Qed.

Lemma best_is_least_loss_witness :
  let s := run_epochs 0 (no_resets [0.5; 0.3; 0.4; 0.2]%Q) (MyCPCallback_init true) in
  ∃ q t, best s = Finite q
         ∧ model_file s = Some (t, Finite q)
         ∧ q ∈ [0.5; 0.3; 0.4; 0.2]%Q
         ∧ Forall (λ q', (q <= q')%Q) [0.5; 0.3; 0.4; 0.2]%Q.
Proof.
  apply (best_is_least_loss true 0 [0.5; 0.3; 0.4; 0.2]%Q). discriminate.
Defined.

Lemma on_epoch_end_sends (now : nat) (q : Q) (s : MyCPCallback) :
  reset_best_end_of_epoch s = false → send_model_cb s = true →
  file_seen now s →
  let s' := on_epoch_end now (Some (Finite q)) s in
  sent s' = sent s ++ (if np_less (Finite q) (best s) then [Finite q] else [])
  ∧ file_seen (S now) s'.
Proof.
  intros Hflag Hsend Hseen.
  unfold on_epoch_end, ModelCheckpoint_on_epoch_end, send_if_changed, file_seen in *.
  destruct s as [b r snd lm mf st]; cbn -[np_less Nat.ltb] in *; subst r snd.
  destruct (np_less (Finite q) b), mf as [[t l]|]; cbn -[np_less Nat.ltb] in *.
  - destruct Hseen as [-> Hlt]. apply Nat.ltb_lt in Hlt as ->. cbn.
    split; [done|]. split; [done|lia].
  - subst lm. cbn. split; [done|]. split; [done|lia].
  - destruct Hseen as [-> Hlt]. rewrite Nat.ltb_irrefl. cbn.
    rewrite app_nil_r. split; [done|]. split; [done|lia].
  - subst lm. cbn. by rewrite app_nil_r.
Qed.

Lemma run_epochs_cons (q : Q) (rest : list Q) (now : nat) (s : MyCPCallback) :
  run_epochs now (no_resets (q :: rest)) s
  = run_epochs (S now) (no_resets rest) (on_epoch_end now (Some (Finite q)) s).
Proof. reflexivity. Qed.

Lemma run_epochs_sends (losses : list Q) (now : nat) (s : MyCPCallback) :
  reset_best_end_of_epoch s = false → send_model_cb s = true →
  file_seen now s →
  sent (run_epochs now (no_resets losses) s)
  = sent s ++ (Finite <$> improvements (best s) losses).
Proof.
  revert now s. induction losses as [|q rest IH]; intros now s Hflag Hsend Hseen.
  - simpl. by rewrite app_nil_r.
  - rewrite run_epochs_cons.
    destruct (on_epoch_end_unflagged now (Finite q) s Hflag) as (Hf & Hs & Hb & _).
    destruct (on_epoch_end_sends now q s Hflag Hsend Hseen) as (Hsent & Hseen').
    rewrite IH; [|done|congruence|done].
    rewrite Hsent, Hb. cbn [improvements].
    destruct (np_less (Finite q) (best s)).
    + by rewrite <- app_assoc.
    + by rewrite app_nil_r.
Qed.

(** X9: The hook [send_model_cb] is called once for every epoch whose loss
    improves on the best before it, with the model of that epoch, and for
    no other epoch.  (Epoch ends are at increasing times, and nothing else
    writes the file.) *)
Theorem hook_called_on_each_improvement (now : nat) (losses : list Q) :
  sent (run_epochs now (no_resets losses) (MyCPCallback_init true))
  = Finite <$> improvements Inf losses
  ∧ sent (run_epochs now (no_resets losses) (MyCPCallback_init false)) = [].
Proof.
  split.
  - by rewrite run_epochs_sends.
  - assert (Hno : ∀ ls n s, send_model_cb s = false → reset_best_end_of_epoch s = false →
              sent (run_epochs n (no_resets ls) s) = sent s).
    { induction ls as [|q rest IH]; intros n s Hs Hf; [done|].
      rewrite run_epochs_cons.
      destruct (on_epoch_end_unflagged n (Finite q) s Hf) as (Hf' & Hs' & _).
      rewrite IH; [|congruence|done]. revert Hs Hf.
      clear. unfold on_epoch_end, ModelCheckpoint_on_epoch_end, send_if_changed.
      destruct s as [b r snd lm mf st]; cbn -[np_less]. intros -> ->.
      destruct (np_less (Finite q) b); reflexivity. }
    by rewrite Hno.
Qed.

(** ** More on the batch generator *)

Lemma same_record_fields (s s' : sample) :
  same_record s s' →
  Sample.train s' = Sample.train s
  ∧ Sample.image_path s' = Sample.image_path s
  ∧ Sample.angle s' = Sample.angle s
  ∧ Sample.throttle s' = Sample.throttle s.
Proof.
  unfold same_record, Sample.set_img_data. intros H.
  destruct s, s'; simpl in *. injection H as -> -> -> -> -> -> -> -> -> ->.
  by repeat split.
Qed.

Lemma same_record_refl (s : sample) : same_record s s.
Proof. done. Qed.

Lemma same_record_trans (s1 s2 s3 : sample) :
  same_record s1 s2 → same_record s2 s3 → same_record s1 s3.
Proof. unfold same_record. congruence. Qed.

Lemma same_record_cache (img : tensor) (s : sample) :
  same_record s (Sample.set_img_data img s).
Proof. unfold same_record. by rewrite set_img_data_twice. Qed.

Lemma evolves_refl (d : gmap string sample) : evolves d d.
Proof. intros k s Hs. exists s. split; [done|apply same_record_refl]. Qed.

Lemma evolves_trans (d1 d2 d3 : gmap string sample) :
  evolves d1 d2 → evolves d2 d3 → evolves d1 d3.
Proof.
  intros H12 H23 k s3 Hs3.
  destruct (H23 k s3 Hs3) as (s2 & Hs2 & E2).
  destruct (H12 k s2 Hs2) as (s1 & Hs1 & E1).
  exists s1. split; [done|]. by eapply same_record_trans.
Qed.

Lemma evolves_delete (d : gmap string sample) (key : string) :
  evolves d (delete key d).
Proof.
  intros k s Hs. apply lookup_delete_Some in Hs as [_ Hs].
  exists s. split; [done|apply same_record_refl].
Qed.

Lemma evolves_cache (d : gmap string sample) (key : string) (img : tensor) :
  evolves d (alter (Sample.set_img_data img) key d).
Proof.
  intros k s' Hs. destruct (decide (key = k)) as [->|Hne].
  - rewrite lookup_alter_eq in Hs.
    destruct (d !! k) as [s|]; simpl in Hs; [|discriminate].
    injection Hs as <-. exists s. split; [done|apply same_record_cache].
  - rewrite lookup_alter_ne in Hs by done. exists s'.
    split; [done|apply same_record_refl].
Qed.

Lemma fill_lists_evolves (w : World) (c : Config) (kl : KerasPilot)
    (aug : bool) (batch_data : list (string * sample))
    (data data' : gmap string sample) (l : Lists) (filled : option Lists) :
  fill_lists w c kl aug batch_data data l = Ok (data', filled) →
  evolves data data'.
Proof.
  revert data l. induction batch_data as [|[key record] rest IH];
    intros data l H; simpl in H.
  - injection H as <- _. apply evolves_refl.
  - destruct (Sample.img_data record) as [img|].
    + destruct (add_record w kl record img l) as [l'|]; simpl in H; [|discriminate].
      by eapply IH.
    + destruct (load_scaled_image_arr w (Sample.image_path record)) as [img|].
      2: { injection H as <- _. apply evolves_refl. }
      destruct (add_record w kl record _ l) as [l'|]; simpl in H; [|discriminate].
      apply IH in H. destruct (CACHE_IMAGES c); [|done].
      eapply evolves_trans; [|exact H]. apply evolves_cache.
Qed.

Lemma materialize_evolves (w : World) (c : Config) (kl : KerasPilot)
    (aug : bool) (batch_size : nat) (batch_data : list (string * sample))
    (data data' : gmap string sample) (made : option Batch) :
  materialize w c kl aug batch_size batch_data data = Ok (data', made) →
  evolves data data'.
Proof.
  unfold materialize. intros H.
  destruct (fill_lists w c kl aug batch_data data no_lists) as [[d filled]|] eqn:Hf;
    simpl in H; [|discriminate].
  apply fill_lists_evolves in Hf.
  destruct filled as [l|]; [|by injection H as <- _].
  destruct (reshape _ _); simpl in H; [|discriminate].
  destruct (targets kl l); simpl in H; [|discriminate].
  by injection H as <- _.
Qed.

Lemma walk_evolves (w : World) (opts : Opts) (kl : KerasPilot)
    (aug isTrainSet : bool) (batch_size : nat) (keys : list string)
    (data data' : gmap string sample) (batch_data : list (string * sample))
    (yielded yielded' : list Batch) :
  walk w opts kl aug isTrainSet batch_size keys data batch_data yielded
  = Ok (data', yielded') →
  evolves data data'.
Proof.
  revert data batch_data yielded.
  induction keys as [|key rest IH]; intros data batch_data yielded H; cbn [walk] in H.
  - injection H as <- _. apply evolves_refl.
  - destruct (data !! key) as [_record|]; [|by eapply IH].
    destruct (negb (Bool.eqb (Sample.train _record) isTrainSet)); [by eapply IH|].
    destruct (continuous opts && negb (path_exists w (Sample.image_path _record))).
    { apply IH in H. eapply evolves_trans; [|exact H]. apply evolves_delete. }
    cbv zeta in H.
    destruct (decide (length (batch_data ++ [(key, _record)]) = batch_size));
      [|by eapply IH].
    destruct (materialize w (cfg opts) kl aug batch_size _ data)
      as [[d made]|] eqn:Hm; simpl in H; [|discriminate].
    apply materialize_evolves in Hm.
    eapply evolves_trans; [exact Hm|].
    destruct made; by eapply IH.
Qed.

Lemma walk_evicts (w : World) (opts : Opts) (kl : KerasPilot)
    (aug isTrainSet : bool) (batch_size : nat) (keys : list string)
    (data data' : gmap string sample) (batch_data : list (string * sample))
    (yielded yielded' : list Batch) (key : string) (s : sample) :
  continuous opts = true →
  walk w opts kl aug isTrainSet batch_size keys data batch_data yielded
  = Ok (data', yielded') →
  key ∈ keys →
  data !! key = Some s →
  Sample.train s = isTrainSet →
  path_exists w (Sample.image_path s) = false →
  data' !! key = None.
Proof.
  intros Hcont. revert data s batch_data yielded.
  induction keys as [|k rest IH]; intros data s batch_data yielded H Hin Hs Htr Hgone.
  { by apply elem_of_nil in Hin. }
  assert (Hlater : ∀ d bd ys, evolves data d →
            walk w opts kl aug isTrainSet batch_size rest d bd ys = Ok (data', yielded') →
            key ∈ rest → data' !! key = None).
  { intros d bd ys Hev Hw Hrest.
    destruct (d !! key) as [s1|] eqn:Hs1.
    - destruct (Hev key s1 Hs1) as (s0 & Hs0 & Hsame).
      assert (s0 = s) as -> by congruence.
      apply same_record_fields in Hsame as (Et & Ep & _).
      eapply (IH d s1); [done|done|done|congruence|congruence].
    - destruct (data' !! key) as [s'|] eqn:Hs'; [|done].
      apply walk_evolves in Hw. destruct (Hw key s' Hs') as (? & ? & _). congruence. }
  cbn [walk] in H.
  destruct (decide (k = key)) as [->|Hne].
  - rewrite Hs, Htr, Bool.eqb_reflx, Hcont, Hgone in H. simpl in H.
    apply walk_evolves in H.
    destruct (data' !! key) as [s'|] eqn:Hs'; [|done].
    destruct (H key s' Hs') as (? & Hdel & _). by rewrite lookup_delete_eq in Hdel.
  - apply elem_of_cons in Hin as [->|Hin]; [done|].
    destruct (data !! k) as [_record|]; [|by eapply Hlater; [apply evolves_refl|..]].
    destruct (negb (Bool.eqb (Sample.train _record) isTrainSet));
      [by eapply Hlater; [apply evolves_refl|..]|].
    destruct (continuous opts && negb (path_exists w (Sample.image_path _record))).
    { by eapply Hlater; [apply evolves_delete|..]. }
    cbv zeta in H.
    destruct (decide (length (batch_data ++ [(k, _record)]) = batch_size));
      [|by eapply Hlater; [apply evolves_refl|..]].
    destruct (materialize w (cfg opts) kl aug batch_size _ data)
      as [[d made]|] eqn:Hm; simpl in H; [|discriminate].
    apply materialize_evolves in Hm.
    destruct made; by eapply Hlater.
Qed.

(** X11: In continuous mode a record of the partition a generator works on is
    out of the store after one traversal if its image file is gone when
    the traversal comes to it. *)
Theorem missing_image_is_evicted (w : World) (opts : Opts) (kl : KerasPilot)
    (aug isTrainSet : bool) (batch_size : nat) (g g' : Gen)
    (yielded : list Batch) (key : string) (s : sample) :
  continuous opts = true →
  (∀ l : list string, shuffle w string l ≡ₚ l) →
  shuffled_walk w opts kl aug isTrainSet batch_size g = Ok (g', yielded) →
  gen_records (store g) !! key = Some s →
  Sample.train s = isTrainSet →
  path_exists w (Sample.image_path s) = false →
  gen_records (store g') !! key = None.
Proof.
  intros Hcont Hshuf H Hs Htr Hgone. unfold shuffled_walk in H.
  destruct (walk _ _ _ _ _ _ _ _ _ _) as [[d ys]|] eqn:Hw; simpl in H; [|discriminate].
  injection H as <- _. simpl.
  eapply walk_evicts; [done|exact Hw| |done|done|done].
  rewrite Hshuf. apply list_elem_of_fmap. exists (key, s).
  split; [done|]. by apply elem_of_map_to_list.
Qed.

Lemma missing_image_is_evicted_witness :
  gen_records lone_record !! "tub1" = Some lone_sample
  ∧ gen_records (store lone_walk.1) !! "tub1" = None.
Proof.
  split; [vm_compute; reflexivity|].
  apply (missing_image_is_evicted missing_image (continuous_opts (small_cfg 1 2))
           (pilot_of None) false true 1
           (generator_start lone_record (MyCPCallback_init true))
           lone_walk.1 lone_walk.2 "tub1" lone_sample).
  - reflexivity.
  - intros l. reflexivity.
  - vm_compute. reflexivity.
  - vm_compute. reflexivity.
  - reflexivity.
  - vm_compute. reflexivity.
Defined.

(** X10: The look for new records of a continuous training turn: the store is
    kept and possibly extended; [reset_best()] is called exactly when the
    store is then larger than [num_records], which becomes its size;
    otherwise the callback and [num_records] stay as they are.  Nothing
    is read while there are no more record files than [num_records]. *)
Theorem growth_resets_best (w : World) (opts : Opts) (tub_names : list string)
    (g g' : Gen) :
  pick_up_records w opts tub_names g = Ok g' →
  gen_records (store g) ⊆ gen_records (store g')
  ∧ ((num_records g < size (gen_records (store g'))
      ∧ num_records g < length (gather_records w tub_names)
      ∧ num_records g' = size (gen_records (store g'))
      ∧ save_best g' = reset_best (save_best g))
     ∨ (num_records g' = num_records g
        ∧ save_best g' = save_best g
        ∧ (g' = g ∧ length (gather_records w tub_names) ≤ num_records g
           ∨ size (gen_records (store g')) ≤ num_records g))).
Proof.
  unfold pick_up_records. intros H.
  destruct (num_records g <? length (gather_records w tub_names)) eqn:Hmore.
  2: { injection H as <-. apply Nat.ltb_ge in Hmore. split; [done|]. right. eauto. }
  apply Nat.ltb_lt in Hmore.
  destruct (collate_records w opts _ (store g)) as [st|] eqn:Hc; simpl in H;
    [|discriminate].
  apply collate_records_subseteq in Hc as Hsub.
  destruct (num_records g <? size (gen_records st)) eqn:Hgrew; injection H as <-; simpl.
  - apply Nat.ltb_lt in Hgrew. split; [done|]. left. by repeat split.
  - apply Nat.ltb_ge in Hgrew. split; [done|]. right. eauto.
Qed.

Lemma growth_resets_best_witness :
  num_records picked_up = 1
  ∧ save_best picked_up = reset_best (MyCPCallback_init true).
Proof.
  pose proof (growth_resets_best two_tubs (continuous_opts (small_cfg 1 2)) []
                (generator_start empty_store (MyCPCallback_init true)) picked_up) as H.
  destruct H as [_ [(_ & _ & Hn & Hcb)|(Hn & _)]].
  - vm_compute. reflexivity.
  - split; [rewrite Hn; vm_compute; reflexivity|exact Hcb].
  - vm_compute in Hn. discriminate.
Defined.

(** Once the batch under construction holds [batch_size] records or
    more, no key completes a batch any more. *)
Lemma walk_overfull (w : World) (opts : Opts) (kl : KerasPilot)
    (aug isTrainSet : bool) (batch_size : nat) (keys : list string) :
  ∀ (data : gmap string sample) (batch_data : list (string * sample))
    (yielded : list Batch),
    batch_size ≤ length batch_data →
    ∃ data', walk w opts kl aug isTrainSet batch_size keys data batch_data yielded
             = Ok (data', yielded).
Proof.
  induction keys as [|key rest IH]; intros data batch_data yielded Hfull; cbn [walk].
  - eauto.
  - destruct (data !! key) as [_record|]; [|by apply IH].
    destruct (negb (Bool.eqb (Sample.train _record) isTrainSet)); [by apply IH|].
    destruct (continuous opts && negb (path_exists w (Sample.image_path _record)));
      [by apply IH|].
    cbv zeta. rewrite decide_False by (rewrite length_app; simpl; lia).
    apply IH. rewrite length_app. lia.
Qed.

Lemma add_record_error (w : World) (kl : KerasPilot) (record : sample)
    (img_arr : tensor) (l : Lists) :
  match add_record w kl record img_arr l with
  | Ok _ => True
  | Raise e => missing_vector kl e
  end.
Proof.
  unfold add_record, missing_vector.
  destruct (has_imu kl) eqn:Himu, (has_bvh kl) eqn:Hbvh;
    destruct (Sample.imu_array record), (Sample.behavior_arr record); simpl; auto.
Qed.

Lemma fill_lists_undecodable (w : World) (c : Config) (kl : KerasPilot)
    (aug : bool) (batch_data : list (string * sample)) :
  Exists (λ e : string * sample, undecodable w e.2) batch_data →
  ∀ (data : gmap string sample) (l : Lists),
    match fill_lists w c kl aug batch_data data l with
    | Ok (_, filled) => filled = None
    | Raise e => missing_vector kl e
    end.
Proof.
  induction 1 as [[key record] rest [Himg Hload]|[key record] rest _ IH];
    intros data l; simpl in *.
  - by rewrite Himg, Hload.
  - destruct (Sample.img_data record) as [img|].
    + pose proof (add_record_error w kl record img l) as Hadd.
      destruct (add_record w kl record img l) as [l'|e]; simpl; [apply IH|done].
    + destruct (load_scaled_image_arr w (Sample.image_path record)) as [img|]; [|done].
      pose proof (add_record_error w kl record
                    (if aug then augment_image w img else img) l) as Hadd.
      destruct (add_record w kl record _ l) as [l'|e]; simpl; [apply IH|done].
Qed.

(** X12: when an image of a batch cannot be decoded, that batch is not
    yielded and neither is any other for the rest of the traversal: the
    records stay in [batch_data], which from then on is longer than a
    batch.  The traversal ends without an exception, unless the pilot
    takes an inertial or a behaviour vector and a record of the batch does
    not carry it: then it ends with that [KeyError], and nothing was
    yielded either. *)
Theorem failed_image_ends_batches (w : World) (opts : Opts) (kl : KerasPilot)
    (aug isTrainSet : bool) (batch_size : nat) (key : string)
    (rest : list string) (data : gmap string sample)
    (batch_data : list (string * sample)) (yielded : list Batch) (s : sample) :
  data !! key = Some s →
  Sample.train s = isTrainSet →
  continuous opts && negb (path_exists w (Sample.image_path s)) = false →
  length batch_data + 1 = batch_size →
  Exists (λ e : string * sample, undecodable w e.2) (batch_data ++ [(key, s)]) →
  match walk w opts kl aug isTrainSet batch_size (key :: rest) data
          batch_data yielded with
  | Ok (_, yielded') => yielded' = yielded
  | Raise e => missing_vector kl e
  end
  ∧ (has_imu kl = false → has_bvh kl = false →
     ∃ data', walk w opts kl aug isTrainSet batch_size (key :: rest) data
                batch_data yielded
              = Ok (data', yielded)).
Proof.
  intros Hs Htr Hstay Hlen Hbad.
  assert (Hwalk : match walk w opts kl aug isTrainSet batch_size (key :: rest) data
                          batch_data yielded with
                  | Ok (_, yielded') => yielded' = yielded
                  | Raise e => missing_vector kl e
                  end).
  { cbn [walk].
    rewrite Hs, Htr, Bool.eqb_reflx, Hstay. cbv zeta. simpl negb. cbv iota.
    rewrite decide_True by (rewrite length_app; simpl; lia).
    unfold materialize.
    pose proof (fill_lists_undecodable w (cfg opts) kl aug _ Hbad data no_lists) as Hfill.
    destruct (fill_lists w (cfg opts) kl aug (batch_data ++ [(key, s)]) data no_lists)
      as [[d filled]|e]; cbn -[walk]; [|done].
    subst filled. cbn -[walk].
    destruct (walk_overfull w opts kl aug isTrainSet batch_size rest d
                (batch_data ++ [(key, s)]) yielded) as [d' ->]; [|done].
    rewrite length_app. simpl. lia. }
  split; [exact Hwalk|]. intros Himu Hbvh.
  destruct (walk w opts kl aug isTrainSet batch_size (key :: rest) data
              batch_data yielded) as [[d ys]|e].
  - subst ys. by exists d.
  - destruct Hwalk as [[H _]|[H _]]; congruence.
Qed.

Lemma failed_image_ends_batches_witness :
  match walk gap_world (linear_opts (small_cfg 2 2)) (pilot_of None) false true 2
          ("tub2" :: ["tub3"; "tub4"; "tub5"]) (gen_records gap_store)
          [("tub1", gap_sample 1)] [] with
  | Ok (_, yielded') => yielded' = []
  | Raise e => missing_vector (pilot_of None) e
  end
  ∧ ∃ data' batch,
      walk gap_world (linear_opts (small_cfg 2 2)) (pilot_of None) false true 2
        ["tub3"; "tub4"; "tub5"] (gen_records gap_store) [] [] = Ok (data', [batch]).
Proof.
  split.
  - refine (proj1 (failed_image_ends_batches gap_world (linear_opts (small_cfg 2 2))
                     (pilot_of None) false true 2 "tub2" ["tub3"; "tub4"; "tub5"]
                     (gen_records gap_store) [("tub1", gap_sample 1)] []
                     (gap_sample 2) _ _ _ _ _)).
    + vm_compute. reflexivity.
    + vm_compute. reflexivity.
    + reflexivity.
    + reflexivity.
    + apply Exists_cons_tl, Exists_cons_hd. split; vm_compute; reflexivity.
  - vm_compute. eexists _, _. reflexivity.
Defined.

Lemma materialize_lists (w : World) (c : Config) (kl : KerasPilot) (aug : bool)
    (batch_size : nat) (batch_data : list (string * sample))
    (data data' : gmap string sample) (batch : Batch) :
  materialize w c kl aug batch_size batch_data data = Ok (data', Some batch) →
  ∃ l, targets kl l = Ok (y batch)
       ∧ angles l = Sample.angle <$> batch_data.*2
       ∧ throttles l = Sample.throttle <$> batch_data.*2.
Proof.
  unfold materialize. intros H.
  destruct (fill_lists w c kl aug batch_data data no_lists) as [[d [l|]]|] eqn:Hf;
    simpl in H; try discriminate.
  apply fill_lists_lists in Hf as (Ea & Et & _).
  destruct (reshape _ _); simpl in H; [|discriminate].
  destruct (targets kl l) as [ys|] eqn:Hy; simpl in H; [|discriminate].
  injection H as _ <-. exists l. by repeat split.
Qed.

Lemma walk_batches (w : World) (opts : Opts) (kl : KerasPilot)
    (aug b : bool) (batch_size : nat) (d0 : gmap string sample)
    (keys : list string) :
  ∀ (data data' : gmap string sample) (batch_data : list (string * sample))
    (yielded yielded' : list Batch),
    evolves d0 data →
    Forall (from_partition b d0) batch_data →
    Forall (batch_of kl batch_size b d0) yielded →
    walk w opts kl aug b batch_size keys data batch_data yielded
    = Ok (data', yielded') →
    Forall (batch_of kl batch_size b d0) yielded'.
Proof.
  induction keys as [|key rest IH];
    intros data data' batch_data yielded yielded' Hev Hbd Hys H; cbn [walk] in H.
  - by injection H as _ <-.
  - destruct (data !! key) as [_record|] eqn:Hk; [|by eapply IH].
    destruct (Bool.eqb (Sample.train _record) b) eqn:Heq; simpl in H;
      [|by eapply IH].
    apply Bool.eqb_prop in Heq.
    destruct (continuous opts && negb (path_exists w (Sample.image_path _record))).
    { eapply IH; [|done|done|exact H].
      eapply evolves_trans; [done|apply evolves_delete]. }
    assert (Hbd' : Forall (from_partition b d0) (batch_data ++ [(key, _record)])).
    { apply Forall_app. split; [done|]. constructor; [|done].
      destruct (Hev key _record Hk) as (s0 & Hs0 & Hsame).
      exists s0. split; [done|]. split; [|done].
      apply same_record_fields in Hsame as (Et & _). congruence. }
    destruct (decide (length (batch_data ++ [(key, _record)]) = batch_size))
      as [Hfull|Hnot]; [|by eapply IH].
    destruct (materialize w (cfg opts) kl aug batch_size _ data)
      as [[d made]|] eqn:Hm; simpl in H; [|discriminate].
    pose proof (materialize_evolves _ _ _ _ _ _ _ _ _ Hm) as Hev1.
    destruct made as [batch|].
    + apply (IH d data' [] (yielded ++ [batch]) yielded'); [| | |exact H].
      * by eapply evolves_trans.
      * constructor.
      * apply Forall_app. split; [done|]. constructor; [|done].
        destruct (materialize_lists _ _ _ _ _ _ _ _ _ Hm) as (l & Hy & Ea & Et).
        by exists (batch_data ++ [(key, _record)]), l.
    + eapply IH; [|done|done|exact H]. by eapply evolves_trans.
Qed.

(** X13: Every batch a traversal yields is made of exactly [batch_size]
    records of the partition asked for, as the store held them when the
    traversal began: a validation batch never takes the controls of a
    training record, and the other way round. *)
Theorem batches_hold_partition_records (w : World) (opts : Opts) (kl : KerasPilot)
    (aug isTrainSet : bool) (batch_size : nat) (g g' : Gen) (yielded : list Batch) :
  shuffled_walk w opts kl aug isTrainSet batch_size g = Ok (g', yielded) →
  Forall (batch_of kl batch_size isTrainSet (gen_records (store g))) yielded.
Proof.
  unfold shuffled_walk. intros H.
  destruct (walk _ _ _ _ _ _ _ _ _ _) as [[d ys]|] eqn:Hw; simpl in H; [|discriminate].
  injection H as _ <-.
  eapply walk_batches; [apply evolves_refl|constructor|constructor|exact Hw].
Qed.

Lemma batches_hold_partition_records_witness :
  length demo_walk.2 = 1
  ∧ Forall (batch_of (pilot_of None) 2 true (gen_records (store demo_gen))) demo_walk.2.
Proof.
  split; [vm_compute; reflexivity|].
  apply (batches_hold_partition_records two_tubs (linear_opts (small_cfg 2 2))
           (pilot_of None) false true 2 demo_gen demo_walk.1 demo_walk.2).
  vm_compute. reflexivity.
Defined.

(** ** The outcome of a run of [train] *)

Lemma train_run (w : World) (c : Config) (tub_names : list string)
    (model_name : string) (transfer_model model_type : option string)
    (continuous aug : bool) :
  ∃ pre, Forall (λ e, is_fit e = false) pre
    ∧ train w c tub_names model_name transfer_model model_type continuous aug
      = match train_store w c tub_names model_type continuous with
        | Raise e => mkRun pre (Raise e)
        | Ok st =>
            match (if continuous then Ok 100
                   else floor_div (count_train true (gen_records st)) (BATCH_SIZE c)) with
            | Raise e => mkRun pre (Raise e)
            | Ok steps_per_epoch =>
                match floor_div (count_train false (gen_records st)) (BATCH_SIZE c) with
                | Raise e => mkRun pre (Raise e)
                | Ok val_steps =>
                    if decide (steps_per_epoch < 2)
                    then mkRun pre (Raise (Exception
                           "Too little data to train. Please record more records."))
                    else mkRun (pre ++ [Fit steps_per_epoch
                                          (if continuous then 100000%N
                                           else N.of_nat (MAX_EPOCHS c)) val_steps])
                               (Ok ())
                end
            end
        end.
Proof.
  exists ((if continuous then [Printed "continuous training"] else [])
          ++ [GetModel model_type; Printed "training with model type"]
          ++ (match transfer_model with Some m => [TransferLoaded m] | None => [] end)
          ++ [Compile; PicklesExtracted; Printed "collating records ...";
              ReadRecords (gather_records w tub_names)]).
  split.
  - destruct continuous, transfer_model; repeat constructor.
  - unfold train, train_store, train_opts, go_train.
    destruct (collate_records _ _ _ _) as [st|e];
      destruct continuous, transfer_model; simpl; try reflexivity.
    all: unfold floor_div; destruct (decide (BATCH_SIZE c = 0)); simpl; try reflexivity.
    all: try (destruct (decide (100 < 2)); [lia|]; reflexivity).
    all: unfold mbind, run_bind; cbn [outcome effects].
    all: destruct (decide (_ < 2)); reflexivity.
Qed.

(** X14: when the records of the tubs are ingested and the batch size is
    not zero, [train] goes one of two ways.  With fewer than two steps per
    epoch it raises, and Keras has not been asked to fit.  Otherwise it
    comes to the call of [fit_generator] in [go_train]: nothing was fitted
    before, and the call has [num_train // BATCH_SIZE] steps (100 in
    continuous mode), 100000 epochs in continuous mode and [MAX_EPOCHS]
    otherwise, and [num_val // BATCH_SIZE] validation steps.  What comes
    after this call is left open. *)
Theorem train_fits_on_enough_data (w : World) (c : Config) (tub_names : list string)
    (model_name : string) (transfer_model model_type : option string)
    (continuous aug : bool) (st : Store) :
  train_store w c tub_names model_type continuous = Ok st →
  BATCH_SIZE c ≠ 0 →
  let steps := if continuous then 100
               else count_train true (gen_records st) / BATCH_SIZE c in
  let val_steps := count_train false (gen_records st) / BATCH_SIZE c in
  let epochs := if continuous then 100000%N else N.of_nat (MAX_EPOCHS c) in
  let run := train w c tub_names model_name transfer_model model_type continuous aug in
  (steps < 2 →
     outcome run = Raise (Exception "Too little data to train. Please record more records.")
     ∧ Forall (λ e, is_fit e = false) (effects run))
  ∧ (2 ≤ steps →
     ∃ pre rest, Forall (λ e, is_fit e = false) pre
                 ∧ effects run = pre ++ Fit steps epochs val_steps :: rest).
Proof.
  intros Hst Hb steps val_steps epochs run.
  destruct (train_run w c tub_names model_name transfer_model model_type continuous aug)
    as (pre & Hpre & Hrun).
  rewrite Hst in Hrun. unfold floor_div in Hrun.
  destruct (decide (BATCH_SIZE c = 0)); [done|].
  assert (Hrun' : run = if decide (steps < 2)
                        then mkRun pre (Raise (Exception
                               "Too little data to train. Please record more records."))
                        else mkRun (pre ++ [Fit steps epochs val_steps]) (Ok ())).
  { unfold run, steps, epochs, val_steps. rewrite Hrun. by destruct continuous. }
  rewrite Hrun'. split; intros Hs; destruct (decide (steps < 2)); try lia.
  - done.
  - by exists pre, [].
Qed.

Lemma train_fits_on_enough_data_witness :
  let run := train (frames_world [1; 2; 3; 4]%Z) (small_cfg 2 2) ["tub"]
               "models/pilot.h5" None None false false in
  ∃ pre rest, Forall (λ e, is_fit e = false) pre
              ∧ effects run = pre ++ Fit 2 100%N 0 :: rest.
Proof.
  refine (proj2 (train_fits_on_enough_data (frames_world [1; 2; 3; 4]%Z) (small_cfg 2 2)
                   ["tub"] "models/pilot.h5" None None false false
                   four_ingested _ _) _).
  - vm_compute. reflexivity.
  - vm_compute. lia.
  - vm_compute. lia.
Defined.

(** X15: [train] never reaches [fit_generator] when a record of the tubs stops
    the ingestion, in which case it ends with that error, or when the
    batch size is zero, in which case it ends with [ZeroDivisionError],
    in continuous mode too. *)
Theorem train_stops_before_fit (w : World) (c : Config) (tub_names : list string)
    (model_name : string) (transfer_model model_type : option string)
    (continuous aug : bool) (e : exn) :
  match train_store w c tub_names model_type continuous with
  | Raise e' => e' = e
  | Ok _ => BATCH_SIZE c = 0 ∧ e = ZeroDivisionError
  end →
  let run := train w c tub_names model_name transfer_model model_type continuous aug in
  outcome run = Raise e ∧ Forall (λ e, is_fit e = false) (effects run).
Proof.
  intros H run.
  destruct (train_run w c tub_names model_name transfer_model model_type continuous aug)
    as (pre & Hpre & Hrun).
  unfold run. rewrite Hrun.
  destruct (train_store _ _ _ _ _) as [st|e'].
  - destruct H as [Hb ->]. unfold floor_div. rewrite Hb.
    destruct (decide (0 = 0)); [|done]. by destruct continuous.
  - by subst.
Qed.

Lemma train_stops_before_fit_witness :
  outcome (train (frames_world [1; 2; 3; 4]%Z) (small_cfg 0 2) ["tub"]
             "models/pilot.h5" None None true false) = Raise ZeroDivisionError.
Proof.
  refine (proj1 (train_stops_before_fit (frames_world [1; 2; 3; 4]%Z) (small_cfg 0 2)
                   ["tub"] "models/pilot.h5" None None true false ZeroDivisionError _)).
  vm_compute. done.
Defined.

(** ** Pruning *)










(** With 16 channels, a target of 12 and a fifth deleted in each turn
    the loop takes two turns, over 13 channels, and stops at 11. *)
Lemma pruning_from_16_to_11 :
  prune_loop 4 (fraction_keras 0) "models/model_pruned_20.0_percent.h5"
    "models/pilot" 0.5%Q 12%Z (conv_net 16) 16%Z (MyCPCallback_init true)
  = ([SavedModel "models/model_pruned_20.0_percent.h5"; CompiledModel; FitPruned;
      SavedModel "models/pilot_prune_13_filters.h5";
      SavedModel "models/model_pruned_20.0_percent.h5"; CompiledModel; FitPruned;
      SavedModel "models/pilot_prune_11_filters.h5"],
     Ok (Stopped (conv_net 11) 11%Z (reset_best (MyCPCallback_init true)))).
Proof. vm_compute. reflexivity. Qed.

(** X17: When [prune] asks for no channel at all, which is what a fifth of
    four channels rounds down to, and the fits stay below the loss limit,
    the pruning loop of [go_train] does not come to an end: however many
    turns it is given, it is still above its target after them, having
    fitted the model once in each. *)
Theorem pruning_spins_when_nothing_goes {M : Type} (k : Keras M)
    (pruned_name base : string) (max_val_loss : Q) (target : Z)
    (inv : M → Prop) (steps : nat) (model : M) (cnn : Z) (cb : MyCPCallback) :
  (∀ m, inv m →
     channels_to_delete k (get_total_channels (layers k m)) = 0%Z
     ∧ ∃ rows, get_model_apoz (get_apoz k m) (layers k m) = Ok rows
         ∧ Qlt_bool (fit_generator k (prune_model k m rows 0)).2 max_val_loss = true
         ∧ inv (fit_generator k (prune_model k m rows 0)).1) →
  inv model →
  (target < cnn)%Z →
  let run := prune_loop steps k pruned_name base max_val_loss target model cnn cb in
  run.2 = Ok StillPruning
  ∧ length (filter (λ e, is_fit_pruned e = true) run.1) = steps.
Proof.
  intros Hinv. revert model cb.
  induction steps as [|steps IH]; intros model cb Hm Hgt run; unfold run.
  - simpl. by destruct (decide (cnn > target)%Z); [|lia].
  - cbn [prune_loop]. destruct (decide (cnn > target)%Z); [|lia].
    destruct (Hinv model Hm) as (Hzero & rows & Hrows & Hloss & Hnext).
    unfold prune. rewrite Hrows, Hzero. cbn [mbind result_bind].
    destruct (fit_generator k (prune_model k model rows 0)) as [model' loss].
    simpl in Hloss, Hnext. rewrite Hloss.
    replace (cnn - 0)%Z with cnn by lia.
    specialize (IH model' (reset_best cb) Hnext Hgt).
    destruct (prune_loop steps k pruned_name base max_val_loss target model' cnn
                (reset_best cb)) as [later r].
    simpl in IH. destruct IH as [-> Hcount]. cbn [fst snd app]. split; [done|].
    rewrite !filter_cons_False by (simpl; congruence).
    rewrite filter_cons_True by done.
    rewrite filter_cons_False by (simpl; congruence).
    cbn [length]. lia.
Qed.

Lemma pruning_spins_when_nothing_goes_witness :
  let run := prune_loop 50 (fraction_keras 0) "models/model_pruned_20.0_percent.h5"
               "models/pilot" 0.5%Q 3%Z small_net 4%Z (MyCPCallback_init true) in
  run.2 = Ok StillPruning
  ∧ length (filter (λ e, is_fit_pruned e = true) run.1) = 50.
Proof.
  apply (pruning_spins_when_nothing_goes (fraction_keras 0)
           "models/model_pruned_20.0_percent.h5" "models/pilot" 0.5%Q 3%Z
           (λ m, m = small_net) 50 small_net 4%Z (MyCPCallback_init true)).
  - intros m ->. split; [reflexivity|].
    exists [("conv2d_1", 0, 1%Q); ("conv2d_1", 1, 1%Q);
            ("conv2d_1", 2, 1%Q); ("conv2d_1", 3, 1%Q)].
    split_and!; reflexivity.
  - reflexivity.
  - lia.
Defined.

(** ** The generator of the pruning evaluation *)

Lemma concat_slices {A : Type} (l : list A) (size first count : nat) :
  concat ((λ idx, take size (drop (idx * size) l)) <$> seq first count)
  = take (count * size) (drop (first * size) l).
Proof.
  revert first. induction count as [|count IH]; intros first.
  - done.
  - cbn [seq fmap list_fmap concat]. rewrite IH.
    replace (S first * size) with (first * size + size) by lia.
    rewrite <- drop_drop.
    replace (S count * size) with (size + count * size) by lia.
    by rewrite take_take_drop.
Qed.

Lemma ceil_div_bounds (a b : nat) :
  b ≠ 0 →
  a ≤ ceil_div a b * b ∧ (0 < a → (ceil_div a b - 1) * b < a ∧ 0 < ceil_div a b)
  ∧ (a = 0 → ceil_div a b = 0).
Proof.
  intros Hb. unfold ceil_div.
  pose proof (Nat.div_mod (a + b - 1) b Hb) as Hd.
  pose proof (Nat.mod_upper_bound (a + b - 1) b Hb) as Hm.
  set (n := (a + b - 1) / b) in *. set (r := (a + b - 1) mod b) in *.
  split_and!.
  - nia.
  - intros Ha. assert (0 < n) by (destruct n; [nia|lia]). split; [nia|done].
  - intros ->. destruct n; [done|]. nia.
Qed.

(** X19: With a batch size above zero the batches [0 .. len - 1] of the
    prediction generator hold the images of the evaluation records, each
    once and in their order: every batch is non-empty and of at most
    [batch_size] images, all but the last are full, and a batch past the
    last one is empty. *)
Theorem prediction_batches_cover_data (w : World) (g : SequencePredictionGenerator) :
  spg_batch_size g ≠ 0 →
  ∃ n, spg_len g = Ok n
    ∧ concat ((λ idx, (spg_getitem w g idx).1) <$> seq 0 n)
      = (λ data, load_scaled_image_arr w (Sample.image_path data)) <$> spg_data g
    ∧ (∀ idx, idx < n →
         0 < length (spg_getitem w g idx).1 ≤ spg_batch_size g)
    ∧ (∀ idx, S idx < n → length (spg_getitem w g idx).1 = spg_batch_size g)
    ∧ (∀ idx, n ≤ idx → (spg_getitem w g idx).1 = []).
Proof.
  intros Hb. destruct g as [data size]. simpl in *.
  exists (ceil_div (length data) size).
  destruct (ceil_div_bounds (length data) size Hb) as (Hup & Hlow & Hzero).
  unfold spg_len, spg_getitem, spg_batch_data. simpl.
  split_and!.
  - by destruct (decide (size = 0)).
  - set (f := λ data0, load_scaled_image_arr w (Sample.image_path data0)).
    transitivity (concat ((λ idx, take size (drop (idx * size) (f <$> data)))
                            <$> seq 0 (ceil_div (length data) size))).
    { f_equal. apply list_fmap_ext. intros _ idx _. by rewrite fmap_take, fmap_drop. }
    rewrite concat_slices. simpl. apply take_ge. by rewrite length_fmap.
  - intros idx Hidx. rewrite length_fmap, length_take, length_drop.
    assert (0 < length data) as Hpos.
    { destruct (decide (length data = 0)) as [H0|]; [|lia].
      rewrite (Hzero H0) in Hidx. lia. }
    destruct (Hlow Hpos) as [Hl _]. nia.
  - intros idx Hidx. rewrite length_fmap, length_take, length_drop.
    assert (0 < length data) as Hpos.
    { destruct (decide (length data = 0)) as [H0|]; [|lia].
      rewrite (Hzero H0) in Hidx. lia. }
    destruct (Hlow Hpos) as [Hl _]. nia.
  - intros idx Hidx. rewrite drop_ge by nia. by rewrite take_nil.
Qed.

Lemma prediction_batches_cover_data_witness :
  let g := SequencePredictionGenerator_init three_frames.*2 3 (small_cfg 2 2) in
  ∃ n, spg_len g = Ok n
    ∧ concat ((λ idx, (spg_getitem two_tubs g idx).1) <$> seq 0 n)
      = (λ data, load_scaled_image_arr two_tubs (Sample.image_path data)) <$> spg_data g
    ∧ (∀ idx, idx < n →
         0 < length (spg_getitem two_tubs g idx).1 ≤ spg_batch_size g)
    ∧ (∀ idx, S idx < n → length (spg_getitem two_tubs g idx).1 = spg_batch_size g)
    ∧ (∀ idx, n ≤ idx → (spg_getitem two_tubs g idx).1 = []).
Proof.
  apply (prediction_batches_cover_data two_tubs
           (SequencePredictionGenerator_init three_frames.*2 3 (small_cfg 2 2))).
  simpl. lia.
Defined.

(** ** The records of [sequence_train] *)

Lemma mapM_result {A B : Type} (f : A → result B) (l : list A) (ks : list B) :
  mapM f l = Ok ks ↔ Forall2 (λ a b, f a = Ok b) l ks.
Proof.
  revert ks. induction l as [|a l IH]; intros ks; simpl.
  - split; [intros [= <-]; constructor|by inversion 1].
  - split.
    + destruct (f a) as [b|e] eqn:Hf; simpl; [|done].
      destruct (mapM f l) as [ks'|e] eqn:Hl; simpl; [|done].
      intros [= <-]. constructor; [done|]. by apply IH.
    + inversion 1 as [|? b ? ks' Hf Hl]; subst. rewrite Hf. simpl.
      apply IH in Hl. by rewrite Hl.
Qed.

Lemma insert_by_index_perm (x : Z * string) (sorted : list (Z * string)) :
  insert_by_index x sorted ≡ₚ x :: sorted.
Proof.
  induction sorted as [|y rest IH]; simpl; [done|].
  destruct (decide (by_index x y)); [done|]. rewrite IH. apply Permutation_swap.
Qed.

Lemma sort_by_index_perm (l : list (Z * string)) : sort_by_index l ≡ₚ l.
Proof.
  induction l as [|x l IH]; simpl; [done|].
  by rewrite insert_by_index_perm, IH.
Qed.

Lemma insert_by_index_sorted (x : Z * string) (sorted : list (Z * string)) :
  Sorted by_index sorted → Sorted by_index (insert_by_index x sorted).
Proof.
  induction 1 as [|y rest Hrest IH Hhd]; simpl.
  - by repeat constructor.
  - destruct (decide (by_index x y)) as [Hle|Hgt].
    + constructor; [by constructor|by constructor].
    + constructor; [done|].
      assert (Hyx : by_index y x) by (unfold by_index in *; lia).
      destruct Hhd as [|z rest' Hyz]; simpl.
      * by constructor.
      * destruct (decide (by_index x z)); by constructor.
Qed.

Lemma sort_by_index_sorted (l : list (Z * string)) : Sorted by_index (sort_by_index l).
Proof.
  induction l as [|x l IH]; simpl; [constructor|]. by apply insert_by_index_sorted.
Qed.

(** The sort is stable: the entries of any one key come out in the order
    they went in. *)
Lemma sort_by_index_stable (k : Z) (l : list (Z * string)) :
  filter (λ x, x.1 = k) (sort_by_index l) = filter (λ x, x.1 = k) l.
Proof.
  induction l as [|x l IH]; simpl; [done|].
  rewrite filter_cons, <- IH. clear IH.
  induction (sort_by_index l) as [|y rest IH]; simpl.
  - by rewrite filter_cons.
  - destruct (decide (by_index x y)) as [Hle|Hgt].
    + by rewrite filter_cons.
    + rewrite !(filter_cons _ y), IH.
      destruct (decide (x.1 = k)) as [Hx|]; [|done].
      destruct (decide (y.1 = k)) as [Hy|]; [|done].
      unfold by_index in Hgt. lia.
Qed.

(** X20: [record_paths.sort(key=get_record_index)], as [sequence_train] does
    for every tub, gives, when it goes through, the same record paths in
    ascending order of their indices. *)
Theorem records_sorted_by_index (w : World) (record_paths sorted : list string) :
  sort_records w record_paths = Ok sorted →
  sorted ≡ₚ record_paths
  ∧ ∃ keys, Forall2 (λ p k, get_record_index w p = Ok k) sorted keys
            ∧ Sorted Z.le keys.
Proof.
  unfold sort_records. intros H.
  destruct (mapM (get_record_index w) record_paths) as [keys|e] eqn:Hkeys;
    simpl in H; [|done].
  injection H as <-. apply mapM_result in Hkeys.
  pose proof (Forall2_length _ _ _ Hkeys) as Hlen.
  set (pairs := sort_by_index (zip keys record_paths)).
  assert (Hperm : pairs ≡ₚ zip keys record_paths) by apply sort_by_index_perm.
  split.
  - rewrite Hperm. rewrite snd_zip by lia. done.
  - exists (pairs.*1). split.
    + apply Forall2_fmap. apply Forall2_same_length_lookup_2; [done|].
      intros i [k p] [k' p'] H1 H2. simplify_eq. simpl.
      assert (Hin : (k, p) ∈ zip keys record_paths).
      { rewrite <- Hperm. by eapply list_elem_of_lookup_2. }
      apply list_elem_of_lookup in Hin as [j Hj].
      apply lookup_zip_with_Some in Hj as (k0 & p0 & [= <- <-] & Hk & Hp).
      eapply Forall2_lookup_lr in Hkeys; eauto.
    + apply (Sorted_fmap fst by_index Z.le); [by intros [] []|].
      apply sort_by_index_sorted.
Qed.

Lemma records_sorted_by_index_witness :
  record_name <$> [1; 2; 3]%Z ≡ₚ record_name <$> [3; 1; 2]%Z
  ∧ ∃ keys, Forall2 (λ p k, get_record_index (frames_world [3; 1; 2]%Z) p = Ok k)
              (record_name <$> [1; 2; 3]%Z) keys
            ∧ Sorted Z.le keys.
Proof.
  apply (records_sorted_by_index (frames_world [3; 1; 2]%Z)
           (record_name <$> [3; 1; 2]%Z) (record_name <$> [1; 2; 3]%Z)).
  vm_compute. reflexivity.
Defined.

(** ** The outcome of a run of [sequence_train] *)

Lemma tub_records_quiet (w : World) (tubs : list string) :
  Forall (λ e, is_fit e = false) (effects (tub_records w tubs)).
Proof.
  induction tubs as [|tub tubs IH]; [constructor|].
  cbn [tub_records]. unfold mbind, run_bind. cbn [tell lift outcome effects].
  destruct (sort_records w (glob_records w tub)) as [paths|e]; cbn [outcome effects app].
  - destruct (outcome (tub_records w tubs)) as [more|e] eqn:Hout;
      cbn [outcome effects app mret run_ret].
    + constructor; [done|]. rewrite app_nil_r. exact IH.
    + constructor; [done|]. exact IH.
  - by repeat constructor.
Qed.

Lemma seq_collate_records_read (w : World) (records : list string)
    (data data' : gmap string seq_sample) :
  seq_collate_records w records data = Ok data' →
  Forall (λ record_path, ∃ json_data, load_json w record_path = Ok json_data) records.
Proof.
  revert data. induction records as [|r rest IH]; intros data H; [constructor|].
  simpl in H.
  destruct (seq_collate_record w data r) as [d|] eqn:H1; simpl in H; [|discriminate].
  constructor; [|by eapply IH].
  unfold seq_collate_record in H1.
  destruct (load_json w r) as [json_data|]; [by eexists|discriminate].
Qed.

(** X21: a run of [sequence_train] outside continuous mode whose tubs are
    listed, ingested and split, with a batch size that is not zero.  Every
    record file was read: unlike [collate_records], the loop of
    [sequence_train] catches nothing.  With fewer than two steps per epoch
    the run raises, and Keras has not been asked to fit.  Otherwise it
    comes to the call of [fit_generator] in [go_train]: nothing was fitted
    before, and the call has [len(train_data) // BATCH_SIZE] steps,
    [MAX_EPOCHS] epochs and [len(val_data) // BATCH_SIZE] validation
    steps.  What comes after this call is left open. *)
Theorem sequence_train_fits_on_enough_data (w : World) (c : Config)
    (tub_names : list string) (model_name : string)
    (transfer_model model_type : option string) (aug : bool)
    (records : list string) (gen_records : gmap string seq_sample)
    (train_data val_data : list window) :
  outcome (tub_records w (gather_tubs w tub_names)) = Ok records →
  seq_collate_records w records ∅ = Ok gen_records →
  train_test_split w window (collate_sequences gen_records (target_len c model_type))
    (1 - TRAIN_TEST_SPLIT c)%Q = Ok (train_data, val_data) →
  BATCH_SIZE c ≠ 0 →
  let steps := length train_data / BATCH_SIZE c in
  let val_steps := length val_data / BATCH_SIZE c in
  let run := sequence_train w c tub_names model_name transfer_model model_type false aug in
  Forall (λ record_path, ∃ json_data, load_json w record_path = Ok json_data) records
  ∧ (steps < 2 →
     outcome run = Raise (Exception "Too little data to train. Please record more records.")
     ∧ Forall (λ e, is_fit e = false) (effects run))
  ∧ (2 ≤ steps →
     ∃ pre rest, Forall (λ e, is_fit e = false) pre
                 ∧ effects run
                   = pre ++ Fit steps (N.of_nat (MAX_EPOCHS c)) val_steps :: rest).
Proof.
  intros Hrec Hcol Hsplit Hb steps val_steps run.
  split; [by eapply seq_collate_records_read|].
  pose proof (tub_records_quiet w (gather_tubs w tub_names)) as Hquiet.
  set (pre := [Printed "sequence of images training"; GetModel model_type]
              ++ effects (tub_records w (gather_tubs w tub_names))
              ++ [Printed "collating records"; ReadRecords records;
                  Printed "collating sequences"]).
  assert (Hpre : Forall (λ e, is_fit e = false) pre).
  { unfold pre. repeat (apply Forall_app; split); by repeat constructor. }
  assert (Hrun : run = if decide (steps < 2)
                       then mkRun pre (Raise (Exception
                              "Too little data to train. Please record more records."))
                       else mkRun (pre ++ [Fit steps (N.of_nat (MAX_EPOCHS c)) val_steps])
                                  (Ok ())).
  { unfold run, sequence_train, go_train, py_assert.
    unfold mbind, run_bind. cbn [negb mret run_ret tell lift outcome effects].
    rewrite Hrec. cbn [outcome effects]. rewrite Hcol. cbn [outcome effects].
    rewrite Hsplit. cbn [outcome effects].
    unfold floor_div. destruct (decide (BATCH_SIZE c = 0)); [done|].
    cbn [outcome effects]. unfold steps, val_steps, pre.
    destruct (decide (length train_data / BATCH_SIZE c < 2)); cbn [outcome effects].
    - unfold lift. simpl. done.
    - unfold lift, tell. simpl. f_equal. by rewrite <- !app_assoc. }
  rewrite Hrun. split; intros Hs; destruct (decide (steps < 2)); try lia.
  - done.
  - by exists pre, [].
Qed.

Lemma sequence_train_fits_on_enough_data_witness :
  let run := sequence_train (frames_world [0; 1; 2; 3; 4; 5]%Z) (small_cfg 2 2) ["tub"]
               "models/pilot.h5" None (Some "rnn") false false in
  ∃ pre rest, Forall (λ e, is_fit e = false) pre
              ∧ effects run = pre ++ Fit 2 100%N 0 :: rest.
Proof.
  refine (proj2 (proj2 (sequence_train_fits_on_enough_data
                          (frames_world [0; 1; 2; 3; 4; 5]%Z) (small_cfg 2 2) ["tub"]
                          "models/pilot.h5" None (Some "rnn") false
                          (record_name <$> [0; 1; 2; 3; 4; 5]%Z)
                          (frames_store [0; 1; 2; 3; 4; 5]%Z)
                          five_windows [] _ _ _ _)) _).
  - vm_compute. reflexivity.
  - vm_compute. reflexivity.
  - vm_compute. reflexivity.
  - vm_compute. lia.
  - vm_compute. lia.
Defined.

(** ** More on the generator of [sequence_train] *)

(** X22: in plain sequence mode, for a window of distinct records whose
    images load, the target is the control pair of the last record of the
    window, nothing goes to the filler input, and the images are those of
    all the records of the window, in their order: for each record the
    image it holds in memory or else the one read from its file. *)
Theorem plain_sequence_target (w : World) (c : Config) (aug : bool) (seq : window)
    (data : gmap string seq_sample) :
  seq ≠ [] →
  NoDup seq.*1 →
  (∀ e, e ∈ seq → is_Some (load_scaled_image_arr w (SeqSample.image_path e.2))) →
  ∃ data' ex final,
    seq_example w c aug false seq data = Ok (data', ex)
    ∧ last seq = Some final
    ∧ ex_labels ex = [SeqSample.target_output final.2]
    ∧ ex_vec_in ex = []
    ∧ Some <$> ex_inputs_img ex = image_taken w aug data <$> seq
    ∧ length (ex_inputs_img ex) = length seq.
Proof.
  intros Hne Hnd Hload. unfold seq_example.
  pose proof (seq_records_lists w c aug (length seq) (-1) seq Hload 0 data
                (mkSeqLists [] [] [])) as Hl.
  pose proof (seq_records_images w c aug (length seq) (-1) seq Hload Hnd 0 data
                (mkSeqLists [] [] [])) as Himgs.
  destruct (seq_records w c aug (length seq) (-1) 0 seq data (mkSeqLists [] [] []))
    as [d l]. simpl in Hl.
  destruct Hl as (_ & Ei & El).
  assert (Hlen : 0 < length seq) by (destruct seq; [done|simpl; lia]).
  unfold py_index. cbv zeta.
  destruct (decide (-1 < 0)%Z) as [_|]; [|lia].
  destruct (decide (Z.of_nat (length seq) + -1 < 0)%Z) as [|_]; [lia|].
  replace (Z.to_nat (Z.of_nat (length seq) + -1)) with (pred (length seq)) by lia.
  rewrite <- last_lookup.
  destruct (last seq) as [final|] eqn:Hlast.
  2: { apply last_None in Hlast. done. }
  simpl. exists d. eexists _, final. split; [reflexivity|]. simpl.
  simpl in Himgs. rewrite Nat.sub_0_r, firstn_all in Himgs.
  split; [done|]. split; [done|]. split; [done|]. split; [done|]. rewrite El. lia.
Qed.

Lemma plain_sequence_target_witness :
  ∃ data' ex final,
    seq_example (frames_world [0; 1; 2; 3]%Z) (small_cfg 1 4) false false
      four_frames (frames_store [0; 1; 2; 3]%Z) = Ok (data', ex)
    ∧ last four_frames = Some final
    ∧ ex_labels ex = [SeqSample.target_output final.2]
    ∧ ex_vec_in ex = []
    ∧ Some <$> ex_inputs_img ex
      = [Some (pixel 0); Some (pixel 1); Some (pixel 2); Some (pixel 3)]
    ∧ length (ex_inputs_img ex) = length four_frames.
Proof.
  destruct (plain_sequence_target (frames_world [0; 1; 2; 3]%Z) (small_cfg 1 4) false
              four_frames (frames_store [0; 1; 2; 3]%Z))
    as (data' & ex & final & Hex & Hlast & Hlabels & Hfill & Himgs & Hlen).
  - discriminate.
  - apply (bool_decide_unpack _). vm_compute. exact I.
  - intros e He. unfold four_frames in He.
    repeat (apply elem_of_cons in He as [->|He]; [vm_compute; eauto|]).
    by apply elem_of_nil in He.
  - exists data', ex, final. split_and!; [done|done|done|done|exact Himgs|done].
Defined.

(** X23: With a sequence length of zero every record of the store gives one
    empty window, and the generator fails on it with an [IndexError]. *)
Theorem empty_windows (w : World) (c : Config) (aug look_ahead : bool)
    (model_type : option string) (data d : gmap string seq_sample) :
  SEQUENCE_LENGTH c = 0 →
  collate_sequences data (target_len c model_type) = replicate (size data) []
  ∧ seq_example w c aug look_ahead [] d = Raise IndexError.
Proof.
  intros HL. split.
  - replace (target_len c model_type) with 0
      by (unfold target_len; rewrite HL; by destruct (decide _)).
    unfold collate_sequences, window_from. simpl.
    rewrite <- length_map_to_list.
    induction (map_to_list data) as [|x l IH]; [done|].
    rewrite !fmap_cons, filter_cons_True by done. simpl. by f_equal.
  - unfold seq_example. rewrite HL. by destruct look_ahead.
Qed.

Lemma empty_windows_witness :
  collate_sequences (frames_store [0; 1]%Z) (target_len (small_cfg 2 0) (Some "rnn"))
  = replicate (size (frames_store [0; 1]%Z)) []
  ∧ seq_example (frames_world [0; 1]%Z) (small_cfg 2 0) false false []
      (frames_store [0; 1]%Z) = Raise IndexError.
Proof.
  apply (empty_windows (frames_world [0; 1]%Z) (small_cfg 2 0) false false (Some "rnn")
           (frames_store [0; 1]%Z) (frames_store [0; 1]%Z)).
  reflexivity.
Defined.

(** The offsets of full batches come first: the batches yielded over the
    offsets [a * B, (a+1) * B, ...]. *)
Lemma seq_offsets_count (w : World) (c : Config) (aug look_ahead : bool)
    (batch_size : nat) (windows : list window) (m : nat) :
  0 < batch_size →
  ∀ (a : nat) (data data' : gmap string seq_sample) (yielded yielded' : list Batch),
    seq_offsets w c aug look_ahead batch_size ((λ i, i * batch_size) <$> seq a m)
      windows data yielded = Ok (data', yielded') →
    length yielded'
    = length yielded + (m `min` (length windows / batch_size - a)).
Proof.
  intros Hpos. induction m as [|m IH]; intros a data data' yielded yielded' H.
  - simpl in H. injection H as _ <-. simpl. lia.
  - cbn [seq fmap list_fmap seq_offsets] in H. cbv zeta in H.
    assert (Hfull : length (take batch_size (drop (a * batch_size) windows)) = batch_size
                    ↔ a < length windows / batch_size).
    { rewrite length_take, length_drop. split.
      - intros Hmin. apply Nat.div_le_lower_bound; [lia|].
        assert (batch_size ≤ length windows - a * batch_size) by lia. nia.
      - intros Ha. assert (S a * batch_size ≤ length windows).
        { etrans; [|apply (Nat.Div0.mul_div_le _ batch_size)]. nia. }
        assert (batch_size ≤ length windows - a * batch_size) by nia. lia. }
    destruct (decide (length (take batch_size (drop (a * batch_size) windows))
                      = batch_size)) as [Hyes|Hno].
    + apply Hfull in Hyes.
      destruct (seq_examples w c aug look_ahead _ data) as [[d exs]|]; simpl in H;
        [|discriminate].
      destruct (seq_batch c look_ahead batch_size exs) as [b|]; simpl in H;
        [|discriminate].
      apply IH in H. rewrite H, length_app. cbn [length]. lia.
    + injection H as _ <-. rewrite Hfull in Hno. lia.
Qed.

(** X24: One turn of the generator of [sequence_train] that ends without an
    exception has yielded exactly floor(n / B) batches, n being the number
    of windows; the windows left over are not used in that turn.  The
    batch size is then not zero: with zero the turn fails. *)
Theorem sequence_batches_per_turn (w : World) (c : Config) (aug look_ahead : bool)
    (batch_size : nat) (windows windows' : list window)
    (data data' : gmap string seq_sample) (yielded : list Batch) :
  length (shuffle w window windows) = length windows →
  seq_generator_turn w c aug look_ahead batch_size (length windows) windows data
  = Ok (windows', data', yielded) →
  batch_size ≠ 0
  ∧ windows' = shuffle w window windows
  ∧ length yielded = length windows / batch_size.
Proof.
  unfold seq_generator_turn, py_range_step. intros Hshuf H.
  destruct (decide (batch_size = 0)) as [|Hpos]; [discriminate|]. simpl in H.
  destruct (seq_offsets _ _ _ _ _ _ _ _ _) as [[d ys]|] eqn:Ho; simpl in H;
    [|discriminate].
  injection H as <- _ <-. split; [done|]. split; [done|].
  apply seq_offsets_count in Ho; [|lia]. rewrite Ho, Hshuf. simpl.
  assert (length windows / batch_size
          ≤ (length windows + batch_size - 1) / batch_size)
    by (apply Nat.Div0.div_le_mono; lia).
  lia.
Qed.

Lemma sequence_batches_per_turn_witness :
  length three_windows = 3 ∧ length demo_seq_turn.2 = 3 / 2.
Proof.
  split; [reflexivity|].
  refine (proj2 (proj2 (sequence_batches_per_turn (frames_world [0; 1; 2; 3]%Z)
                          (small_cfg 2 2) false false 2 three_windows
                          demo_seq_turn.1.1 (frames_store [0; 1; 2; 3]%Z)
                          demo_seq_turn.1.2 demo_seq_turn.2 _ _))).
  - reflexivity.
  - vm_compute. reflexivity.
Defined.

(** ** Lists of tub directories read from files *)

Lemma string_length_0 (d : string) : String.length d = 0 ↔ d = "".
Proof. destruct d; simpl; split; intros; congruence. Qed.

Lemma delete_at_length {A : Type} (front back : list A) (d : A) :
  delete (length front) (front ++ d :: back) = front ++ back.
Proof. induction front as [|x front IH]; simpl; [done|]. by f_equal. Qed.

Lemma removeComments_loop_filter (front back : list string) :
  removeComments_loop (reverse (seq 0 (length front))) (front ++ back)
  = Ok (filter is_dir_entry front ++ back).
Proof.
  revert back. induction front as [|d front IH] using rev_ind; intros back.
  - reflexivity.
  - rewrite length_app, Nat.add_comm. cbn [length Nat.add].
    rewrite seq_S, reverse_app. cbn [reverse Nat.add rev_append app removeComments_loop].
    assert (Hd : (front ++ [d]) ++ back = front ++ d :: back) by by rewrite <- app_assoc.
    rewrite Hd, list_lookup_middle by done.
    rewrite filter_app, <- app_assoc, delete_at_length.
    destruct (is_comment d) eqn:Hc.
    + rewrite IH, filter_cons_False; [done|]. intros [? _]. congruence.
    + destruct (decide (String.length d = 0)) as [H0|H0].
      * rewrite IH, filter_cons_False; [done|]. intros [_ ?].
        by apply string_length_0 in H0.
      * rewrite IH, filter_cons_True; [done|]. split; [done|].
        intros ->. by apply H0.
Qed.

(** X25: The loop of [removeComments], which deletes by index while walking the
    indices downwards, never reads outside the list and leaves exactly the
    entries that are neither empty nor start with a hash sign, in their
    order. *)
Theorem removeComments_keeps_entries (dir_list : list string) :
  removeComments dir_list = Ok (filter is_dir_entry dir_list).
Proof.
  unfold removeComments.
  rewrite <- (app_nil_r dir_list) at 2.
  by rewrite removeComments_loop_filter, app_nil_r.
Qed.

Lemma split_on_pieces (sep : ascii) (s : string) :
  Forall (λ piece, sep ∉ String.list_ascii_of_string piece) (split_on sep s).
Proof.
  induction s as [|a s IH]; simpl.
  - repeat constructor. simpl. apply not_elem_of_nil.
  - destruct (decide (a = sep)) as [->|Hne].
    + constructor; [simpl; apply not_elem_of_nil|done].
    + destruct (split_on sep s) as [|piece pieces]; simpl.
      * repeat constructor. simpl. rewrite elem_of_cons. intros [?|H]; [done|].
        by apply not_elem_of_nil in H.
      * apply Forall_cons in IH as [Hp Hps]. constructor; [|done].
        simpl. rewrite elem_of_cons. intros [?|?]; [congruence|done].
Qed.

Lemma join_split_on (sep : ascii) (s : string) :
  join_with sep (split_on sep s) = s.
Proof.
  induction s as [|a s IH]; [done|]. cbn [split_on].
  destruct (decide (a = sep)) as [->|Hne].
  - destruct (split_on sep s) as [|piece pieces] eqn:Hs.
    + simpl in IH. by subst.
    + change (join_with sep ("" :: piece :: pieces))
        with (String sep (join_with sep (piece :: pieces))). by rewrite IH.
  - destruct (split_on sep s) as [|piece pieces] eqn:Hs.
    + simpl in IH. by subst.
    + destruct pieces as [|p2 pieces].
      * simpl in *. by subst.
      * change (join_with sep (String a piece :: p2 :: pieces))
          with (String a (join_with sep (piece :: p2 :: pieces))). by rewrite IH.
Qed.

Lemma read_dirs_ok (read_text : string → result string) (files texts dirs : list string) :
  Forall2 (λ afile text, read_text afile = Ok text) files texts →
  read_dirs read_text files dirs = Ok (dirs ++ concat (split_on newline <$> texts)).
Proof.
  intros H. revert dirs. induction H as [|afile text files texts Hr _ IH]; intros dirs.
  - simpl. by rewrite app_nil_r.
  - simpl. rewrite Hr. simpl. by rewrite IH, app_assoc.
Qed.

Lemma read_dirs_pieces (read_text : string → result string) (files dirs out : list string) :
  read_dirs read_text files dirs = Ok out →
  Forall (λ d, newline ∉ String.list_ascii_of_string d) dirs →
  Forall (λ d, newline ∉ String.list_ascii_of_string d) out.
Proof.
  revert dirs. induction files as [|afile files IH]; intros dirs H Hd; simpl in H.
  - by simplify_eq.
  - destruct (read_text afile) as [text|e] eqn:Hr; simpl in H; [|done].
    apply (IH _ H). apply Forall_app. split; [done|]. apply split_on_pieces.
Qed.

(** X26: [preprocessFileList] on files that can all be read returns the lines
    of the files, in the order of the files, without the empty lines and
    the lines that start with a hash sign; no entry holds a line break. *)
Theorem file_list_entries (read_text : string → result string)
    (files texts : list string) :
  Forall2 (λ afile text, read_text afile = Ok text) files texts →
  let dirs := filter is_dir_entry (concat (split_on newline <$> texts)) in
  preprocessFileList read_text (Some files) = Ok dirs
  ∧ Forall (λ d, d ≠ "" ∧ is_comment d = false
                 ∧ newline ∉ String.list_ascii_of_string d) dirs.
Proof.
  intros H dirs. unfold preprocessFileList.
  pose proof (read_dirs_ok read_text files texts [] H) as Hr.
  rewrite Hr. simpl. unfold removeComments.
  rewrite <- (app_nil_r (concat _)) at 2.
  rewrite removeComments_loop_filter, app_nil_r. split; [done|].
  apply Forall_forall. intros d Hd. apply list_elem_of_filter in Hd as [[Hc He] Hd].
  split_and!; [done|done|].
  pose proof (read_dirs_pieces read_text files [] _ Hr (Forall_nil_2 _)) as Hp.
  simpl in Hp. by apply (proj1 (Forall_forall _ _) Hp).
Qed.

Lemma file_list_entries_witness :
  Forall2 (λ afile text, read_tubs_file afile = Ok text) ["tubs.txt"] [tubs_file]
  ∧ preprocessFileList read_tubs_file (Some ["tubs.txt"]) = Ok ["data/tub_1"; "data/tub_2"].
Proof.
  assert (H : Forall2 (λ afile text, read_tubs_file afile = Ok text)
                ["tubs.txt"] [tubs_file]).
  { repeat constructor. }
  split; [exact H|].
  exact (proj1 (file_list_entries read_tubs_file ["tubs.txt"] [tubs_file] H)).
Defined.

(** X27: Without a list of files [preprocessFileList] returns no directory; a
    file that cannot be read ends it with the error of [open], whatever
    the files before it held. *)
Theorem unreadable_file_list_raises (read_text : string → result string)
    (before after : list string) (afile : string) (e : exn) :
  Forall (λ f, ∃ text, read_text f = Ok text) before →
  read_text afile = Raise e →
  preprocessFileList read_text None = Ok []
  ∧ preprocessFileList read_text (Some (before ++ afile :: after)) = Raise e.
Proof.
  intros Hb He. split; [done|]. unfold preprocessFileList.
  assert (Hr : ∀ dirs, read_dirs read_text (before ++ afile :: after) dirs = Raise e).
  { induction Hb as [|f before [text Hf] _ IH]; intros dirs; simpl.
    - by rewrite He.
    - rewrite Hf. simpl. apply IH. }
  by rewrite Hr.
Qed.

Lemma unreadable_file_list_raises_witness :
  preprocessFileList read_tubs_file (Some (["tubs.txt"] ++ "more.txt" :: ["tubs.txt"]))
  = Raise IOError.
Proof.
  refine (proj2 (unreadable_file_list_raises read_tubs_file ["tubs.txt"] ["tubs.txt"]
                   "more.txt" IOError _ _)).
  - repeat constructor. by exists tubs_file.
  - reflexivity.
Defined.
